(** * Solar-system viewer: desktop and AR placement

    A shallow embedding of the three revisions of the viewer script kept in
    this repository, and the properties of its placement state machine,
    mode controller, scene builder and render loop.

    - [ArOnly]  : src/main.js, first document (AR only, coloured spheres)
    - [Part000] : src/unnamed/part_000 (desktop view plus AR, textures)
    - [Hybrid]  : src/main.js, second document (the revision with the
                  FIX comments: overlay hidden on click, [planets] reset,
                  explicit [removeEventListener])

    JavaScript numbers are IEEE 754 binary64 values: they are modelled by
    Rocq's primitive floats, whose operations are specified in
    [Stdlib.Floats] by the same standard. *)

From Stdlib Require Import ZArith Floats Lia.
From stdpp Require Import base option list strings.

Set Warnings "-inexact-float".
Set Default Proof Using "Type".

Local Open Scope float_scope.

(** ** Numbers *)

(** [Math.PI] *)
Definition Math_PI : float := 0x1.921fb54442d18p+1.

(** ** three.js value types *)

Module Vector3.
Record t := mk { x : float; y : float; z : float }.
End Vector3.

Module Euler.
Record t := mk { x : float; y : float; z : float }.
End Euler.

(** A 4x4 matrix in column-major order, as [Matrix4.elements] and as the
    [Float32Array(16)] of an [XRRigidTransform]. *)
Record Matrix4 := mkMatrix4 {
  te0 : float; te1 : float; te2 : float; te3 : float;
  te4 : float; te5 : float; te6 : float; te7 : float;
  te8 : float; te9 : float; te10 : float; te11 : float;
  te12 : float; te13 : float; te14 : float; te15 : float }.

Definition identity4 : Matrix4 :=
  mkMatrix4 1 0 0 0  0 1 0 0  0 0 1 0  0 0 0 1.

(** [Matrix4.fromArray(array)]: [for i < 16: this.elements[i] = array[i]]. *)
Definition fromArray (array : Matrix4) : Matrix4 :=
  {| te0 := te0 array; te1 := te1 array; te2 := te2 array; te3 := te3 array;
     te4 := te4 array; te5 := te5 array; te6 := te6 array; te7 := te7 array;
     te8 := te8 array; te9 := te9 array; te10 := te10 array;
     te11 := te11 array; te12 := te12 array; te13 := te13 array;
     te14 := te14 array; te15 := te15 array |}.

(** [Vector3.setFromMatrixPosition(m)]: [x = e[12]; y = e[13]; z = e[14]]. *)
Definition setFromMatrixPosition (m : Matrix4) : Vector3.t :=
  Vector3.mk (te12 m) (te13 m) (te14 m).

(** ** Scene graph *)

(** [mesh.userData] of a celestial body. *)
Record UserData := mkUserData {
  name : string; distance : float; speed : float; angle : float }.

Inductive Kind :=
  | KScene | KGroup | KMesh | KPointLight | KHemisphereLight | KAmbientLight.

(** An [Object3D]; [parent] and [children] hold addresses in the object
    store of the application state. [userData = None] is the default [{}]. *)
Record Object3D := mkObject3D {
  kind : Kind;
  position : Vector3.t;
  rotation : Euler.t;
  scale : Vector3.t;
  matrix : Matrix4;
  matrixAutoUpdate : bool;
  visible : bool;
  parent : option nat;
  children : list nat;
  userData : option UserData }.

(** A freshly constructed object: [new THREE.Group()], [new THREE.Mesh(..)]. *)
Definition new_object (k : Kind) : Object3D :=
  {| kind := k;
     position := Vector3.mk 0 0 0;
     rotation := Euler.mk 0 0 0;
     scale := Vector3.mk 1 1 1;
     matrix := identity4;
     matrixAutoUpdate := true;
     visible := true;
     parent := None;
     children := [];
     userData := None |}.

Definition set_position v (o : Object3D) : Object3D :=
  {| kind := kind o; position := v; rotation := rotation o; scale := scale o;
  matrix := matrix o; matrixAutoUpdate := matrixAutoUpdate o; visible :=
  visible o; parent := parent o; children := children o; userData := userData
  o |}.
Definition set_rotation v (o : Object3D) : Object3D :=
  {| kind := kind o; position := position o; rotation := v; scale := scale o;
  matrix := matrix o; matrixAutoUpdate := matrixAutoUpdate o; visible :=
  visible o; parent := parent o; children := children o; userData := userData
  o |}.
Definition set_scale v (o : Object3D) : Object3D :=
  {| kind := kind o; position := position o; rotation := rotation o; scale :=
  v; matrix := matrix o; matrixAutoUpdate := matrixAutoUpdate o; visible :=
  visible o; parent := parent o; children := children o; userData := userData
  o |}.
Definition set_matrix v (o : Object3D) : Object3D :=
  {| kind := kind o; position := position o; rotation := rotation o; scale :=
  scale o; matrix := v; matrixAutoUpdate := matrixAutoUpdate o; visible :=
  visible o; parent := parent o; children := children o; userData := userData
  o |}.
Definition set_matrixAutoUpdate v (o : Object3D) : Object3D :=
  {| kind := kind o; position := position o; rotation := rotation o; scale :=
  scale o; matrix := matrix o; matrixAutoUpdate := v; visible := visible o;
  parent := parent o; children := children o; userData := userData o |}.
Definition set_visible v (o : Object3D) : Object3D :=
  {| kind := kind o; position := position o; rotation := rotation o; scale :=
  scale o; matrix := matrix o; matrixAutoUpdate := matrixAutoUpdate o; visible
  := v; parent := parent o; children := children o; userData := userData o |}.
Definition set_parent v (o : Object3D) : Object3D :=
  {| kind := kind o; position := position o; rotation := rotation o; scale :=
  scale o; matrix := matrix o; matrixAutoUpdate := matrixAutoUpdate o; visible
  := visible o; parent := v; children := children o; userData := userData o
  |}.
Definition set_children v (o : Object3D) : Object3D :=
  {| kind := kind o; position := position o; rotation := rotation o; scale :=
  scale o; matrix := matrix o; matrixAutoUpdate := matrixAutoUpdate o; visible
  := visible o; parent := parent o; children := v; userData := userData o |}.
Definition set_userData v (o : Object3D) : Object3D :=
  {| kind := kind o; position := position o; rotation := rotation o; scale :=
  scale o; matrix := matrix o; matrixAutoUpdate := matrixAutoUpdate o; visible
  := visible o; parent := parent o; children := children o; userData := v |}.
(** ** Renderer, DOM and WebXR objects *)

(** The functions handed to [renderer.setAnimationLoop]. *)
Inductive LoopCallback := LoopAnimate | LoopRenderAR | LoopRender.

(** Functions registered as event listeners: the named function [onSelect]
    and the arrow function of the ['end'] listener. *)
Inductive Callback := CbOnSelect | CbEndClosure.

Inductive EventType := EvtSelect | EvtEnd.

Record Listener := mkListener {
  l_type : EventType; l_callback : Callback; l_once : bool }.

(** An [XRSession] as an event target. *)
Record XRSession := mkXRSession { listeners : list Listener }.

(** A [WebGLRenderer]: its animation loop, [xr.enabled] and the session
    of its XR manager ([renderer.xr.getSession()]). *)
Record WebGLRenderer := mkRenderer {
  animationLoop : option LoopCallback;
  xrEnabled : bool;
  xrSession : option XRSession }.

(** Children of the [#container] element: the canvas of a renderer
    ([renderer.domElement]) or the button made by [ARButton.createButton]. *)
Inductive Element := Canvas (rid : nat) | ARButtonElement (rid : nat).

Record OrbitControls := mkControls {
  enableDamping : bool; dampingFactor : float; screenSpacePanning : bool;
  minDistance : float; maxDistance : float; disposed : bool }.

Record Camera := mkCamera {
  fov : float; near : float; far : float; cameraPosition : Vector3.t }.

(** Handle of an [XRHitTestSource]. *)
Definition XRHitTestSource := nat.

Record XRPose := mkXRPose { transform_matrix : Matrix4 }.

(** [hit.getPose(referenceSpace)] answers a pose or [null]. *)
Record XRHitTestResult := mkHit { getPose : option XRPose }.

(** What an [XRFrame] answers to [getHitTestResults], nearest first. *)
Record XRFrame := mkXRFrame { getHitTestResults : list XRHitTestResult }.

(** Calls into the platform that the script makes and does not read back. *)
Inductive Effect :=
  | Alert (msg : string)
  | ConsoleWarn (msg : string)
  | RequestReferenceSpace (type : string)
  | RequestHitTestSource
  | ControlsUpdate
  | ControlsDispose
  | Render (rid : nat) (scene : nat).

(** ** Application state

    The [let] variables of the [DOMContentLoaded] closure, the stores they
    point into, the two DOM elements the script touches and the promises
    it has left pending. *)
Record App := mkApp {
  camera : option Camera;
  scene : option nat;
  renderer : option nat;
  controls : option OrbitControls;
  reticle : option nat;
  solarSystemGroup : option nat;
  hitTestSource : option XRHitTestSource;
  hitTestSourceRequested : bool;
  planets : list nat;
  objects : list Object3D;
  renderers : list WebGLRenderer;
  container : list Element;
  containerVisible : bool;
  overlayHidden : bool;
  pendingViewerSpace : nat;
  pendingHitTestSource : nat;
  log : list Effect }.

Definition set_camera v (a : App) : App :=
  {| camera := v; scene := scene a; renderer := renderer a; controls :=
  controls a; reticle := reticle a; solarSystemGroup := solarSystemGroup a;
  hitTestSource := hitTestSource a; hitTestSourceRequested :=
  hitTestSourceRequested a; planets := planets a; objects := objects a;
  renderers := renderers a; container := container a; containerVisible :=
  containerVisible a; overlayHidden := overlayHidden a; pendingViewerSpace :=
  pendingViewerSpace a; pendingHitTestSource := pendingHitTestSource a; log :=
  log a |}.
Definition set_scene v (a : App) : App :=
  {| camera := camera a; scene := v; renderer := renderer a; controls :=
  controls a; reticle := reticle a; solarSystemGroup := solarSystemGroup a;
  hitTestSource := hitTestSource a; hitTestSourceRequested :=
  hitTestSourceRequested a; planets := planets a; objects := objects a;
  renderers := renderers a; container := container a; containerVisible :=
  containerVisible a; overlayHidden := overlayHidden a; pendingViewerSpace :=
  pendingViewerSpace a; pendingHitTestSource := pendingHitTestSource a; log :=
  log a |}.
Definition set_renderer v (a : App) : App :=
  {| camera := camera a; scene := scene a; renderer := v; controls := controls
  a; reticle := reticle a; solarSystemGroup := solarSystemGroup a;
  hitTestSource := hitTestSource a; hitTestSourceRequested :=
  hitTestSourceRequested a; planets := planets a; objects := objects a;
  renderers := renderers a; container := container a; containerVisible :=
  containerVisible a; overlayHidden := overlayHidden a; pendingViewerSpace :=
  pendingViewerSpace a; pendingHitTestSource := pendingHitTestSource a; log :=
  log a |}.
Definition set_controls v (a : App) : App :=
  {| camera := camera a; scene := scene a; renderer := renderer a; controls :=
  v; reticle := reticle a; solarSystemGroup := solarSystemGroup a;
  hitTestSource := hitTestSource a; hitTestSourceRequested :=
  hitTestSourceRequested a; planets := planets a; objects := objects a;
  renderers := renderers a; container := container a; containerVisible :=
  containerVisible a; overlayHidden := overlayHidden a; pendingViewerSpace :=
  pendingViewerSpace a; pendingHitTestSource := pendingHitTestSource a; log :=
  log a |}.
Definition set_reticle v (a : App) : App :=
  {| camera := camera a; scene := scene a; renderer := renderer a; controls :=
  controls a; reticle := v; solarSystemGroup := solarSystemGroup a;
  hitTestSource := hitTestSource a; hitTestSourceRequested :=
  hitTestSourceRequested a; planets := planets a; objects := objects a;
  renderers := renderers a; container := container a; containerVisible :=
  containerVisible a; overlayHidden := overlayHidden a; pendingViewerSpace :=
  pendingViewerSpace a; pendingHitTestSource := pendingHitTestSource a; log :=
  log a |}.
Definition set_solarSystemGroup v (a : App) : App :=
  {| camera := camera a; scene := scene a; renderer := renderer a; controls :=
  controls a; reticle := reticle a; solarSystemGroup := v; hitTestSource :=
  hitTestSource a; hitTestSourceRequested := hitTestSourceRequested a; planets
  := planets a; objects := objects a; renderers := renderers a; container :=
  container a; containerVisible := containerVisible a; overlayHidden :=
  overlayHidden a; pendingViewerSpace := pendingViewerSpace a;
  pendingHitTestSource := pendingHitTestSource a; log := log a |}.
Definition set_hitTestSource v (a : App) : App :=
  {| camera := camera a; scene := scene a; renderer := renderer a; controls :=
  controls a; reticle := reticle a; solarSystemGroup := solarSystemGroup a;
  hitTestSource := v; hitTestSourceRequested := hitTestSourceRequested a;
  planets := planets a; objects := objects a; renderers := renderers a;
  container := container a; containerVisible := containerVisible a;
  overlayHidden := overlayHidden a; pendingViewerSpace := pendingViewerSpace
  a; pendingHitTestSource := pendingHitTestSource a; log := log a |}.
Definition set_hitTestSourceRequested v (a : App) : App :=
  {| camera := camera a; scene := scene a; renderer := renderer a; controls :=
  controls a; reticle := reticle a; solarSystemGroup := solarSystemGroup a;
  hitTestSource := hitTestSource a; hitTestSourceRequested := v; planets :=
  planets a; objects := objects a; renderers := renderers a; container :=
  container a; containerVisible := containerVisible a; overlayHidden :=
  overlayHidden a; pendingViewerSpace := pendingViewerSpace a;
  pendingHitTestSource := pendingHitTestSource a; log := log a |}.
Definition set_planets v (a : App) : App :=
  {| camera := camera a; scene := scene a; renderer := renderer a; controls :=
  controls a; reticle := reticle a; solarSystemGroup := solarSystemGroup a;
  hitTestSource := hitTestSource a; hitTestSourceRequested :=
  hitTestSourceRequested a; planets := v; objects := objects a; renderers :=
  renderers a; container := container a; containerVisible := containerVisible
  a; overlayHidden := overlayHidden a; pendingViewerSpace :=
  pendingViewerSpace a; pendingHitTestSource := pendingHitTestSource a; log :=
  log a |}.
Definition set_objects v (a : App) : App :=
  {| camera := camera a; scene := scene a; renderer := renderer a; controls :=
  controls a; reticle := reticle a; solarSystemGroup := solarSystemGroup a;
  hitTestSource := hitTestSource a; hitTestSourceRequested :=
  hitTestSourceRequested a; planets := planets a; objects := v; renderers :=
  renderers a; container := container a; containerVisible := containerVisible
  a; overlayHidden := overlayHidden a; pendingViewerSpace :=
  pendingViewerSpace a; pendingHitTestSource := pendingHitTestSource a; log :=
  log a |}.
Definition set_renderers v (a : App) : App :=
  {| camera := camera a; scene := scene a; renderer := renderer a; controls :=
  controls a; reticle := reticle a; solarSystemGroup := solarSystemGroup a;
  hitTestSource := hitTestSource a; hitTestSourceRequested :=
  hitTestSourceRequested a; planets := planets a; objects := objects a;
  renderers := v; container := container a; containerVisible :=
  containerVisible a; overlayHidden := overlayHidden a; pendingViewerSpace :=
  pendingViewerSpace a; pendingHitTestSource := pendingHitTestSource a; log :=
  log a |}.
Definition set_container v (a : App) : App :=
  {| camera := camera a; scene := scene a; renderer := renderer a; controls :=
  controls a; reticle := reticle a; solarSystemGroup := solarSystemGroup a;
  hitTestSource := hitTestSource a; hitTestSourceRequested :=
  hitTestSourceRequested a; planets := planets a; objects := objects a;
  renderers := renderers a; container := v; containerVisible :=
  containerVisible a; overlayHidden := overlayHidden a; pendingViewerSpace :=
  pendingViewerSpace a; pendingHitTestSource := pendingHitTestSource a; log :=
  log a |}.
Definition set_containerVisible v (a : App) : App :=
  {| camera := camera a; scene := scene a; renderer := renderer a; controls :=
  controls a; reticle := reticle a; solarSystemGroup := solarSystemGroup a;
  hitTestSource := hitTestSource a; hitTestSourceRequested :=
  hitTestSourceRequested a; planets := planets a; objects := objects a;
  renderers := renderers a; container := container a; containerVisible := v;
  overlayHidden := overlayHidden a; pendingViewerSpace := pendingViewerSpace
  a; pendingHitTestSource := pendingHitTestSource a; log := log a |}.
Definition set_overlayHidden v (a : App) : App :=
  {| camera := camera a; scene := scene a; renderer := renderer a; controls :=
  controls a; reticle := reticle a; solarSystemGroup := solarSystemGroup a;
  hitTestSource := hitTestSource a; hitTestSourceRequested :=
  hitTestSourceRequested a; planets := planets a; objects := objects a;
  renderers := renderers a; container := container a; containerVisible :=
  containerVisible a; overlayHidden := v; pendingViewerSpace :=
  pendingViewerSpace a; pendingHitTestSource := pendingHitTestSource a; log :=
  log a |}.
Definition set_pendingViewerSpace v (a : App) : App :=
  {| camera := camera a; scene := scene a; renderer := renderer a; controls :=
  controls a; reticle := reticle a; solarSystemGroup := solarSystemGroup a;
  hitTestSource := hitTestSource a; hitTestSourceRequested :=
  hitTestSourceRequested a; planets := planets a; objects := objects a;
  renderers := renderers a; container := container a; containerVisible :=
  containerVisible a; overlayHidden := overlayHidden a; pendingViewerSpace :=
  v; pendingHitTestSource := pendingHitTestSource a; log := log a |}.
Definition set_pendingHitTestSource v (a : App) : App :=
  {| camera := camera a; scene := scene a; renderer := renderer a; controls :=
  controls a; reticle := reticle a; solarSystemGroup := solarSystemGroup a;
  hitTestSource := hitTestSource a; hitTestSourceRequested :=
  hitTestSourceRequested a; planets := planets a; objects := objects a;
  renderers := renderers a; container := container a; containerVisible :=
  containerVisible a; overlayHidden := overlayHidden a; pendingViewerSpace :=
  pendingViewerSpace a; pendingHitTestSource := v; log := log a |}.
Definition set_log v (a : App) : App :=
  {| camera := camera a; scene := scene a; renderer := renderer a; controls :=
  controls a; reticle := reticle a; solarSystemGroup := solarSystemGroup a;
  hitTestSource := hitTestSource a; hitTestSourceRequested :=
  hitTestSourceRequested a; planets := planets a; objects := objects a;
  renderers := renderers a; container := container a; containerVisible :=
  containerVisible a; overlayHidden := overlayHidden a; pendingViewerSpace :=
  pendingViewerSpace a; pendingHitTestSource := pendingHitTestSource a; log :=
  v |}.
(** The state when the script starts running. The container is hidden by
    the style sheet until a handler shows it. *)
Definition initial : App :=
  {| camera := None; scene := None; renderer := None; controls := None;
     reticle := None; solarSystemGroup := None;
     hitTestSource := None; hitTestSourceRequested := false;
     planets := [];
     objects := []; renderers := [];
     container := []; containerVisible := false; overlayHidden := false;
     pendingViewerSpace := 0; pendingHitTestSource := 0;
     log := [] |}.

(** ** Statements: state and exceptions

    A statement runs on the application state and either completes or
    throws; what it wrote before throwing stays written. *)

Inductive Exception := TypeError | NotFoundError.

Inductive Completion (A : Type) := Normal (a : A) | Throw (e : Exception).
Arguments Normal {A} a.
Arguments Throw {A} e.

Definition JS (A : Type) : Type := App → Completion A * App.

#[global] Instance JS_ret : MRet JS := λ A a s, (Normal a, s).
#[global] Instance JS_bind : MBind JS := λ A B f m s,
  match m s with
  | (Normal a, s') => f a s'
  | (Throw e, s') => (Throw e, s')
  end.

(** The state a statement leaves, however it completes. *)
Definition exec {A} (m : JS A) (s : App) : App := (m s).2.

Definition throw {A} (e : Exception) : JS A := λ s, (Throw e, s).
Definition gets {A} (f : App → A) : JS A := λ s, (Normal (f s), s).
Definition modify (f : App → App) : JS unit := λ s, (Normal (), f s).

(** Reading a property of [undefined] or [null] throws a [TypeError]. *)
Definition deref {A} (v : option A) : JS A :=
  match v with Some a => mret a | None => throw TypeError end.

Definition emit (e : Effect) : JS unit :=
  modify (λ s, set_log (log s ++ [e]) s).

(** [array.forEach((x, i) => f i x)] *)
Fixpoint forEach_from {A} (i : nat) (f : nat → A → JS unit) (l : list A)
  : JS unit :=
  match l with
  | [] => mret ()
  | a :: l' => f i a;; forEach_from (S i) f l'
  end.
Definition forEach {A} (f : nat → A → JS unit) (l : list A) : JS unit :=
  forEach_from 0 f l.

(** *** Object store *)

(** A new object gets the next address of the store. *)
Definition alloc (o : Object3D) : JS nat :=
  id ← gets (λ s, length (objects s));
  modify (λ s, set_objects (objects s ++ [o]) s);;
  mret id.

Definition getObject (id : nat) : JS Object3D :=
  o ← gets (λ s, objects s !! id); deref o.

(** A write to a property of the object at [id]. *)
Definition updObject (id : nat) (f : Object3D → Object3D) : JS unit :=
  _ ← getObject id;
  modify (λ s, set_objects (alter f id (objects s)) s).

(** [array.splice(array.indexOf(c), 1)] *)
Fixpoint remove_first (c : nat) (l : list nat) : list nat :=
  match l with
  | [] => []
  | a :: l' => if decide (a = c) then l' else a :: remove_first c l'
  end.

(** [Object3D.remove(object)] *)
Definition remove (p c : nat) : JS unit :=
  po ← getObject p;
  if decide (c ∈ children po) then
    updObject c (set_parent None);;
    updObject p (λ o, set_children (remove_first c (children o)) o)
  else mret ().

(** [Object3D.add(object)]: an object has one parent; adding it again
    moves it. *)
Definition add (p c : nat) : JS unit :=
  if decide (p = c) then mret ()
  else
    co ← getObject c;
    match parent co with Some q => remove q c | None => mret () end;;
    updObject c (set_parent (Some p));;
    updObject p (λ o, set_children (children o ++ [c]) o).

(** *** Renderers and the container element *)

#[global] Instance Element_eq_dec : EqDecision Element.
Proof. solve_decision. Defined.
#[global] Instance EventType_eq_dec : EqDecision EventType.
Proof. solve_decision. Defined.

(** [new THREE.WebGLRenderer(..)] *)
Definition newRenderer : JS nat :=
  rid ← gets (λ s, length (renderers s));
  modify (λ s,
    set_renderers (renderers s ++ [mkRenderer None false None]) s);;
  mret rid.

Definition getRenderer (rid : nat) : JS WebGLRenderer :=
  r ← gets (λ s, renderers s !! rid); deref r.

Definition updRenderer (rid : nat) (f : WebGLRenderer → WebGLRenderer)
  : JS unit :=
  _ ← getRenderer rid;
  modify (λ s, set_renderers (alter f rid (renderers s)) s).

Definition setAnimationLoop (rid : nat) (cb : option LoopCallback) : JS unit :=
  updRenderer rid (λ r, mkRenderer cb (xrEnabled r) (xrSession r)).

Definition enableXR (rid : nat) : JS unit :=
  updRenderer rid (λ r, mkRenderer (animationLoop r) true (xrSession r)).

(** [container.appendChild(node)]: a node that is already a child moves to
    the end. *)
Definition appendChild (el : Element) : JS unit :=
  modify (λ s,
    set_container (filter (λ e, e ≠ el) (container s) ++ [el]) s).

(** [container.removeChild(node)] throws when the node is not a child. *)
Definition removeChild (el : Element) : JS unit :=
  c ← gets container;
  if decide (el ∈ c) then
    modify (set_container (filter (λ e, e ≠ el) c))
  else throw NotFoundError.

(** *** The session of the current renderer *)

(** [renderer.xr.getSession()] *)
Definition getSession : JS (option XRSession) :=
  rid ← gets renderer; rid ← deref rid;
  r ← getRenderer rid;
  mret (xrSession r).

Definition setSession (x : option XRSession) : JS unit :=
  rid ← gets renderer; rid ← deref rid;
  updRenderer rid (λ r, mkRenderer (animationLoop r) (xrEnabled r) x).

(** Two listeners are the same when type and callback are: [onSelect] is
    one function object, every evaluation of an arrow function is a new
    one. *)
Definition same_callback (a b : Callback) : bool :=
  match a, b with
  | CbOnSelect, CbOnSelect => true
  | _, _ => false
  end.

Definition same_listener (ty : EventType) (cb : Callback) (l : Listener)
  : bool :=
  bool_decide (l_type l = ty) && same_callback (l_callback l) cb.

(** [session.addEventListener(type, callback, { once })]: not added again
    when the same listener is there. *)
Definition addEventListener (ty : EventType) (cb : Callback) (once : bool)
  : JS unit :=
  x ← getSession; x ← deref x;
  if existsb (same_listener ty cb) (listeners x) then mret ()
  else setSession (Some (mkXRSession (listeners x ++ [mkListener ty cb once]))).

(** [session.removeEventListener(type, callback)] *)
Definition removeEventListener (ty : EventType) (cb : Callback) : JS unit :=
  x ← getSession; x ← deref x;
  setSession (Some (mkXRSession
    (filter (λ l, same_listener ty cb l = false) (listeners x)))).

(** ** The script: what the three revisions share *)

Local Open Scope string_scope.

(** An entry of [planetConfig]; the visual attribute is a colour in the
    first revision and a texture file in the later ones. *)
Inductive Visual := Color (rgb : Z) | Texture (file : string).

Record Config := mkConfig {
  c_name : string; c_radius : float; c_distance : float;
  c_visual : Visual; c_speed : float }.

(** [angle: Math.random() * Math.PI * 2] *)
Definition initial_angle (random : float) : float := random * Math_PI * 2.

(** [userData.speed]; a property missing from [{}] reads [undefined],
    which arithmetic turns into [NaN]. *)
Definition speed_of (ud : option UserData) : float :=
  match ud with Some u => speed u | None => nan end.

Definition set_rotation_y (v : float) (o : Object3D) : Object3D :=
  set_rotation (Euler.mk (Euler.x (rotation o)) v (Euler.z (rotation o))) o.

Definition set_position_x (v : float) (o : Object3D) : Object3D :=
  set_position
    (Vector3.mk v (Vector3.y (position o)) (Vector3.z (position o))) o.

(** [renderer.render(scene, camera)]. Drawing reads the scene; the only
    mutation three.js makes is to recompose the [matrix] of objects whose
    [matrixAutoUpdate] is on, a quantity derived from position, rotation
    and scale that the script never reads, so the store keeps a [matrix]
    only as written by the script (the reticle's, which has
    [matrixAutoUpdate] off). *)
Definition render_scene : JS unit :=
  rid ← gets renderer; rid ← deref rid;
  sc ← gets scene; sc ← deref sc;
  cam ← gets camera; _ ← deref cam;
  emit (Render rid sc).

(** The body of the orbit loop of the later revisions:
<<
  planets.forEach(pivot => {
      const mesh = pivot.children[0];
      const userData = mesh.userData;
      pivot.rotation.y += userData.speed;
      mesh.rotation.y += userData.speed * 2;
  });
>> *)
Definition spin_planet (pivot : nat) : JS unit :=
  p ← getObject pivot;
  mesh ← deref (head (children p));
  m ← getObject mesh;
  let userData := userData m in
  p ← getObject pivot;
  updObject pivot (set_rotation_y (Euler.y (rotation p) + speed_of userData));;
  m ← getObject mesh;
  updObject mesh (set_rotation_y (Euler.y (rotation m) + speed_of userData * 2)).

Definition spin_planets : JS unit :=
  ps ← gets planets;
  forEach (λ _ pivot, spin_planet pivot) ps.

(** The arrow function of the ['end'] listener:
    [() => { hitTestSourceRequested = false; hitTestSource = null; }] *)
Definition endClosure : JS unit :=
  modify (set_hitTestSourceRequested false);;
  modify (set_hitTestSource None).

(** The [if (frame) { ... }] block of the AR loop, the same text in the
    three revisions (main.js:112-146, main.js:373-402, part_000:189-218),
    in its two statements. The first revision labels them
    "Hit-test Request (only requested once)" and "Perform Hit-test".

    The promise chain started by [requestReferenceSpace] is left pending;
    its continuations are [viewerSpaceGranted] and [hitTestSourceGranted]
    below. *)
Definition hitTestRequest (session : option XRSession) : JS unit :=
  requested ← gets hitTestSourceRequested;
  if bool_decide (is_Some session) && negb requested then
    emit (RequestReferenceSpace "viewer");;
    modify (λ s, set_pendingViewerSpace (S (pendingViewerSpace s)) s);;
    addEventListener EvtEnd CbEndClosure false;;
    modify (set_hitTestSourceRequested true)
  else mret ().

Definition performHitTest (frame : XRFrame) : JS unit :=
  source ← gets hitTestSource;
  match source with
  | Some _ =>
      match getHitTestResults frame with
      | hit :: _ =>
          let pose := getPose hit in
          r ← gets reticle; r ← deref r;
          updObject r (set_visible true);;
          pose ← deref pose;
          updObject r (set_matrix (fromArray (transform_matrix pose)));;
          addEventListener EvtSelect CbOnSelect true
      | [] =>
          r ← gets reticle; r ← deref r;
          updObject r (set_visible false)
      end
  | None => mret ()
  end.

Definition hitTestBlock (frame : option XRFrame) : JS unit :=
  match frame with
  | Some frame =>
      (* const referenceSpace = renderer.xr.getReferenceSpace(); *)
      session ← getSession;
      hitTestRequest session;;
      performHitTest frame
  | None => mret ()
  end.

(** [.then((viewerSpace) => { session.requestHitTestSource(..).then(..) })] *)
Definition viewerSpaceGranted : JS unit :=
  n ← gets pendingViewerSpace;
  match n with
  | S n' =>
      modify (set_pendingViewerSpace n');;
      emit RequestHitTestSource;;
      modify (λ s, set_pendingHitTestSource (S (pendingHitTestSource s)) s)
  | O => mret ()
  end.

(** [.then((source) => { hitTestSource = source; })] *)
Definition hitTestSourceGranted (source : XRHitTestSource) : JS unit :=
  n ← gets pendingHitTestSource;
  match n with
  | S n' =>
      modify (set_pendingHitTestSource n');;
      modify (set_hitTestSource (Some source))
  | O => mret ()
  end.

(** A rejected promise of the chain runs no continuation. *)
Definition viewerSpaceRejected : JS unit :=
  modify (λ s, set_pendingViewerSpace (pred (pendingViewerSpace s)) s).
Definition hitTestSourceRejected : JS unit :=
  modify (λ s, set_pendingHitTestSource (pred (pendingHitTestSource s)) s).

(** [renderAR(timestamp, frame)] of the later revisions
    (part_000:188-229, main.js:372-413). *)
Definition renderAR (frame : option XRFrame) : JS unit :=
  hitTestBlock frame;;
  spin_planets;;
  render_scene.

(** [animate()] of the later revisions (part_000:127-143, main.js:318-330). *)
Definition animate : JS unit :=
  c ← gets controls; _ ← deref c;
  emit ControlsUpdate;;
  spin_planets;;
  render_scene.

(** The reticle mesh made by [initAR], the same text in the three
    revisions. *)
Definition createReticle : JS unit :=
  r ← alloc (new_object KMesh);
  modify (set_reticle (Some r));;
  updObject r (set_matrixAutoUpdate false);;
  updObject r (set_visible false);;
  sc ← gets scene; sc ← deref sc;
  add sc r.

(** ** The platform's capability answer

    [navigator.xr] is an object or [undefined];
    [navigator.xr.isSessionSupported(mode)] returns a promise of a boolean.
    The condition of the start handler is the value of
    [navigator.xr && navigator.xr.isSessionSupported('immersive-ar')]. *)

Inductive Settlement := Fulfilled (answer : bool) | Rejected.

Inductive Value :=
  | VUndefined
  | VXRSystem (supported : Settlement)
  | VPromise (outcome : Settlement).

(** [ToBoolean]: [undefined] is falsy, every object is truthy. *)
Definition ToBoolean (v : Value) : bool :=
  match v with
  | VUndefined => false
  | VXRSystem _ => true
  | VPromise _ => true
  end.

(** [a && b] evaluates [b] only when [a] is truthy. *)
Definition js_and (a : Value) (b : unit → JS Value) : JS Value :=
  if ToBoolean a then b () else mret a.

Record Navigator := mkNavigator { xr : Value }.

Definition isSessionSupported (xr : Value) : JS Value :=
  match xr with
  | VXRSystem outcome => mret (VPromise outcome)
  | _ => throw TypeError
  end.

Definition xr_condition (navigator : Navigator) : JS bool :=
  v ← js_and (xr navigator) (λ _, isSessionSupported (xr navigator));
  mret (ToBoolean v).

(** ** src/unnamed/part_000 *)

Module Part000.

Definition planetConfig : list Config :=
  [ mkConfig "Sun" 0.5 0 (Texture "sun.jpg") 0;
    mkConfig "Mercury" 0.05 1.0 (Texture "mercury.jpg") 0.02;
    mkConfig "Venus" 0.08 1.5 (Texture "venus.jpg") 0.015;
    mkConfig "Earth" 0.09 2.0 (Texture "earth.jpg") 0.01;
    mkConfig "Mars" 0.06 2.5 (Texture "mars.jpg") 0.008;
    mkConfig "Jupiter" 0.20 3.5 (Texture "jupiter.jpg") 0.005;
    mkConfig "Saturn" 0.18 4.5 (Texture "saturn.jpg") 0.004;
    mkConfig "Uranus" 0.12 5.5 (Texture "uranus.jpg") 0.003;
    mkConfig "Neptune" 0.11 6.5 (Texture "neptune.jpg") 0.002 ].

(** The body of [planetConfig.forEach(config => ..)]; [random] is what
    [Math.random()] answers for this body. The texture requests and the
    materials have no part in what follows and are left out. *)
Definition createBody (random : float) (config : Config) : JS unit :=
  (if bool_decide (c_name config = "Sun") then
     sunLight ← alloc (new_object KPointLight);
     updObject sunLight (set_position (Vector3.mk 0 0 0));;
     g ← gets solarSystemGroup; g ← deref g;
     add g sunLight
   else mret ());;
  mesh ← alloc (new_object KMesh);
  updObject mesh (set_userData (Some
    {| name := c_name config;
       distance := c_distance config;
       speed := c_speed config;
       angle := initial_angle random |}));;
  if bool_decide (c_name config ≠ "Sun") then
    pivot ← alloc (new_object KGroup);
    add pivot mesh;;
    updObject mesh (set_position_x (c_distance config));;
    g ← gets solarSystemGroup; g ← deref g;
    add g pivot;;
    modify (λ s, set_planets (planets s ++ [pivot]) s)
  else
    g ← gets solarSystemGroup; g ← deref g;
    add g mesh.

(** [createSolarSystem()]; the i-th call of [Math.random()] answers
    [random i]. The star field is added by a callback of the texture
    loader, outside the functions studied here. *)
Definition createSolarSystem (random : nat → float) : JS unit :=
  g ← alloc (new_object KGroup);
  modify (set_solarSystemGroup (Some g));;
  forEach (λ i config, createBody (random i) config) planetConfig.

Definition init3D (random : nat → float) : JS unit :=
  modify (set_containerVisible true);;
  sc ← alloc (new_object KScene);
  modify (set_scene (Some sc));;
  rid ← newRenderer;
  modify (set_renderer (Some rid));;
  appendChild (Canvas rid);;
  modify (set_camera (Some (mkCamera 70 0.1 1000 (Vector3.mk 0 5 10))));;
  light ← alloc (new_object KAmbientLight);
  sc ← gets scene; sc ← deref sc;
  add sc light;;
  modify (set_controls (Some (mkControls true 0.05 false 2 30 false)));;
  createSolarSystem random;;
  rid ← gets renderer; rid ← deref rid;
  setAnimationLoop rid (Some LoopAnimate).

Definition initAR (random : nat → float) : JS unit :=
  c ← gets controls;
  (match c with
   | Some c =>
       emit ControlsDispose;;
       modify (set_controls (Some
         (mkControls (enableDamping c) (dampingFactor c)
            (screenSpacePanning c) (minDistance c) (maxDistance c) true)))
   | None => mret ()
   end);;
  rid ← gets renderer; rid ← deref rid;
  removeChild (Canvas rid);;
  setAnimationLoop rid None;;
  sc ← alloc (new_object KScene);
  modify (set_scene (Some sc));;
  rid ← newRenderer;
  modify (set_renderer (Some rid));;
  enableXR rid;;
  appendChild (Canvas rid);;
  modify (set_camera (Some (mkCamera 70 0.01 20 (Vector3.mk 0 0 0))));;
  light ← alloc (new_object KHemisphereLight);
  sc ← gets scene; sc ← deref sc;
  add sc light;;
  createSolarSystem random;;
  appendChild (ARButtonElement rid);;
  createReticle;;
  setAnimationLoop rid (Some LoopRenderAR).

Definition onSelect : JS unit :=
  r ← gets reticle; r ← deref r;
  ro ← getObject r;
  if visible ro then
    g ← gets solarSystemGroup; g ← deref g;
    updObject g (set_position (setFromMatrixPosition (matrix ro)));;
    updObject g (set_scale (Vector3.mk 0.3 0.3 0.3));;
    sc ← gets scene; sc ← deref sc;
    add sc g;;
    updObject r (set_visible false)
  else mret ().

(** The ['click'] listener of the start button. *)
Definition startClick (navigator : Navigator) (random : nat → float)
  : JS unit :=
  supported ← xr_condition navigator;
  if (supported : bool) then
    modify (set_overlayHidden true);;
    initAR random
  else
    emit (Alert
      "WebXR Augmented Reality not supported. Falling back to interactive 3D view.");;
    modify (set_overlayHidden true);;
    init3D random.

(** What the script does when the document is loaded: [init3D()]. *)
Definition load (random : nat → float) : JS unit := init3D random.

End Part000.

(** ** src/main.js, second document *)

Module Hybrid.

Definition planetConfig : list Config := Part000.planetConfig.

(** The body of the [forEach] is the text of part_000 with other
    texture paths. *)
Definition createBody := Part000.createBody.

(** [createSolarSystem(isAR = false)]; [isAR] only decides whether the
    star-field texture is requested. *)
Definition createSolarSystem (isAR : bool) (random : nat → float)
  : JS unit :=
  g ← alloc (new_object KGroup);
  modify (set_solarSystemGroup (Some g));;
  forEach (λ i config, createBody (random i) config) planetConfig.

Definition init3D (random : nat → float) : JS unit :=
  modify (set_containerVisible true);;
  sc ← alloc (new_object KScene);
  modify (set_scene (Some sc));;
  rid ← newRenderer;
  modify (set_renderer (Some rid));;
  appendChild (Canvas rid);;
  modify (set_camera (Some (mkCamera 70 0.1 1000 (Vector3.mk 0 5 10))));;
  light ← alloc (new_object KAmbientLight);
  sc ← gets scene; sc ← deref sc;
  add sc light;;
  modify (set_controls (Some (mkControls true 0.05 false 2 30 false)));;
  createSolarSystem false random;;
  sc ← gets scene; sc ← deref sc;
  g ← gets solarSystemGroup; g ← deref g;
  add sc g;;
  rid ← gets renderer; rid ← deref rid;
  setAnimationLoop rid (Some LoopAnimate).

Definition initAR (random : nat → float) : JS unit :=
  c ← gets controls;
  (match c with
   | Some c =>
       emit ControlsDispose;;
       modify (set_controls (Some
         (mkControls (enableDamping c) (dampingFactor c)
            (screenSpacePanning c) (minDistance c) (maxDistance c) true)))
   | None => mret ()
   end);;
  rid ← gets renderer; rid ← deref rid;
  removeChild (Canvas rid);;
  setAnimationLoop rid None;;
  modify (set_planets []);;
  sc ← alloc (new_object KScene);
  modify (set_scene (Some sc));;
  rid ← newRenderer;
  modify (set_renderer (Some rid));;
  enableXR rid;;
  appendChild (Canvas rid);;
  modify (set_camera (Some (mkCamera 70 0.01 20 (Vector3.mk 0 0 0))));;
  light ← alloc (new_object KHemisphereLight);
  sc ← gets scene; sc ← deref sc;
  add sc light;;
  createSolarSystem true random;;
  appendChild (ARButtonElement rid);;
  createReticle;;
  setAnimationLoop rid (Some LoopRenderAR).

Definition onSelect : JS unit :=
  r ← gets reticle; r ← deref r;
  ro ← getObject r;
  if visible ro then
    g ← gets solarSystemGroup; g ← deref g;
    updObject g (set_position (setFromMatrixPosition (matrix ro)));;
    updObject g (set_scale (Vector3.mk 0.3 0.3 0.3));;
    sc ← gets scene; sc ← deref sc;
    add sc g;;
    updObject r (set_visible false);;
    removeEventListener EvtSelect CbOnSelect
  else mret ().

Definition startClick (navigator : Navigator) (random : nat → float)
  : JS unit :=
  modify (set_overlayHidden true);;
  modify (set_containerVisible true);;
  supported ← xr_condition navigator;
  if (supported : bool) then
    initAR random
  else
    emit (ConsoleWarn
      "WebXR Augmented Reality not supported. Falling back to interactive 3D view.");;
    emit (Alert
      "WebXR Augmented Reality not supported. Falling back to interactive 3D view. Please try on an AR-enabled phone using HTTPS.");;
    init3D random.

Definition load (random : nat → float) : JS unit := init3D random.

End Hybrid.

(** ** src/main.js, first document *)

Module ArOnly.

Definition planetConfig : list Config :=
  [ mkConfig "Sun" 0.25 0 (Color 0xFFFF00) 0;
    mkConfig "Mercury" 0.03 0.4 (Color 0xAAAAAA) 0.02;
    mkConfig "Venus" 0.05 0.6 (Color 0xDD9900) 0.015;
    mkConfig "Earth" 0.05 0.8 (Color 0x0000FF) 0.01;
    mkConfig "Mars" 0.04 1.0 (Color 0xFF4400) 0.008 ].

Definition createBody (random : float) (config : Config) : JS unit :=
  mesh ← alloc (new_object KMesh);
  updObject mesh (set_userData (Some
    {| name := c_name config;
       distance := c_distance config;
       speed := c_speed config;
       angle := initial_angle random |}));;
  if bool_decide (c_name config ≠ "Sun") then
    pivot ← alloc (new_object KGroup);
    add pivot mesh;;
    updObject mesh (set_position_x (c_distance config));;
    g ← gets solarSystemGroup; g ← deref g;
    add g pivot;;
    modify (λ s, set_planets (planets s ++ [pivot]) s)
  else
    g ← gets solarSystemGroup; g ← deref g;
    add g mesh.

Definition createSolarSystem (random : nat → float) : JS unit :=
  g ← alloc (new_object KGroup);
  modify (set_solarSystemGroup (Some g));;
  forEach (λ i config, createBody (random i) config) planetConfig;;
  pointLight ← alloc (new_object KPointLight);
  updObject pointLight (set_position (Vector3.mk 0 0 0));;
  g ← gets solarSystemGroup; g ← deref g;
  add g pointLight.

Definition initAR (random : nat → float) : JS unit :=
  createSolarSystem random;;
  sc ← alloc (new_object KScene);
  modify (set_scene (Some sc));;
  light ← alloc (new_object KHemisphereLight);
  sc ← gets scene; sc ← deref sc;
  add sc light;;
  rid ← newRenderer;
  modify (set_renderer (Some rid));;
  enableXR rid;;
  appendChild (Canvas rid);;
  modify (set_camera (Some (mkCamera 70 0.01 20 (Vector3.mk 0 0 0))));;
  appendChild (ARButtonElement rid);;
  createReticle;;
  rid ← gets renderer; rid ← deref rid;
  setAnimationLoop rid (Some LoopRender).

(** The orbit loop of this revision turns the pivots only, and the whole
    group with them, once the group is in the scene. *)
Definition orbit_planet (pivot : nat) : JS unit :=
  p ← getObject pivot;
  mesh ← deref (head (children p));
  m ← getObject mesh;
  let userData := userData m in
  updObject pivot (set_rotation_y (Euler.y (rotation p) + speed_of userData)).

Definition render (frame : option XRFrame) : JS unit :=
  hitTestBlock frame;;
  g ← gets solarSystemGroup;
  (match g with
   | Some g =>
       sc ← gets scene; sc ← deref sc;
       sco ← getObject sc;
       if decide (g ∈ children sco) then
         ps ← gets planets;
         forEach (λ _ pivot, orbit_planet pivot) ps;;
         go ← getObject g;
         updObject g (set_rotation_y (Euler.y (rotation go) + 0.001))
       else mret ()
   | None => mret ()
   end);;
  render_scene.

Definition onSelect : JS unit :=
  r ← gets reticle; r ← deref r;
  ro ← getObject r;
  if visible ro then
    g ← gets solarSystemGroup; g ← deref g;
    updObject g (set_position (setFromMatrixPosition (matrix ro)));;
    sc ← gets scene; sc ← deref sc;
    add sc g;;
    updObject r (set_visible false)
  else mret ().

Definition startClick (navigator : Navigator) (random : nat → float)
  : JS unit :=
  supported ← xr_condition navigator;
  if (supported : bool) then
    modify (set_overlayHidden true);;
    initAR random
  else
    emit (Alert
      "Your browser or device does not support WebXR Augmented Reality. Please try a modern mobile browser (Chrome/Safari) on an AR-enabled phone.").

(** Nothing runs at load time in this revision. *)
Definition load (random : nat → float) : JS unit := mret ().

End ArOnly.

(** ** The event loop

    A revision is its handlers; the platform calls them. *)

Inductive Revision := RArOnly | RPart000 | RHybrid.

Record Program := mkProgram {
  p_load : (nat → float) → JS unit;
  p_startClick : Navigator → (nat → float) → JS unit;
  p_onSelect : JS unit;
  p_loop : LoopCallback → option XRFrame → JS unit }.

Definition loop_of_later (cb : LoopCallback) (frame : option XRFrame)
  : JS unit :=
  match cb with
  | LoopAnimate => animate
  | LoopRenderAR => renderAR frame
  | LoopRender => mret ()
  end.

Definition part000 : Program :=
  mkProgram Part000.load Part000.startClick Part000.onSelect loop_of_later.

Definition hybrid : Program :=
  mkProgram Hybrid.load Hybrid.startClick Hybrid.onSelect loop_of_later.

Definition arOnly : Program :=
  mkProgram ArOnly.load ArOnly.startClick ArOnly.onSelect
    (λ cb frame, match cb with LoopRender => ArOnly.render frame
                 | _ => mret () end).

Definition program (v : Revision) : Program :=
  match v with
  | RArOnly => arOnly
  | RPart000 => part000
  | RHybrid => hybrid
  end.

(** An exception thrown by a listener or a callback is reported by the
    platform and does not reach its caller. *)
Definition try_ (m : JS unit) : JS unit := λ s, (Normal (), exec m s).

Definition call (P : Program) (cb : Callback) : JS unit :=
  match cb with
  | CbOnSelect => p_onSelect P
  | CbEndClosure => endClosure
  end.

#[global] Instance Callback_eq_dec : EqDecision Callback.
Proof. solve_decision. Defined.
#[global] Instance Listener_eq_dec : EqDecision Listener.
Proof. solve_decision. Defined.

(** One listener of the snapshot taken when the dispatch began: skipped
    when it has been removed meanwhile, removed before it runs when it was
    registered with [once]. *)
Definition invoke (P : Program) (l : Listener) : JS unit :=
  x ← getSession;
  match x with
  | Some x =>
      if decide (l ∈ listeners x) then
        (if l_once l then
           setSession (Some (mkXRSession
             (filter (λ l', l' ≠ l) (listeners x))))
         else mret ());;
        try_ (call P (l_callback l))
      else mret ()
  | None => mret ()
  end.

(** The session of the current renderer dispatches an event of type [ty]. *)
Definition dispatchEvent (P : Program) (ty : EventType) : JS unit :=
  x ← getSession;
  match x with
  | Some x =>
      forEach (λ _ l, invoke P l)
        (filter (λ l, l_type l = ty) (listeners x))
  | None => mret ()
  end.

(** What happens to the page. *)
Inductive Event :=
  | Load (random : nat → float)
  | StartClick (navigator : Navigator) (random : nat → float)
  | SessionStart
  | Tick (frame : XRFrame)
  | ViewerSpaceGranted
  | ViewerSpaceRejected
  | HitTestSourceGranted (source : XRHitTestSource)
  | HitTestSourceRejected
  | Select
  | SessionEnd.

(** The user taps the AR button of the current renderer and the platform
    grants a session. *)
Definition sessionStart : JS unit :=
  rid ← gets renderer; rid ← deref rid;
  c ← gets container;
  x ← getSession;
  if bool_decide (ARButtonElement rid ∈ (c : list Element))
     && bool_decide ((x : option XRSession) = None) then
    setSession (Some (mkXRSession []))
  else mret ().

(** One display refresh: every renderer that has an animation loop calls
    it. The loop of a renderer that presents a session gets the XR frame;
    the others get none. *)
Definition tick (P : Program) (frame : XRFrame) : JS unit :=
  rs ← gets renderers;
  forEach (λ _ r,
    match animationLoop r with
    | Some cb =>
        try_ (p_loop P cb
          (match xrSession r with Some _ => Some frame | None => None end))
    | None => mret ()
    end) rs.

Definition handle (P : Program) (e : Event) : JS unit :=
  match e with
  | Load random => p_load P random
  | StartClick navigator random => p_startClick P navigator random
  | SessionStart => sessionStart
  | Tick frame => tick P frame
  | ViewerSpaceGranted => viewerSpaceGranted
  | ViewerSpaceRejected => viewerSpaceRejected
  | HitTestSourceGranted source => hitTestSourceGranted source
  | HitTestSourceRejected => hitTestSourceRejected
  | Select => dispatchEvent P EvtSelect
  | SessionEnd => dispatchEvent P EvtEnd;; try_ (setSession None)
  end.

Definition step (P : Program) (s : App) (e : Event) : App :=
  exec (handle P e) s.

Definition run (P : Program) (es : list Event) (s : App) : App :=
  foldl (step P) s es.

(** ** Vocabulary of the properties *)

Local Close Scope string_scope.

(** The object a variable of the script points to. *)
Definition lookup_var (v : App → option nat) (s : App) : option Object3D :=
  id ← v s; objects s !! id.

(** [reticle.visible]; nothing is shown before the reticle exists. *)
Definition reticle_visible (s : App) : bool :=
  match lookup_var reticle s with Some o => visible o | None => false end.

(** Visibility and pose of the reticle. *)
Definition reticle_state (s : App) : option (bool * Matrix4) :=
  (λ o, (visible o, matrix o)) <$> lookup_var reticle s.

(** Whether the scene lists the solar-system group among its children. *)
Definition attached (s : App) : bool :=
  match solarSystemGroup s, lookup_var scene s with
  | Some g, Some sc => bool_decide (g ∈ children sc)
  | _, _ => false
  end.

(** Position, scale and parent of the solar-system group, and its
    attachment to the scene. *)
Definition placement (s : App)
  : option (Vector3.t * Vector3.t * option nat) * bool :=
  ((λ o, (position o, scale o, parent o)) <$> lookup_var solarSystemGroup s,
   attached s).

(** The properties of an object that no placement touches. *)
Definition untouched (o : Object3D) :=
  (kind o, rotation o, matrix o, matrixAutoUpdate o, userData o).

(** The three outcomes of the hit test of a frame on the reticle [ro]:
    no result, a first result with a pose, a first result without. *)
Definition tracked (frame : XRFrame) (ro : Object3D) : bool * Matrix4 :=
  match getHitTestResults frame with
  | [] => (false, matrix ro)
  | hit :: _ =>
      (true, match getPose hit with
             | Some pose => transform_matrix pose
             | None => matrix ro
             end)
  end.

(** The current renderer exists; [renderer.xr] can be asked. *)
Definition has_renderer (s : App) : Prop :=
  ∃ rid r, renderer s = Some rid ∧ renderers s !! rid = Some r.

(** The session of the current renderer, if it presents one. *)
Definition current_session (s : App) : option XRSession :=
  rid ← renderer s; r ← renderers s !! rid; xrSession r.

(** How often the script has started the request chain for a hit-test
    source, and how often the chain has reached [requestHitTestSource]. *)
Definition is_viewer_request (e : Effect) : bool :=
  match e with RequestReferenceSpace _ => true | _ => false end.
Definition is_source_request (e : Effect) : bool :=
  match e with RequestHitTestSource => true | _ => false end.
Definition issued (s : App) : nat :=
  length (filter (λ e, is_viewer_request e = true) (log s)).
Definition issued_source (s : App) : nat :=
  length (filter (λ e, is_source_request e = true) (log s)).

(** Events that happen inside one session: frames, the settling of the
    promises, taps. *)
Definition in_session (e : Event) : bool :=
  match e with
  | Tick _ | ViewerSpaceGranted | ViewerSpaceRejected
  | HitTestSourceGranted _ | HitTestSourceRejected | Select => true
  | Load _ | StartClick _ _ | SessionStart | SessionEnd => false
  end.

(** The listeners the script registers: [onSelect] once for ['select'],
    the resetting arrow function for ['end']. *)
Definition script_listener (l : Listener) : Prop :=
  l = mkListener EvtSelect CbOnSelect true ∨
  l = mkListener EvtEnd CbEndClosure false.

Definition script_listeners (s : App) : Prop :=
  ∀ rid r x l,
    renderers s !! rid = Some r → xrSession r = Some x →
    l ∈ listeners x → script_listener l.

(** [Math.random()] answers a number of [[0, 1)]. *)
Definition unit_interval (random : float) : Prop :=
  (0 <=? random)%float = true ∧ (random <? 1)%float = true.

(** A phase of [[0, 2π)], with the script's own [Math.PI * 2]. *)
Definition phase_range (angle : float) : Prop :=
  (0 <=? angle)%float = true ∧ (angle <? Math_PI * 2)%float = true.

(** [v] added [n] times to [a], as [n] runs of [a += v] do. *)
Definition advanced (v : float) (n : nat) (a : float) : float :=
  Nat.iter n (λ a, a + v)%float a.

(** A statement keeps [I] when [I] holds in the state it leaves, however
    it completes. *)
Definition preserves {A} (I : App → Prop) (m : JS A) : Prop :=
  ∀ s, I s → I (exec m s).

(** *** Rounding of binary64 products *)

(** What [binary_round_aux] returns for a rounded mantissa. *)
Definition rounded (sx : bool) (mr e : Z) : spec_float :=
  match mr with
  | Z0 => S754_zero sx
  | Zpos m => if (e <=? 971)%Z then S754_finite sx m e else S754_infinity sx
  | Zneg _ => S754_nan
  end.

(** A float that is zero, or positive and below the positive float of
    mantissa [mb] and exponent [eb]. *)
Inductive nonneg_below (mb eb : Z) : spec_float → Prop :=
  | nb_zero s : nonneg_below mb eb (S754_zero s)
  | nb_finite m e :
      (e < eb ∨ (e = eb ∧ Z.pos m < mb))%Z →
      nonneg_below mb eb (S754_finite false m e).

(** The mantissa of [Math.PI]. *)
Definition PI_mantissa : positive := 7074237752028440.

(** *** Further vocabulary *)

(** The scene builder of a revision; only the last one takes [isAR]. *)
Definition builder (v : Revision) (isAR : bool) : (nat → float) → JS unit :=
  match v with
  | RArOnly => ArOnly.createSolarSystem
  | RPart000 => Part000.createSolarSystem
  | RHybrid => Hybrid.createSolarSystem isAR
  end.

(** Every body stored at address [n] or above has its phase in range. *)
Definition phases_from (n : nat) (s : App) : Prop :=
  ∀ id o ud,
    n ≤ id → objects s !! id = Some o → userData o = Some ud →
    phase_range (angle ud).

(** [s'] differs from [s] at most in where the group is placed, in the
    visibility of the reticle, in who is whose child, and in what the
    platform holds: sessions, listeners, the hit-test flags. *)
Definition same_but_placement (s s' : App) : Prop :=
  untouched <$> objects s' = untouched <$> objects s ∧
  planets s' = planets s ∧
  solarSystemGroup s' = solarSystemGroup s ∧
  reticle s' = reticle s ∧
  scene s' = scene s ∧
  camera s' = camera s ∧
  controls s' = controls s ∧
  container s' = container s ∧
  log s' = log s ∧
  (∀ id, solarSystemGroup s ≠ Some id →
     (λ o, (position o, scale o)) <$> objects s' !! id
     = (λ o, (position o, scale o)) <$> objects s !! id) ∧
  (∀ id, reticle s ≠ Some id →
     visible <$> objects s' !! id = visible <$> objects s !! id).

(** The loop a revision installs for AR. *)
Definition ar_loop (v : Revision) : option XRFrame → JS unit :=
  match v with
  | RArOnly => ArOnly.render
  | RPart000 | RHybrid => renderAR
  end.

(** A session as the script keeps it: only its own listeners, and at most
    one of them for ['select']. *)
Definition tidy_session (x : XRSession) : Prop :=
  Forall script_listener (listeners x) ∧
  length (filter (λ l, l_type l = EvtSelect) (listeners x)) ≤ 1.

Definition tidy_listeners (s : App) : Prop :=
  ∀ rid r x,
    renderers s !! rid = Some r → xrSession r = Some x → tidy_session x.

(** Sample inputs: a pose at a given position, a frame whose only hit has
    that pose, and the page of a revision once an AR session tracks a
    surface. *)
Definition pose_at (x y z : float) : XRPose :=
  mkXRPose (mkMatrix4 1 0 0 0  0 1 0 0  0 0 1 0  x y z 1).

Definition frame_at (x y z : float) : XRFrame :=
  mkXRFrame [mkHit (Some (pose_at x y z))].

Definition tracking_page (P : Program) : App :=
  run P
    [Load (λ _, 0.5%float);
     StartClick (mkNavigator (VXRSystem (Fulfilled true))) (λ _, 0.25%float);
     SessionStart; Tick (frame_at 1 2 3); ViewerSpaceGranted;
     HitTestSourceGranted 7%nat; Tick (frame_at 1 2 3)] initial.

(** How many more requests the script may start in the running session:
    none once the flag is set. The second budget counts how many more
    times the promise chain may reach [requestHitTestSource]. *)
Definition request_budget (s : App) : nat :=
  issued s + (if hitTestSourceRequested s then 0 else 1).

Definition chain_budget (s : App) : nat :=
  issued_source s + pendingViewerSpace s
  + (if hitTestSourceRequested s then 0 else 1).

Definition within_budget (b1 b2 : nat) (s : App) : Prop :=
  request_budget s ≤ b1 ∧ chain_budget s ≤ b2.

(** What the ['end'] listener leaves of a state. *)
Definition reset_hit_test (s : App) : App :=
  set_hitTestSource None (set_hitTestSourceRequested false s).

(** The listener that the hit-test request registers for ['end']. *)
Definition end_listener : Listener := mkListener EvtEnd CbEndClosure false.

(** The properties of an object that [Object3D.add] leaves alone. *)
Definition own_properties (o : Object3D) :=
  (kind o, position o, rotation o, scale o, matrix o, matrixAutoUpdate o,
   visible o, userData o).

(** The scale [onSelect] gives the group: the first revision has none. *)
Definition placed_scale (v : Revision) (before : Vector3.t) : Vector3.t :=
  match v with
  | RArOnly => before
  | RPart000 | RHybrid => Vector3.mk 0.3 0.3 0.3
  end.

(** The parent of the object at [id], when it has one, is in the store. *)
Definition parent_in_store (s : App) (id : nat) : Prop :=
  ∀ o q, objects s !! id = Some o → parent o = Some q →
         is_Some (objects s !! q).

(** [m] run on [s] completes normally, with a result and a state that
    satisfy [Q]. *)
Definition returns {A} (m : JS A) (s : App) (Q : A → App → Prop) : Prop :=
  ∃ a s', m s = (Normal a, s') ∧ Q a s'.

(** *** What the builders make *)

Definition planetConfig_of (v : Revision) : list Config :=
  match v with
  | RArOnly => ArOnly.planetConfig
  | RPart000 => Part000.planetConfig
  | RHybrid => Hybrid.planetConfig
  end.

(** The mesh of a body as the builders leave it: it carries the entry of
    the configuration and the phase drawn for it, sits at the configured
    distance along x and is not turned. *)
Definition body_of (config : Config) (random : float) (o : Object3D)
  : Prop :=
  kind o = KMesh ∧
  position o = Vector3.mk (c_distance config) 0 0 ∧
  rotation o = Euler.mk 0 0 0 ∧
  children o = [] ∧
  userData o = Some {| name := c_name config;
                       distance := c_distance config;
                       speed := c_speed config;
                       angle := initial_angle random |}.

(** A planet of the store [os]: a pivot at the origin of the group [g],
    not turned, whose only child is the mesh of the body. *)
Definition planet_at (os : list Object3D) (g pivot : nat) (config : Config)
    (random : float) : Prop :=
  ∃ po mesh mo,
    os !! pivot = Some po ∧ kind po = KGroup ∧ parent po = Some g ∧
    children po = [mesh] ∧
    position po = Vector3.mk 0 0 0 ∧ rotation po = Euler.mk 0 0 0 ∧
    os !! mesh = Some mo ∧ parent mo = Some pivot ∧
    body_of config random mo.

(** The sun of the store [os]: the mesh of the first entry of the
    configuration, a child of the group [g]. *)
Definition sun_built (v : Revision) (random : nat → float)
    (os : list Object3D) (g : nat) : Prop :=
  ∀ config,
    planetConfig_of v !! 0%nat = Some config →
    ∃ sun so,
      os !! sun = Some so ∧ parent so = Some g ∧
      body_of config (random 0%nat) so.

(** The planets of the store [os]: one pivot of [pivots] for each further
    entry of the configuration, in its order. *)
Definition planets_built (v : Revision) (random : nat → float)
    (os : list Object3D) (g : nat) (pivots : list nat) : Prop :=
  length pivots = pred (length (planetConfig_of v)) ∧
  ∀ i config,
    planetConfig_of v !! S i = Some config →
    ∃ pivot,
      pivots !! i = Some pivot ∧
      planet_at os g pivot config (random (S i)).

(** *** Switching modes *)

(** [controls.dispose()] *)
Definition dispose (c : OrbitControls) : OrbitControls :=
  mkControls (enableDamping c) (dampingFactor c) (screenSpacePanning c)
    (minDistance c) (maxDistance c) true.

(** [renderer.setAnimationLoop(null)] *)
Definition clear_loop (r : WebGLRenderer) : WebGLRenderer :=
  mkRenderer None (xrEnabled r) (xrSession r).

(** The renderers that have an animation loop, and the canvases in the
    container. *)
Definition running_loops (s : App) : list WebGLRenderer :=
  filter (λ r, is_Some (animationLoop r)) (renderers s).

Definition is_canvas (e : Element) : bool :=
  match e with Canvas _ => true | ARButtonElement _ => false end.

Definition canvases (s : App) : list Element :=
  filter (λ e, is_canvas e = true) (container s).

(** Every element of the container belongs to a renderer of the store. *)
Definition element_renderer (e : Element) : nat :=
  match e with Canvas rid => rid | ARButtonElement rid => rid end.

Definition dom_in_store (s : App) : Prop :=
  ∀ e, e ∈ container s → element_renderer e < length (renderers s).

(** *** Frames and taps *)


(** The properties of an object that neither hit testing nor the orbit
    loop writes. *)
Definition placed_properties (o : Object3D) :=
  (position o, scale o, parent o, children o).

(** [s'] is ready for a tap: the session of the current renderer [rid]
    carries the ['select'] listener and nothing but the script's
    listeners, the reticle [r] is in view with matrix [m], and position,
    scale and links of the objects are those of [s]. *)
Definition armed (s : App) (rid r : nat) (m : Matrix4) (s' : App) : Prop :=
  renderer s' = Some rid ∧
  (∃ rr x, renderers s' !! rid = Some rr ∧ xrSession rr = Some x ∧
           tidy_session x ∧
           mkListener EvtSelect CbOnSelect true ∈ listeners x) ∧
  reticle s' = Some r ∧
  (λ o, (visible o, matrix o)) <$> objects s' !! r = Some (true, m) ∧
  solarSystemGroup s' = solarSystemGroup s ∧
  scene s' = scene s ∧
  placed_properties <$> objects s' = placed_properties <$> objects s.

(** *** The orbit loop *)

(** [o.rotation.y += d] *)
Definition turn_by (d : float) (o : Object3D) : Object3D :=
  set_rotation_y (Euler.y (rotation o) + d) o.

Definition rotation_y (o : Object3D) : float := Euler.y (rotation o).

(** [pivot] is a planet of the store: its first child is [mesh], another
    object, whose [userData] is [ud]. *)
Definition planet_of (os : list Object3D) (pivot mesh : nat)
    (ud : UserData) : Prop :=
  ∃ po mo,
    os !! pivot = Some po ∧ head (children po) = Some mesh ∧
    os !! mesh = Some mo ∧ userData mo = Some ud.

(** The addresses of the pivots and of the meshes of a list of planets. *)
Definition orbit_addresses (orbits : list (nat * nat * UserData))
  : list nat :=
  ((λ t, t.1.1) <$> orbits) ++ ((λ t, t.1.2) <$> orbits).

(** The planets the loop turns, each with its mesh and what the mesh
    carries: [planets] lists their pivots, and no object is pivot or mesh
    twice. *)
Definition orbit_ready (s : App) (orbits : list (nat * nat * UserData))
  : Prop :=
  planets s = (λ t, t.1.1) <$> orbits ∧
  NoDup (orbit_addresses orbits) ∧
  Forall (λ t, planet_of (objects s) t.1.1 t.1.2 t.2) orbits.

(** One pass of the loop over the store. *)
Definition turn (orbits : list (nat * nat * UserData))
    (os : list Object3D) : list Object3D :=
  foldl (λ os t,
           alter (turn_by (speed t.2 * 2)) t.1.2
             (alter (turn_by (speed t.2)) t.1.1 os))
    os orbits.

(** Everything of an object but [rotation.y]. *)
Definition unturned (o : Object3D) :=
  (kind o, position o, Euler.x (rotation o), Euler.z (rotation o), scale o,
   matrix o, matrixAutoUpdate o, visible o, parent o, children o,
   userData o).

(** A page that shows the desktop view only: one renderer, whose loop is
    [animate], and the variables [animate] reads are set. *)
Definition desktop_page (s : App) : Prop :=
  renderers s = [mkRenderer (Some LoopAnimate) false None] ∧
  is_Some (controls s) ∧ is_Some (renderer s) ∧ is_Some (scene s) ∧
  is_Some (camera s).

(** What the builders attach to the mesh of a body. *)
Definition userData_of (config : Config) (random : float) : UserData :=
  {| name := c_name config; distance := c_distance config;
     speed := c_speed config; angle := initial_angle random |}.

(** A planet as the builders leave it, with the kinds that tell a pivot
    from a mesh. *)
Definition new_planet (os : list Object3D) (t : nat * nat * UserData)
  : Prop :=
  ∃ po mo,
    os !! t.1.1 = Some po ∧ kind po = KGroup ∧ children po = [t.1.2] ∧
    position po = Vector3.mk 0 0 0 ∧ rotation po = Euler.mk 0 0 0 ∧
    os !! t.1.2 = Some mo ∧ kind mo = KMesh ∧ parent mo = Some t.1.1 ∧
    position mo = Vector3.mk (distance t.2) 0 0 ∧
    rotation mo = Euler.mk 0 0 0 ∧ userData mo = Some t.2.

(** *** The orbit part of the AR loops *)

(** The properties of an object that hit testing does not write: all but
    [visible] and [matrix]. *)
Definition orbital (o : Object3D) :=
  (kind o, position o, rotation o, scale o, matrixAutoUpdate o, parent o,
   children o, userData o).

(** One pass of the loop of the first revision, which turns pivots only. *)
Definition turn_pivots (orbits : list (nat * nat * UserData))
    (os : list Object3D) : list Object3D :=
  foldl (λ os t, alter (turn_by (speed t.2)) t.1.1 os) os orbits.

(** The planets of a state as the loops find them: each pivot of
    [planets] with its first child and what that mesh carries. *)
Definition orbits_in (s : App) : list (nat * nat * UserData) :=
  omap (λ p, po ← objects s !! p; m ← head (children po);
             mo ← objects s !! m; ud ← userData mo; Some (p, m, ud))
    (planets s).

(** * Properties *)

Local Close Scope float_scope.

(** ** Binary64 rounding

    The products of the scene builder, followed through the rounding of
    [SpecFloat]. *)

Section Binary64.
Local Open Scope Z_scope.

Lemma digits2_pos_size p : digits2_pos p = Pos.size p.
Proof. induction p; simpl; congruence. Qed.

Lemma digits2_bounds p :
2 ^ (Z.pos (digits2_pos p) - 1) ≤ Z.pos p < 2 ^ Z.pos (digits2_pos p).
Proof.
rewrite digits2_pos_size. split.
- pose proof (Pos.size_le p) as H.
  assert (Z.pos (2 ^ Pos.size p) ≤ Z.pos p~0) as H' by exact H.
  rewrite Pos2Z.inj_pow in H'.
  replace (Z.pos (Pos.size p)) with (Z.succ (Z.pos (Pos.size p) - 1)) in H' by lia.
  rewrite Z.pow_succ_r in H' by lia. lia.
- pose proof (Pos.size_gt p) as H.
  assert (Z.pos p < Z.pos (2 ^ Pos.size p)) as H' by exact H.
  now rewrite Pos2Z.inj_pow in H'.
Qed.

Lemma iter_pos_nat {A} (f : A → A) p x :
SpecFloat.iter_pos f p x = Nat.iter (Pos.to_nat p) f x.
Proof.
revert x. induction p as [p IH|p IH|]; intros x.
- rewrite Pos2Nat.inj_xI. cbn [SpecFloat.iter_pos]. rewrite !IH.
  rewrite Nat.iter_succ_r. rewrite <- Nat.iter_add. f_equal. lia.
- rewrite Pos2Nat.inj_xO. cbn [SpecFloat.iter_pos]. rewrite !IH.
  rewrite <- Nat.iter_add. f_equal. lia.
- reflexivity.
Qed.

Lemma shr_1_m mrs : 0 ≤ shr_m mrs → shr_m (shr_1 mrs) = shr_m mrs / 2.
Proof.
destruct mrs as [m r s]; cbn [shr_m]. intros Hm.
destruct m as [|[p|p|]|p]; cbn [shr_1 shr_m]; try lia; try reflexivity.
- apply Z.div_unique with 1; lia.
- apply Z.div_unique with 0; lia.
Qed.

Lemma shr_1_r mrs : 0 ≤ shr_m mrs → shr_r (shr_1 mrs) = Z.odd (shr_m mrs).
Proof.
destruct mrs as [m r s]; cbn [shr_m]. intros Hm.
destruct m as [|[p|p|]|p]; cbn [shr_1 shr_r]; try lia; reflexivity.
Qed.

Lemma shr_iter M k :
0 ≤ M →
shr_m (Nat.iter k shr_1 (Build_shr_record M false false)) = M / 2 ^ Z.of_nat k ∧
(shr_r (Nat.iter k shr_1 (Build_shr_record M false false)) = true →
 (0 < k)%nat ∧ Z.odd (M / 2 ^ (Z.of_nat k - 1)) = true).
Proof.
intros HM. induction k as [|k [IHm IHr]]; [|rewrite Nat.iter_succ].
- split; [cbn; now rewrite Z.div_1_r | discriminate].
- assert (0 ≤ shr_m (Nat.iter k shr_1 (Build_shr_record M false false))) as Hpos.
  { rewrite IHm. apply Z.div_pos; lia. }
  split.
  + rewrite shr_1_m, IHm by exact Hpos.
    rewrite Z.div_div by lia.
    rewrite Nat2Z.inj_succ, Z.pow_succ_r by lia. f_equal. lia.
  + rewrite shr_1_r by exact Hpos. intros Hodd. split; [lia|].
    rewrite IHm in Hodd.
    replace (Z.of_nat (S k) - 1) with (Z.of_nat k) by lia. exact Hodd.
Qed.

Lemma fexp_eq e : fexp prec emax e = Z.max (e - 53) (-1074).
Proof. reflexivity. Qed.

Lemma Zdigits2_bounds M :
0 < M → 2 ^ (Zdigits2 M - 1) ≤ M < 2 ^ Zdigits2 M.
Proof. destruct M as [|p|p]; try lia. intros _. apply digits2_bounds. Qed.

Lemma Zdigits2_nonneg M : 0 ≤ Zdigits2 M.
Proof. destruct M; cbn; lia. Qed.

Lemma Zdigits2_le M k : 0 ≤ M < 2 ^ k → 0 ≤ k → Zdigits2 M ≤ k.
Proof.
intros [H0 Hk] Hk0.
destruct (Z.eq_dec M 0) as [->|Hne]; [cbn; lia|].
pose proof (Zdigits2_bounds M ltac:(lia)) as [Hlo _].
destruct (Z.le_gt_cases (Zdigits2 M) k) as [|Hgt]; [assumption|exfalso].
assert (2 ^ k ≤ 2 ^ (Zdigits2 M - 1)) by (apply Z.pow_le_mono_r; lia).
lia.
Qed.

Lemma Zdigits2_ge M k : 2 ^ k ≤ M → 0 ≤ k → k < Zdigits2 M.
Proof.
intros Hk Hk0.
assert (0 < M) as HM by (pose proof (Z.pow_pos_nonneg 2 k); lia).
pose proof (Zdigits2_bounds M HM) as [_ Hhi].
pose proof (Zdigits2_nonneg M).
destruct (Z.lt_ge_cases k (Zdigits2 M)) as [|Hge]; [assumption|exfalso].
assert (2 ^ Zdigits2 M ≤ 2 ^ k) by (apply Z.pow_le_mono_r; lia).
lia.
Qed.

(** Shifting right by [n] places. *)
Lemma shr_spec M E n :
0 ≤ M → 0 ≤ n →
(shr (Build_shr_record M false false) E n).2 = E + n ∧
shr_m (shr (Build_shr_record M false false) E n).1 = M / 2 ^ n ∧
(shr_r (shr (Build_shr_record M false false) E n).1 = true →
 0 < n ∧ Z.odd (M / 2 ^ (n - 1)) = true).
Proof.
intros HM Hn. destruct n as [|p|p]; [| |lia].
- cbn [shr fst snd shr_m shr_r]. rewrite Z.div_1_r.
  split; [lia|]. split; [reflexivity|discriminate].
- cbn [shr fst snd]. rewrite iter_pos_nat.
  destruct (shr_iter M (Pos.to_nat p) HM) as [Hm Hr].
  rewrite positive_nat_Z in Hm, Hr.
  split; [reflexivity|]. split; [exact Hm|].
  intros Ht. destruct (Hr Ht) as [_ Hodd]. split; [lia|exact Hodd].
Qed.

(** Rounding to nearest never exceeds the exact quotient by more than a
  half. *)
Lemma round_nearest_even_le M E n :
0 ≤ M → 0 ≤ n →
let mrs := (shr (Build_shr_record M false false) E n).1 in
let mr := round_nearest_even (shr_m mrs) (loc_of_shr_record mrs) in
0 ≤ mr ∧ 2 * mr * 2 ^ n ≤ 2 * M + 2 ^ n.
Proof.
intros HM Hn mrs mr.
destruct (shr_spec M E n HM Hn) as (_ & Hm & Hr).
fold mrs in Hm, Hr.
assert (0 < 2 ^ n) as Hpow by (apply Z.pow_pos_nonneg; lia).
assert (0 ≤ M / 2 ^ n) as Hq by (apply Z.div_pos; lia).
assert (M / 2 ^ n * 2 ^ n ≤ M) as Hfloor.
{ rewrite Z.mul_comm. apply Z.mul_div_le. lia. }
assert (mr = shr_m mrs ∨ (mr = shr_m mrs + 1 ∧ shr_r mrs = true)) as Hcases.
{ subst mr. destruct mrs as [m [|] [|]]; cbn; try (left; reflexivity).
  - right. split; reflexivity.
  - destruct (Z.even m); [left|right]; auto. }
destruct Hcases as [->|[-> Ht]]; rewrite Hm.
- split; [assumption|]. nia.
- split; [lia|].
  destruct (Hr Ht) as [Hn1 Hodd].
  set (a := M / 2 ^ (n - 1)) in *.
  assert (0 < 2 ^ (n - 1)) as Hpow1 by (apply Z.pow_pos_nonneg; lia).
  assert (2 ^ n = 2 * 2 ^ (n - 1)) as Hsplit.
  { rewrite <- Z.pow_succ_r by lia. f_equal. lia. }
  assert (a * 2 ^ (n - 1) ≤ M) as Ha.
  { subst a. rewrite Z.mul_comm. apply Z.mul_div_le. lia. }
  assert (M / 2 ^ n = a / 2) as Hqa.
  { subst a. rewrite Hsplit, Z.mul_comm, <- Z.div_div by lia. reflexivity. }
  rewrite Hqa.
  apply Z.odd_spec in Hodd. destruct Hodd as [c Hc].
  assert (a / 2 = c) as ->.
  { symmetry. apply Z.div_unique with 1; lia. }
  rewrite Hsplit. set (P := 2 ^ (n - 1)) in *.
  rewrite Hc in Ha. nia.
Qed.

Lemma shr_nonpos mrs e n : n ≤ 0 → shr mrs e n = (mrs, e).
Proof. destruct n; [reflexivity|lia|reflexivity]. Qed.

(** What [binary_round_aux] makes of an exact mantissa [M] at exponent [E]
  that has to lose [E1 - E >= 0] low bits. *)
Lemma binary_round_aux_near sx M E :
0 < M →
E ≤ fexp prec emax (Zdigits2 M + E) →
∃ mr, 0 ≤ mr ∧
  2 * mr * 2 ^ (fexp prec emax (Zdigits2 M + E) - E)
    ≤ 2 * M + 2 ^ (fexp prec emax (Zdigits2 M + E) - E) ∧
  (mr < 2 ^ 53 →
   binary_round_aux prec emax sx M E loc_Exact
   = rounded sx mr (fexp prec emax (Zdigits2 M + E))) ∧
  (mr = 2 ^ 53 →
   binary_round_aux prec emax sx M E loc_Exact
   = rounded sx (2 ^ 52) (fexp prec emax (Zdigits2 M + E) + 1)).
Proof.
intros HM HE. set (E1 := fexp prec emax (Zdigits2 M + E)) in *.
assert (-1074 ≤ E1) as HE1 by (subst E1; rewrite fexp_eq; lia).
pose proof (shr_spec M E (E1 - E) ltac:(lia) ltac:(lia)) as (He & _ & _).
pose proof (round_nearest_even_le M E (E1 - E) ltac:(lia) ltac:(lia))
  as [Hmr0 Hmr].
cbv zeta in Hmr0, Hmr.
unfold binary_round_aux.
change (shr_fexp prec emax M E loc_Exact)
  with (shr (Build_shr_record M false false) E (E1 - E)).
destruct (shr (Build_shr_record M false false) E (E1 - E)) as [mrs' e'].
cbn [fst snd] in He, Hmr0, Hmr. subst e'.
replace (E + (E1 - E)) with E1 by lia.
set (mr := round_nearest_even (shr_m mrs') (loc_of_shr_record mrs')) in *.
exists mr. split; [exact Hmr0|]. split; [exact Hmr|].
change (shr_fexp prec emax mr E1 loc_Exact)
  with (shr (Build_shr_record mr false false) E1
          (fexp prec emax (Zdigits2 mr + E1) - E1)).
split.
- intros Hlt.
  assert (Zdigits2 mr ≤ 53) by (apply Zdigits2_le; lia).
  rewrite shr_nonpos by (rewrite fexp_eq; lia).
  cbn [shr_m]. unfold rounded. destruct mr; reflexivity.
- intros ->. replace (fexp prec emax (Zdigits2 (2 ^ 53) + E1) - E1) with 1.
  + cbn [shr]. reflexivity.
  + rewrite fexp_eq. change (Zdigits2 (2 ^ 53)) with 54. lia.
Qed.

Lemma nonneg_below_intro mb eb R :
SFleb (S754_zero false) R = true →
SFltb R (S754_finite false mb eb) = true →
nonneg_below (Z.pos mb) eb R.
Proof.
destruct R as [s|s| |s m e]; cbn; intros H0 H1; try discriminate.
- constructor.
- destruct s; discriminate.
- destruct s; [discriminate|]. constructor.
  destruct (Z.compare_spec e eb) as [->|Hlt|Hgt]; [|lia|discriminate].
  right. split; [reflexivity|].
  change (Pos.compare_cont Eq m mb) with (Pos.compare m mb) in H1.
  destruct (Pos.compare_spec m mb); try discriminate. lia.
Qed.

Lemma nonneg_below_elim mb eb R :
nonneg_below (Z.pos mb) eb R →
SFleb (S754_zero false) R = true ∧
SFltb R (S754_finite false mb eb) = true.
Proof.
intros [s|m e H]; cbn; [split; reflexivity|].
split; [reflexivity|].
destruct (Z.compare_spec e eb) as [->|Hlt|Hgt]; [|reflexivity|lia].
change (Pos.compare_cont Eq m mb) with (Pos.compare m mb).
destruct (Pos.compare_spec m mb); [lia|reflexivity|lia].
Qed.

Lemma rounded_below sx mb eb mr e :
sx = false → 0 ≤ mr → e ≤ 971 →
e < eb ∨ (e = eb ∧ mr < mb) →
nonneg_below mb eb (rounded sx mr e).
Proof.
intros -> Hmr He H. unfold rounded. destruct mr as [|p|p]; [constructor| |lia].
destruct (Z.leb_spec e 971); [|lia]. now constructor.
Qed.

(** A valid finite float: at most 53 digits, and exactly 53 unless the
  exponent is the least one. *)
Lemma bounded_canonical m e :
bounded prec emax m e = true →
Z.pos (digits2_pos m) ≤ 53 ∧ -1074 ≤ e ≤ 971 ∧
(Z.pos (digits2_pos m) = 53 ∨ e = -1074).
Proof.
unfold bounded, canonical_mantissa. rewrite fexp_eq.
intros H. apply andb_prop in H as [H1 H2].
apply Z.eqb_eq in H1. apply Z.leb_le in H2.
change (emax - prec) with 971 in H2. lia.
Qed.

(** Multiplying a float of [0, 1) by [Math.PI] stays below [Math.PI]. *)
Lemma SFmul_PI_below R :
valid_binary R = true →
nonneg_below (2 ^ 52) (-52) R →
nonneg_below (Z.pos PI_mantissa) (-51)
  (SFmul prec emax R (S754_finite false PI_mantissa (-51))).
Proof.
intros Hvalid HR. revert Hvalid.
destruct HR as [s|m e H]; intros Hvalid; [destruct s; constructor|].
cbn [SFmul xorb]. cbn [valid_binary] in Hvalid.
apply bounded_canonical in Hvalid as (Hdm & He & Hcanon).
pose proof (digits2_bounds m) as [Hmlo Hmhi].
set (dm := Z.pos (digits2_pos m)) in *.
assert (e ≤ -53) as He53.
{ destruct H as [|[-> Hm]]; [lia|]. exfalso.
  destruct Hcanon as [Hd|]; [|lia]. rewrite Hd in Hmlo. simpl in Hmlo. lia. }
rewrite Pos2Z.inj_mul.
set (M := Z.pos m * Z.pos PI_mantissa).
assert (0 < M) as HM by (subst M; lia).
assert (2 ^ (dm + 51) ≤ M) as HMlo.
{ replace (dm + 51) with ((dm - 1) + 52) by lia.
  rewrite Z.pow_add_r by lia. subst M. unfold PI_mantissa.
  change (2 ^ 52) with 4503599627370496. nia. }
assert (M < 2 ^ (dm + 53)) as HMhi.
{ rewrite Z.pow_add_r by lia. subst M. unfold PI_mantissa.
  change (2 ^ 53) with 9007199254740992. nia. }
assert (dm + 51 < Zdigits2 M) as Hdlo by (apply Zdigits2_ge; lia).
assert (Zdigits2 M ≤ dm + 53) as Hdhi by (apply Zdigits2_le; lia).
pose proof (Zdigits2_bounds M HM) as [_ HMd].
destruct (binary_round_aux_near false M (e + -51) HM) as (mr & Hmr0 & Hmr & Hsmall & Hcarry).
{ rewrite fexp_eq. lia. }
rewrite fexp_eq in Hmr, Hsmall, Hcarry.
set (d := Zdigits2 M) in *.
set (E1 := Z.max (d + (e + -51) - 53) (-1074)) in *.
set (n := E1 - (e + -51)) in *.
assert (0 ≤ n) as Hn by (subst n E1; lia).
assert (0 < 2 ^ n) as HP by (apply Z.pow_pos_nonneg; lia).
assert (2 ^ d ≤ 2 ^ 53 * 2 ^ n) as Hdn.
{ rewrite <- Z.pow_add_r by lia. apply Z.pow_le_mono_r; subst n E1; lia. }
assert (mr ≤ 2 ^ 53) as Hmr53.
{ change (2 ^ 53) with 9007199254740992 in *. nia. }
destruct (Z.eq_dec E1 (-51)) as [HE1|HE1].
- (* the top binade: the product is below [Math.PI] by more than a half *)
  assert (d = 106 ∧ e = -53 ∧ dm = 53) as (Hd & -> & Hdm53) by (subst E1; lia).
  assert (n = 53) as Hn53 by (subst n; lia).
  rewrite Hn53 in Hmr. rewrite Hdm53 in Hmhi.
  assert (mr < Z.pos PI_mantissa) as Hlt.
  { subst M. unfold PI_mantissa in *.
    change (2 ^ 53) with 9007199254740992 in *. lia. }
  rewrite Hsmall by (unfold PI_mantissa in Hlt; change (2 ^ 53) with 9007199254740992; lia).
  apply rounded_below; try lia.
- assert (E1 ≤ -52) as HE1' by (subst E1; lia).
  destruct (Z.eq_dec mr (2 ^ 53)) as [Heq|Hne].
  + rewrite Hcarry by exact Heq.
    apply rounded_below; try lia. unfold PI_mantissa.
    change (2 ^ 52) with 4503599627370496. lia.
  + rewrite Hsmall by lia.
    apply rounded_below; try lia.
Qed.

(** Doubling a float below [Math.PI] stays below [Math.PI * 2]. *)
Lemma SFmul_2_below R :
valid_binary R = true →
nonneg_below (Z.pos PI_mantissa) (-51) R →
nonneg_below (Z.pos PI_mantissa) (-50)
  (SFmul prec emax R (S754_finite false 4503599627370496 (-51))).
Proof.
intros Hvalid HR. revert Hvalid.
destruct HR as [s|m e H]; intros Hvalid; [destruct s; constructor|].
cbn [SFmul xorb]. cbn [valid_binary] in Hvalid.
apply bounded_canonical in Hvalid as (Hdm & He & Hcanon).
pose proof (digits2_bounds m) as [Hmlo Hmhi].
set (dm := Z.pos (digits2_pos m)) in *.
rewrite Pos2Z.inj_mul.
set (M := Z.pos m * 4503599627370496).
assert (0 < M) as HM by (subst M; lia).
assert (2 ^ (dm + 51) ≤ M) as HMlo.
{ replace (dm + 51) with ((dm - 1) + 52) by lia.
  rewrite Z.pow_add_r by lia. subst M.
  change (2 ^ 52) with 4503599627370496. nia. }
assert (M < 2 ^ (dm + 52)) as HMhi.
{ rewrite Z.pow_add_r by lia. subst M.
  change (2 ^ 52) with 4503599627370496. nia. }
assert (dm + 51 < Zdigits2 M) as Hdlo by (apply Zdigits2_ge; lia).
assert (Zdigits2 M ≤ dm + 52) as Hdhi by (apply Zdigits2_le; lia).
destruct (binary_round_aux_near false M (e + -51) HM) as (mr & Hmr0 & Hmr & Hsmall & _).
{ rewrite fexp_eq. lia. }
rewrite fexp_eq in Hmr, Hsmall.
replace (Zdigits2 M) with (dm + 52) in * by lia.
destruct Hcanon as [Hd| ->].
- (* a normal float: the mantissa is kept, the exponent goes up by one *)
  rewrite Hd in *.
  replace (Z.max (53 + 52 + (e + -51) - 53) (-1074)) with (e + 1) in * by lia.
  replace (e + 1 - (e + -51)) with 52 in Hmr by lia.
  change (2 ^ 52) with 4503599627370496 in Hmr.
  change (2 ^ 53) with 9007199254740992 in *.
  assert (mr ≤ Z.pos m) by (subst M; lia).
  rewrite Hsmall by lia.
  apply rounded_below; lia.
- (* a subnormal float: the mantissa doubles *)
  destruct (Z.eq_dec dm 53) as [Hd|Hd].
  + rewrite Hd in *.
    replace (Z.max (53 + 52 + (-1074 + -51) - 53) (-1074)) with (-1073) in * by lia.
    replace (-1073 - (-1074 + -51)) with 52 in Hmr by lia.
    change (2 ^ 52) with 4503599627370496 in Hmr.
    change (2 ^ 53) with 9007199254740992 in *.
    assert (mr ≤ Z.pos m) by (subst M; lia).
    rewrite Hsmall by lia.
    apply rounded_below; lia.
  + replace (Z.max (dm + 52 + (-1074 + -51) - 53) (-1074)) with (-1074) in * by lia.
    replace (-1074 - (-1074 + -51)) with 51 in Hmr by lia.
    change (2 ^ 51) with 2251799813685248 in Hmr.
    assert (mr ≤ 2 * Z.pos m) by (subst M; lia).
    assert (2 ^ dm ≤ 2 ^ 52) by (apply Z.pow_le_mono_r; lia).
    change (2 ^ 52) with 4503599627370496 in *.
    change (2 ^ 53) with 9007199254740992 in *.
    rewrite Hsmall by lia.
    apply rounded_below; lia.
Qed.

(** [Math.random() * Math.PI * 2] lies in [[0, Math.PI * 2)] whenever
  [Math.random()] lies in [[0, 1)]. *)
Lemma initial_angle_range (random : float) :
unit_interval random → phase_range (initial_angle random).
Proof.
intros [H0 H1]. unfold phase_range, initial_angle.
rewrite leb_spec in H0. rewrite ltb_spec in H1.
assert (nonneg_below (Z.pos PI_mantissa) (-51)
          (Prim2SF (random * Math_PI)%float)) as HA.
{ rewrite mul_spec. apply SFmul_PI_below; [apply Prim2SF_valid|].
  now apply (nonneg_below_intro 4503599627370496). }
assert (nonneg_below (Z.pos PI_mantissa) (-50)
          (Prim2SF (random * Math_PI * 2)%float)) as HB.
{ rewrite mul_spec. apply SFmul_2_below; [apply Prim2SF_valid|exact HA]. }
rewrite leb_spec, ltb_spec.
exact (nonneg_below_elim PI_mantissa (-50) _ HB).
Qed.

End Binary64.

(** ** Invariants of statements *)

Section Preserves.
Context (I : App → Prop).

Lemma preserves_ret {A} (a : A) : preserves I (mret a).
Proof. intros s H. exact H. Qed.

Lemma preserves_throw {A} e : preserves I (@throw A e).
Proof. intros s H. exact H. Qed.

Lemma preserves_gets {A} (f : App → A) : preserves I (gets f).
Proof. intros s H. exact H. Qed.

Lemma preserves_deref {A} (v : option A) : preserves I (deref v).
Proof. destruct v; intros s H; exact H. Qed.

Lemma preserves_modify f : (∀ s, I s → I (f s)) → preserves I (modify f).
Proof. intros Hf s H. exact (Hf s H). Qed.

Lemma preserves_bind {A B} (m : JS A) (f : A → JS B) :
  preserves I m → (∀ a, preserves I (f a)) → preserves I (m ≫= f).
Proof.
  intros Hm Hf s H. specialize (Hm s H). unfold exec in *.
  unfold mbind, JS_bind. destruct (m s) as [[a|e] s']; cbn in *.
  - exact (Hf a s' Hm).
  - exact Hm.
Qed.

(** A variable that [I] pins down reads as the pinned value. *)
Lemma preserves_gets_bind {A B} (f : App → A) (c : A) (k : A → JS B) :
  (∀ s, I s → f s = c) → preserves I (k c) → preserves I (gets f ≫= k).
Proof.
  intros Hc Hk s H. unfold exec, mbind, JS_bind, gets. cbn.
  rewrite (Hc s H). exact (Hk s H).
Qed.

(** Past a [deref] the value is known to be there. *)
Lemma preserves_deref_bind {A B} (v : option A) (k : A → JS B) :
  (∀ a, v = Some a → preserves I (k a)) → preserves I (deref v ≫= k).
Proof.
  intros Hk. destruct v as [a|]; intros s H.
  - exact (Hk a eq_refl s H).
  - exact H.
Qed.

Lemma preserves_try_ m : preserves I m → preserves I (try_ m).
Proof. intros Hm s H. exact (Hm s H). Qed.

Lemma preserves_forEach_from {A} (f : nat → A → JS unit) l i :
  (∀ i a, preserves I (f i a)) → preserves I (forEach_from i f l).
Proof.
  intros Hf. revert i. induction l as [|a l IH]; intros i; cbn [forEach_from].
  - apply preserves_ret.
  - apply preserves_bind; [apply Hf|intros _; apply IH].
Qed.

Lemma preserves_forEach {A} (f : nat → A → JS unit) l :
  (∀ i a, preserves I (f i a)) → preserves I (forEach f l).
Proof. apply preserves_forEach_from. Qed.

(** What holds after the first statement and is kept by the rest holds
    after the sequence. *)
Lemma exec_bind_preserves {A B} (m : JS A) (f : A → JS B) s :
  I (exec m s) → (∀ a, preserves I (f a)) → I (exec (m ≫= f) s).
Proof.
  intros Hm Hf. unfold exec in *. unfold mbind, JS_bind.
  destruct (m s) as [[a|e] s']; cbn in *; [exact (Hf a s' Hm)|exact Hm].
Qed.
End Preserves.

Lemma preserves_impl {A} (I J : App → Prop) (m : JS A) :
  (∀ s, I s ↔ J s) → preserves I m → preserves J m.
Proof. intros HIJ Hm s H. apply HIJ, Hm, HIJ, H. Qed.

Lemma preserves_and {A} (I J : App → Prop) (m : JS A) :
  preserves I m → preserves J m → preserves (λ s, I s ∧ J s) m.
Proof. intros HI HJ s [H1 H2]. split; [apply HI|apply HJ]; assumption. Qed.

Lemma exec_bind {A B} (m : JS A) (f : A → JS B) s :
  exec (m ≫= f) s =
  match m s with (Normal a, s') => exec (f a) s' | (Throw e, s') => s' end.
Proof.
  unfold exec, mbind, JS_bind. destruct (m s) as [[a|e] s']; reflexivity.
Qed.

Lemma run_bind {A B} (m : JS A) (f : A → JS B) s a s' :
  m s = (Normal a, s') → (m ≫= f) s = f a s'.
Proof. intros H. unfold mbind, JS_bind. rewrite H. reflexivity. Qed.

(** The statements of the platform model and of the shared script text,
    to be taken apart down to [modify]. *)
Create HintDb js discriminated.
#[export] Hint Unfold emit alloc getObject updObject remove add newRenderer
  getRenderer updRenderer setAnimationLoop enableXR appendChild removeChild
  getSession setSession addEventListener removeEventListener
  render_scene spin_planet spin_planets endClosure
  hitTestRequest performHitTest hitTestBlock
  viewerSpaceGranted hitTestSourceGranted viewerSpaceRejected
  hitTestSourceRejected renderAR animate createReticle
  js_and isSessionSupported xr_condition
  invoke dispatchEvent call sessionStart tick : js.

Ltac pres_step leaf :=
  lazymatch goal with
  | |- preserves _ (mret _) => apply preserves_ret
  | |- preserves _ (throw _) => apply preserves_throw
  | |- preserves _ (gets _) => apply preserves_gets
  | |- preserves _ (deref _) => apply preserves_deref
  | |- preserves _ (try_ _) => apply preserves_try_
  | |- preserves _ (forEach _ _) => apply preserves_forEach; intros ? ?
  | |- preserves _ (modify _) => apply preserves_modify; leaf
  | |- preserves _ (mbind _ (deref _)) =>
      apply preserves_deref_bind; intros ? ?
  | |- preserves _ (mbind _ (gets _)) =>
      first [ eapply preserves_gets_bind; [solve [leaf]|]
            | apply preserves_bind; [|intros ?] ]
  | |- preserves _ (mbind _ _) => apply preserves_bind; [|intros ?]
  | |- preserves _ (match ?x with _ => _ end) => destruct x eqn:?
  end.

Ltac pres leaf := autounfold with js; repeat pres_step leaf.

(** The same with [getSession] kept folded, for invariants that need to
    know what it answers: [special] is tried first on every statement. *)
Create HintDb jsx discriminated.
#[export] Hint Unfold emit alloc getObject updObject remove add newRenderer
  getRenderer updRenderer setAnimationLoop enableXR appendChild removeChild
  setSession addEventListener removeEventListener
  render_scene spin_planet spin_planets endClosure
  hitTestRequest performHitTest hitTestBlock
  viewerSpaceGranted hitTestSourceGranted viewerSpaceRejected
  hitTestSourceRejected renderAR animate createReticle
  js_and isSessionSupported xr_condition
  invoke dispatchEvent call sessionStart tick : jsx.

Ltac pres_with special leaf :=
  autounfold with jsx;
  repeat first [ special | pres_step leaf | progress unfold getSession ].

(** *** Lists under [alter] *)

Lemma fmap_alter_same {A B} (g : A → B) (f : A → A) i (l : list A) :
  (∀ a, g (f a) = g a) → g <$> alter f i l = g <$> l.
Proof.
  intros H. revert i.
  induction l as [|a l IH]; intros [|i]; cbn; f_equal; auto.
Qed.

Lemma lookup_alter_same {A B} (g : A → B) (f : A → A) i j (l : list A) :
  (∀ a, g (f a) = g a) → g <$> alter f i l !! j = g <$> l !! j.
Proof.
  intros H. rewrite <- !list_lookup_fmap. now rewrite fmap_alter_same.
Qed.

Lemma lookup_app_new {A} (l : list A) (a : A) j (b : A) :
  l !! j = Some b → (l ++ [a]) !! j = Some b.
Proof. intros H. now apply lookup_app_l_Some. Qed.

(** ** The placement handler *)

(** With the reticle hidden, [onSelect] does nothing at all. *)
Lemma onSelect_hidden (v : Revision) s :
  reticle_visible s = false → exec (p_onSelect (program v)) s = s.
Proof.
  unfold reticle_visible, lookup_var. intros H.
  destruct v; cbn [program p_onSelect arOnly part000 hybrid];
    unfold ArOnly.onSelect, Part000.onSelect, Hybrid.onSelect;
    unfold exec, getObject, mbind, JS_bind, gets, deref, mret, JS_ret, throw;
    cbn;
    (destruct (reticle s) as [r|]; cbn in *; [|reflexivity]);
    (destruct (objects s !! r) as [ro|]; cbn in *; [|reflexivity]);
    rewrite H; reflexivity.
Qed.

(** C8. For every state in which the reticle is invisible, a select event
    leaves the solar-system group entirely unchanged: same position, same
    scale, same parent, same attachment to the scene; the group object is
    the same in every property, and so is every other object of the
    store. This holds in the three revisions, whatever listeners the
    session has. *)
Theorem select_while_hidden_keeps_placement (v : Revision) (s : App) :
  reticle_visible s = false →
  placement (step (program v) s Select) = placement s ∧
  lookup_var solarSystemGroup (step (program v) s Select)
  = lookup_var solarSystemGroup s ∧
  objects (step (program v) s Select) = objects s.
Proof.
  intros Hv.
  cut (reticle_visible (step (program v) s Select) = false
       ∧ objects (step (program v) s Select) = objects s
       ∧ solarSystemGroup (step (program v) s Select) = solarSystemGroup s
       ∧ scene (step (program v) s Select) = scene s).
  { intros (_ & Ho & Hg & Hsc).
    unfold placement, attached, lookup_var. rewrite Ho, Hg, Hsc.
    repeat split; reflexivity. }
  apply (λ H : preserves (λ s', reticle_visible s' = false
                               ∧ objects s' = objects s
                               ∧ solarSystemGroup s' = solarSystemGroup s
                               ∧ scene s' = scene s) _,
           H s (conj Hv (conj eq_refl (conj eq_refl eq_refl)))).
  unfold handle.
  pres ltac:(intros ? ?; assumption).
  intros s' (Hv' & Hrest). rewrite onSelect_hidden by exact Hv'.
  now split.
Qed.

(** The page tracks a surface, the group is placed by a first tap, a
    frame with a hit shows the reticle and registers the listener again,
    a frame without a hit hides the reticle: the listener is still on the
    session, and the tap that follows runs [onSelect] and moves
    nothing. *)
Lemma select_while_hidden_keeps_placement_witness :
  let s := run part000
             [Select; Tick (frame_at 4 5 6); Tick (mkXRFrame [])]
             (tracking_page part000) in
  (∃ x, current_session s = Some x ∧
        mkListener EvtSelect CbOnSelect true ∈ listeners x) ∧
  reticle_visible s = false ∧
  placement s
  = (Some (Vector3.mk 1 2 3, Vector3.mk 0.3 0.3 0.3, Some 21), true) ∧
  placement (step part000 s Select) = placement s ∧
  lookup_var solarSystemGroup (step part000 s Select)
  = lookup_var solarSystemGroup s ∧
  objects (step part000 s Select) = objects s.
Proof.
  intros s.
  split.
  { eexists. split; [vm_compute; reflexivity|].
    apply list_elem_of_In. vm_compute. tauto. }
  split; [vm_compute; reflexivity|].
  split; [vm_compute; reflexivity|].
  apply (select_while_hidden_keeps_placement RPart000 s).
  vm_compute. reflexivity.
Defined.

(** ** The scene builder *)

Lemma phases_from_alloc n o s :
  userData o = None → phases_from n s →
  phases_from n (set_objects (objects s ++ [o]) s).
Proof.
  intros Ho H id o' ud Hid Hl Hud. cbn in Hl.
  apply lookup_app_Some in Hl as [Hl|[_ Hl]]; [exact (H id o' ud Hid Hl Hud)|].
  apply list_lookup_singleton_Some in Hl as [_ Heq]. congruence.
Qed.

Lemma phases_from_alter n f i s :
  (∀ o ud, userData (f o) = Some ud →
           userData o = Some ud ∨ phase_range (angle ud)) →
  phases_from n s →
  phases_from n (set_objects (alter f i (objects s)) s).
Proof.
  intros Hf H id o' ud Hid Hl Hud. cbn in Hl.
  destruct (decide (i = id)) as [->|Hne].
  - rewrite list_lookup_alter_eq in Hl.
    destruct (objects s !! id) as [o|] eqn:Ho; [|discriminate].
    cbn in Hl. injection Hl as <-.
    destruct (Hf o ud Hud) as [Hud'|Hr]; [exact (H id o ud Hid Ho Hud')|exact Hr].
  - rewrite list_lookup_alter_ne in Hl by exact Hne.
    exact (H id o' ud Hid Hl Hud).
Qed.

Ltac phases_leaf Hrandom :=
  idtac;
  first
    [ intros ? ?; assumption
    | intros ? ?; apply phases_from_alloc; [reflexivity|assumption]
    | intros ? ?; apply phases_from_alter; [|assumption];
      intros ? ? Hud; cbn in Hud;
      first [ left; exact Hud
            | right; injection Hud as <-; cbn;
              apply initial_angle_range, Hrandom ] ].

(** Whatever the scene builder stores as a phase at a new address lies
    in [[0, Math.PI * 2)]. *)
Lemma builder_keeps_phases (v : Revision) (isAR : bool)
    (random : nat → float) (s : App) :
  (∀ i, unit_interval (random i)) →
  phases_from (length (objects s)) (exec (builder v isAR random) s).
Proof.
  intros Hrandom.
  assert (phases_from (length (objects s)) s) as H0.
  { intros id o ud Hid Hl _. apply lookup_lt_Some in Hl. lia. }
  revert H0. generalize (length (objects s)) as n. intros n.
  apply (λ H : preserves (phases_from n) _, H s).
  destruct v; cbn [builder];
    unfold ArOnly.createSolarSystem, ArOnly.createBody,
      Part000.createSolarSystem, Hybrid.createSolarSystem,
      Hybrid.createBody, Part000.createBody;
    pres ltac:(phases_leaf Hrandom).
Qed.

Ltac placement_leaf :=
  idtac;
  let s' := fresh "s'" in
  let H := fresh "H" in
  intros s' H;
  destruct H as (HU & HPL & HG & HR & HSC & HCAM & HCTL & HCONT & HLOG
                 & HPS & HVS);
  lazymatch goal with
  | |- _ = _ => first [exact HG | exact HR | exact HSC | exact HPL]
  | |- _ =>
      repeat apply conj; cbn; try assumption;
      lazymatch goal with
      | |- untouched <$> _ = _ =>
          rewrite fmap_alter_same by (intros []; reflexivity); assumption
      | |- ∀ id, solarSystemGroup _ ≠ _ → _ =>
          intros id Hid; rewrite <- (HPS id Hid);
          first [ apply (lookup_alter_same (λ o, (position o, scale o)));
                  intros []; reflexivity
                | rewrite list_lookup_alter_ne by congruence; reflexivity ]
      | |- ∀ id, reticle _ ≠ _ → _ =>
          intros id Hid; rewrite <- (HVS id Hid);
          first [ apply (lookup_alter_same visible); intros []; reflexivity
                | rewrite list_lookup_alter_ne by congruence; reflexivity ]
      end
  end.

(** X2. A select event, in any state and with any listeners on the session,
    changes no object's kind, rotation, matrix or user data, moves and scales
    no object other than the solar-system group, shows or hides no object
    other than the reticle, and leaves the tracked pivots, the script's scene
    variables, the container and the log as they were. In particular the
    orientation of the group and the angles that the pivots and meshes have
    accumulated are kept. *)
Theorem select_changes_placement_only (v : Revision) (s : App) :
  same_but_placement s (step (program v) s Select).
Proof.
  assert (same_but_placement s s) as H0 by (repeat split).
  revert H0. generalize s at 2 4 as s0. intros s0.
  apply (λ H : preserves (same_but_placement s) _, H s0).
  unfold handle.
  destruct v; cbn [program];
    autounfold with js; cbn [p_onSelect arOnly part000 hybrid];
    unfold ArOnly.onSelect, Part000.onSelect, Hybrid.onSelect;
    pres placement_leaf.
Qed.

(** ** Running single statements *)

Lemma getSession_run s rid r :
  renderer s = Some rid → renderers s !! rid = Some r →
  getSession s = (Normal (xrSession r), s).
Proof.
  intros Hr Hl. unfold getSession, getRenderer, mbind, JS_bind, gets, deref.
  cbn. rewrite Hr. cbn. rewrite Hl. reflexivity.
Qed.

Lemma getSession_inv s x s' :
  getSession s = (Normal x, s') →
  s' = s ∧ ∃ rid r,
    renderer s = Some rid ∧ renderers s !! rid = Some r ∧ x = xrSession r.
Proof.
  unfold getSession, getRenderer, mbind, JS_bind, gets, deref. cbn.
  destruct (renderer s) as [rid|] eqn:Hr; cbn; [|discriminate].
  destruct (renderers s !! rid) as [r|] eqn:Hl; cbn; [|discriminate].
  intros [= <- <-]. split; [reflexivity|]. now exists rid, r.
Qed.

Lemma setSession_run s rid r x :
  renderer s = Some rid → renderers s !! rid = Some r →
  setSession x s
  = (Normal (),
     set_renderers
       (alter (λ r, mkRenderer (animationLoop r) (xrEnabled r) x) rid
          (renderers s)) s).
Proof.
  intros Hr Hl.
  unfold setSession, updRenderer, getRenderer, mbind, JS_bind, gets, deref,
    modify.
  cbn. rewrite Hr. cbn. rewrite Hl. reflexivity.
Qed.

Lemma updObject_run s id o f :
  objects s !! id = Some o →
  updObject id f s
  = (Normal (), set_objects (alter f id (objects s)) s).
Proof.
  intros Hl. unfold updObject, getObject, mbind, JS_bind, gets, deref, modify.
  cbn. rewrite Hl. reflexivity.
Qed.

(** The arrow function of the ['end'] listener is a new function each
    time: it is never found among the listeners. *)
Lemma end_closure_is_new ls :
  existsb (same_listener EvtEnd CbEndClosure) ls = false.
Proof.
  induction ls as [|l ls IH]; [reflexivity|]. cbn. rewrite IH.
  unfold same_listener. destruct (l_callback l); cbn;
    now rewrite andb_false_r.
Qed.

Lemma fromArray_copy m : fromArray m = m.
Proof. destruct m; reflexivity. Qed.

(** ** Tracking the reticle *)

(** What the hit-test request leaves of the state: it writes the flag, the
    log, the pending promise and the listeners of the session, nothing
    else, and it never throws once the session has been read. *)
Lemma hitTestRequest_run s rid r :
  renderer s = Some rid → renderers s !! rid = Some r →
  ∃ s1,
    hitTestRequest (xrSession r) s = (Normal (), s1) ∧
    objects s1 = objects s ∧ reticle s1 = reticle s ∧
    hitTestSource s1 = hitTestSource s ∧ renderer s1 = renderer s ∧
    scene s1 = scene s ∧ solarSystemGroup s1 = solarSystemGroup s ∧
    planets s1 = planets s ∧ camera s1 = camera s ∧
    is_Some (renderers s1 !! rid) ∧
    (if bool_decide (is_Some (xrSession r)) && negb (hitTestSourceRequested s)
     then issued s1 = S (issued s) ∧ hitTestSourceRequested s1 = true
          ∧ pendingViewerSpace s1 = S (pendingViewerSpace s)
          ∧ issued_source s1 = issued_source s
     else s1 = s).
Proof.
  intros Hr Hl. unfold hitTestRequest.
  unfold mbind at 1, JS_bind at 1, gets at 1. cbn beta iota.
  destruct (bool_decide (is_Some (xrSession r))
            && negb (hitTestSourceRequested s)) eqn:Hc.
  - apply andb_prop in Hc as [Hx _]. apply bool_decide_eq_true in Hx.
    destruct Hx as [x Hx].
    unfold addEventListener.
    unfold emit, modify, mbind, JS_bind, mret, JS_ret, deref. cbn.
    erewrite getSession_run by (cbn; eassumption). cbn.
    rewrite Hx. cbn. rewrite end_closure_is_new.
    erewrite setSession_run by (cbn; eassumption). cbn.
    eexists. split; [reflexivity|]. cbn.
    repeat split; try reflexivity.
    + rewrite list_lookup_alter_eq, Hl. cbn. eauto.
    + unfold issued. cbn. rewrite filter_app, length_app.
      change (filter _ [RequestReferenceSpace _]) with [RequestReferenceSpace "viewer"%string].
      cbn. lia.
    + unfold issued_source. cbn. rewrite filter_app, length_app.
      change (filter _ [RequestReferenceSpace _]) with (@nil Effect).
      cbn. lia.
  - exists s. cbn. repeat split; try reflexivity. eauto.
Qed.

Lemma reticle_state_alter f i s :
  (∀ o, visible (f o) = visible o ∧ matrix (f o) = matrix o) →
  reticle_state (set_objects (alter f i (objects s)) s) = reticle_state s.
Proof.
  intros Hf. unfold reticle_state, lookup_var. cbn.
  destruct (reticle s) as [rid|]; cbn; [|reflexivity].
  apply (lookup_alter_same (λ o, (visible o, matrix o))).
  intros o. destruct (Hf o) as [-> ->]. reflexivity.
Qed.

Ltac reticle_leaf :=
  idtac;
  let s' := fresh "s'" in
  let H := fresh "H" in
  intros s' H;
  first [ exact H
        | rewrite <- H; apply reticle_state_alter;
          intros []; split; reflexivity ].

(** The hit test of one frame, on the reticle alone. *)
Lemma performHitTest_reticle s frame source rid ro :
  hitTestSource s = Some source →
  reticle s = Some rid → objects s !! rid = Some ro →
  reticle_state (exec (performHitTest frame) s) = Some (tracked frame ro).
Proof.
  intros Hs Hr Ho. unfold performHitTest, tracked.
  rewrite exec_bind. unfold gets at 1. rewrite Hs.
  destruct (getHitTestResults frame) as [|hit rest].
  - unfold exec, mbind, JS_bind, gets, deref. cbn. rewrite Hr. cbn.
    erewrite updObject_run by eassumption. cbn.
    unfold reticle_state, lookup_var. cbn. rewrite Hr. cbn.
    rewrite list_lookup_alter_eq, Ho. reflexivity.
  - cbv zeta.
    rewrite exec_bind. unfold gets at 1.
    rewrite exec_bind. rewrite Hr. unfold deref at 1. cbn [mret JS_ret].
    change ((mret rid : JS nat) s) with (Normal rid, s).
    cbv beta iota.
    rewrite exec_bind. erewrite updObject_run by eassumption.
    set (s1 := set_objects (alter (set_visible true) rid (objects s)) s).
    assert (objects s1 !! rid = Some (set_visible true ro)) as Ho1.
    { subst s1. cbn. now rewrite list_lookup_alter_eq, Ho. }
    destruct (getPose hit) as [pose|].
    + rewrite exec_bind. cbn [deref]. change ((mret pose : JS XRPose) s1)
        with (Normal pose, s1). cbv beta iota.
      apply exec_bind_preserves.
      * unfold exec. erewrite updObject_run by eassumption. cbn.
        unfold reticle_state, lookup_var. cbn. rewrite Hr. cbn.
        rewrite list_lookup_alter_eq, list_lookup_alter_eq, Ho. cbn.
        now rewrite fromArray_copy.
      * intros _. pres reticle_leaf.
    + rewrite exec_bind. cbn.
      unfold reticle_state, lookup_var. cbn. rewrite Hr. cbn.
      now rewrite list_lookup_alter_eq, Ho.
Qed.

Lemma hitTestBlock_reticle s frame source rid ro :
  has_renderer s → hitTestSource s = Some source →
  reticle s = Some rid → objects s !! rid = Some ro →
  reticle_state (exec (hitTestBlock (Some frame)) s)
  = Some (tracked frame ro).
Proof.
  intros (r0 & r & Hr0 & Hl0) Hs Hr Ho. unfold hitTestBlock.
  rewrite exec_bind, (getSession_run s r0 r Hr0 Hl0).
  destruct (hitTestRequest_run s r0 r Hr0 Hl0)
    as (s1 & Hrun & Hobj & Hret & Hsrc & _).
  rewrite exec_bind, Hrun.
  apply (performHitTest_reticle s1 frame source rid ro); congruence.
Qed.

(** The reticle after one run of the AR loop on a frame. *)
Lemma ar_loop_reticle (v : Revision) (s : App) (frame : XRFrame)
    (source : XRHitTestSource) (rid : nat) (ro : Object3D) :
  has_renderer s → hitTestSource s = Some source →
  reticle s = Some rid → objects s !! rid = Some ro →
  reticle_state (exec (ar_loop v (Some frame)) s) = Some (tracked frame ro).
Proof.
  intros Hren Hs Hr Ho.
  destruct v; cbn [ar_loop]; unfold renderAR, ArOnly.render;
    (apply exec_bind_preserves;
     [ now apply (hitTestBlock_reticle s frame source rid ro)
     | intros _; unfold ArOnly.orbit_planet; pres reticle_leaf ]).
Qed.

(** X3. On a frame processed while the hit-test source is there, the AR loop
    of every revision leaves the reticle hidden when the frame has no hit
    result, and visible at the pose of the first result when it has one; when
    that result has no pose in the reference space the reticle is shown where
    it was. *)
Theorem ar_loop_tracks_reticle (v : Revision) (s : App) (frame : XRFrame)
    (source : XRHitTestSource) (rid : nat) (ro : Object3D) :
  has_renderer s → hitTestSource s = Some source →
  reticle s = Some rid → objects s !! rid = Some ro →
  let s' := exec (ar_loop v (Some frame)) s in
  (getHitTestResults frame = [] →
   reticle_state s' = Some (false, matrix ro)) ∧
  (∀ hit rest pose,
     getHitTestResults frame = hit :: rest → getPose hit = Some pose →
     reticle_state s' = Some (true, transform_matrix pose)) ∧
  (∀ hit rest,
     getHitTestResults frame = hit :: rest → getPose hit = None →
     reticle_state s' = Some (true, matrix ro)).
Proof.
  intros Hren Hs Hr Ho s'.
  pose proof (ar_loop_reticle v s frame source rid ro Hren Hs Hr Ho) as H.
  fold s' in H. unfold tracked in H.
  repeat split.
  - intros Hres. now rewrite Hres in H.
  - intros hit rest pose Hres Hpose. now rewrite Hres, Hpose in H.
  - intros hit rest Hres Hpose. now rewrite Hres, Hpose in H.
Qed.

Lemma is_Some_lookup_alter {A} (f : A → A) i j (l : list A) :
  is_Some (alter f i l !! j) ↔ is_Some (l !! j).
Proof.
  rewrite !lookup_lt_is_Some. now rewrite length_alter.
Qed.

Ltac tracking_leaf :=
  idtac;
  let s' := fresh "s'" in
  let H := fresh "H" in
  intros s' H;
  first [ exact H
        | destruct H as (? & ? & ? & ?); repeat apply conj; cbn;
          try assumption; now apply is_Some_lookup_alter ].

(** The AR loop keeps what hit testing needs: the renderer, the hit-test
    source and the reticle variable. *)
Lemma ar_loop_keeps_tracking (v : Revision) frame r0 source rid :
  preserves (λ s, renderer s = Some r0 ∧ is_Some (renderers s !! r0)
                  ∧ hitTestSource s = Some source ∧ reticle s = Some rid)
    (ar_loop v frame).
Proof.
  destruct v; cbn [ar_loop]; unfold ArOnly.render, ArOnly.orbit_planet;
    pres tracking_leaf.
Qed.

(** X4. Running the AR loop again on the same frame leaves the reticle as the
    first run left it: same visibility, same pose. *)
Theorem ar_loop_idempotent_on_reticle (v : Revision) (s : App)
    (frame : XRFrame) (source : XRHitTestSource) (rid : nat)
    (ro : Object3D) :
  has_renderer s → hitTestSource s = Some source →
  reticle s = Some rid → objects s !! rid = Some ro →
  reticle_state (exec (ar_loop v (Some frame))
                   (exec (ar_loop v (Some frame)) s))
  = reticle_state (exec (ar_loop v (Some frame)) s).
Proof.
  intros Hren Hs Hr Ho.
  pose proof (ar_loop_reticle v s frame source rid ro Hren Hs Hr Ho)
    as H1.
  destruct Hren as (r0 & r & Hr0 & Hl0).
  destruct (ar_loop_keeps_tracking v (Some frame) r0 source rid s)
    as (Hr0' & [r' Hl0'] & Hs' & Hr').
  { repeat split; eauto. }
  set (s1 := exec (ar_loop v (Some frame)) s) in *.
  assert (∃ ro1, objects s1 !! rid = Some ro1
                 ∧ (visible ro1, matrix ro1) = tracked frame ro)
    as (ro1 & Ho1 & Hro1).
  { unfold reticle_state, lookup_var in H1. rewrite Hr' in H1. cbn in H1.
    destruct (objects s1 !! rid) as [ro1|]; [|discriminate].
    exists ro1. split; [reflexivity|]. cbn in H1. congruence. }
  rewrite (ar_loop_reticle v s1 frame source rid ro1), H1;
    [|now exists r0, r'|assumption..].
  f_equal. unfold tracked in *.
  destruct (getHitTestResults frame) as [|hit rest];
    [|destruct (getPose hit)]; congruence.
Qed.

Lemma ar_loop_tracks_reticle_witness :
  reticle_state (exec (ar_loop RHybrid (Some (frame_at 4 5 6)))
                   (tracking_page hybrid))
  = Some (true, transform_matrix (pose_at 4 5 6)).
Proof.
  refine (proj1 (proj2
            (ar_loop_tracks_reticle RHybrid (tracking_page hybrid)
               (frame_at 4 5 6) 7%nat 42%nat
               (default (new_object KMesh)
                  (objects (tracking_page hybrid) !! 42%nat)) _ _ _ _))
            (mkHit (Some (pose_at 4 5 6))) [] (pose_at 4 5 6)
            eq_refl eq_refl).
  - exists 1%nat,
      (default (mkRenderer None false None)
         (renderers (tracking_page hybrid) !! 1%nat)).
    split; reflexivity.
  - reflexivity.
  - reflexivity.
  - vm_compute. reflexivity.
Defined.

Lemma ar_loop_idempotent_on_reticle_witness :
  let once := exec (ar_loop RArOnly (Some (frame_at 4 5 6)))
                (tracking_page arOnly) in
  reticle_state (exec (ar_loop RArOnly (Some (frame_at 4 5 6))) once)
  = reticle_state once.
Proof.
  refine (ar_loop_idempotent_on_reticle RArOnly (tracking_page arOnly)
            (frame_at 4 5 6) 7%nat
            (default 0%nat (reticle (tracking_page arOnly)))
            (default (new_object KMesh)
               (lookup_var reticle (tracking_page arOnly))) _ _ _ _).
  - exists 0%nat,
      (default (mkRenderer None false None)
         (renderers (tracking_page arOnly) !! 0%nat)).
    split; reflexivity.
  - reflexivity.
  - reflexivity.
  - vm_compute. reflexivity.
Defined.

(** ** The listeners of a session *)

Lemma getSession_state s : (getSession s).2 = s.
Proof.
  unfold getSession, getRenderer, mbind, JS_bind, gets, deref. cbn.
  destruct (renderer s) as [rid|]; cbn; [|reflexivity].
  destruct (renderers s !! rid); reflexivity.
Qed.

(** Under an invariant that makes sessions tidy, what [getSession]
    answers is tidy. *)
Lemma preserves_getSession_tidy {B} (I : App → Prop)
    (k : option XRSession → JS B) :
  (∀ s, I s → tidy_listeners s) →
  (∀ x, (∀ x', x = Some x' → tidy_session x') → preserves I (k x)) →
  preserves I (getSession ≫= k).
Proof.
  intros HI Hk s H. rewrite exec_bind.
  pose proof (getSession_state s) as Hst.
  destruct (getSession s) as [[x|e] s'] eqn:Hrun; cbn in Hst; subst s'.
  - apply Hk; [|exact H].
    apply getSession_inv in Hrun as (_ & rid & r & _ & Hl & ->).
    intros x' Hx'. exact (HI s H rid r x' Hl Hx').
  - exact H.
Qed.

Lemma tidy_alter f i s :
  (∀ r x', xrSession (f r) = Some x' →
           xrSession r = Some x' ∨ tidy_session x') →
  tidy_listeners s →
  tidy_listeners (set_renderers (alter f i (renderers s)) s).
Proof.
  intros Hf H rid r x Hl Hx. cbn in Hl.
  destruct (decide (i = rid)) as [->|Hne].
  - rewrite list_lookup_alter_eq in Hl.
    destruct (renderers s !! rid) as [r0|] eqn:Hr0; [|discriminate].
    cbn in Hl. injection Hl as <-.
    destruct (Hf r0 x Hx) as [Hx0|Ht]; [exact (H rid r0 x Hr0 Hx0)|exact Ht].
  - rewrite list_lookup_alter_ne in Hl by exact Hne.
    exact (H rid r x Hl Hx).
Qed.

Lemma tidy_new_renderer s :
  tidy_listeners s →
  tidy_listeners
    (set_renderers (renderers s ++ [mkRenderer None false None]) s).
Proof.
  intros H rid r x Hl Hx. cbn in Hl.
  apply lookup_app_Some in Hl as [Hl|[_ Hl]]; [exact (H rid r x Hl Hx)|].
  apply list_lookup_singleton_Some in Hl as [_ <-]. discriminate.
Qed.

Lemma tidy_session_nil : tidy_session (mkXRSession []).
Proof. split; [constructor|cbn; lia]. Qed.

Lemma length_filter_filter {A} (P Q : A → Prop)
    `{∀ a, Decision (P a)} `{∀ a, Decision (Q a)} (l : list A) :
  length (filter Q (filter P l)) ≤ length (filter Q l).
Proof.
  induction l as [|a l IH]; [reflexivity|].
  rewrite (filter_cons P). destruct (decide (P a)).
  - rewrite !filter_cons. destruct (decide (Q a)); cbn; lia.
  - rewrite filter_cons. destruct (decide (Q a)); cbn; lia.
Qed.

Lemma tidy_session_filter (P : Listener → Prop) `{∀ l, Decision (P l)} x :
  tidy_session x → tidy_session (mkXRSession (filter P (listeners x))).
Proof.
  intros [Hs Hc]. split; cbn.
  - apply Forall_forall. intros l Hl. apply list_elem_of_filter in Hl as [_ Hl].
    rewrite Forall_forall in Hs. exact (Hs l Hl).
  - etransitivity; [apply length_filter_filter|exact Hc].
Qed.

Lemma tidy_session_end x :
  tidy_session x →
  tidy_session
    (mkXRSession (listeners x ++ [mkListener EvtEnd CbEndClosure false])).
Proof.
  intros [Hs Hc]. split; cbn.
  - apply Forall_app. split; [exact Hs|].
    constructor; [right; reflexivity|constructor].
  - rewrite filter_app, length_app.
    change (filter _ [mkListener EvtEnd CbEndClosure false])
      with (@nil Listener).
    cbn. lia.
Qed.

(** [onSelect] is added only when no listener for ['select'] is there. *)
Lemma tidy_session_select x :
  tidy_session x →
  existsb (same_listener EvtSelect CbOnSelect) (listeners x) = false →
  tidy_session
    (mkXRSession (listeners x ++ [mkListener EvtSelect CbOnSelect true])).
Proof.
  intros [Hs Hc] Hex. split; cbn.
  - apply Forall_app. split; [exact Hs|].
    constructor; [left; reflexivity|constructor].
  - rewrite filter_app, length_app.
    change (filter _ [mkListener EvtSelect CbOnSelect true])
      with [mkListener EvtSelect CbOnSelect true].
    assert (filter (λ l, l_type l = EvtSelect) (listeners x) = []) as ->;
      [|cbn; lia].
    clear Hc. induction (listeners x) as [|l ls IH]; [reflexivity|].
    cbn in Hex. apply orb_false_elim in Hex as [Hl Hls].
    apply Forall_cons in Hs as [Hl' Hs].
    rewrite filter_cons. destruct (decide (l_type l = EvtSelect)) as [Ht|Ht].
    + exfalso. destruct Hl' as [->| ->]; [|discriminate]. discriminate.
    + exact (IH Hs Hls).
Qed.

Ltac tidy_special :=
  idtac;
  lazymatch goal with
  | |- preserves _ (mbind _ getSession) =>
      apply preserves_getSession_tidy;
      [ let s := fresh "s" in
        let H := fresh "H" in
        intros s H; exact H
      | intros ? ? ]
  end.

Ltac tidy_session_tac :=
  first [ apply tidy_session_nil
        | apply tidy_session_filter; eauto
        | apply tidy_session_end; eauto
        | apply tidy_session_select; eauto ].

Ltac tidy_leaf :=
  idtac;
  let s' := fresh "s'" in
  let H := fresh "H" in
  intros s' H;
  first
    [ exact H
    | apply tidy_new_renderer; exact H
    | apply tidy_alter; [|exact H];
      let Hx := fresh "Hx" in
      intros ? ? Hx; cbn in Hx;
      first [ left; exact Hx
            | discriminate Hx
            | right; injection Hx as <-; tidy_session_tac ] ].

Ltac unfold_revisions :=
  cbn [program p_load p_startClick p_onSelect p_loop arOnly part000 hybrid];
  unfold loop_of_later,
    ArOnly.load, ArOnly.startClick, ArOnly.initAR, ArOnly.render,
    ArOnly.orbit_planet, ArOnly.onSelect, ArOnly.createSolarSystem,
    ArOnly.createBody,
    Part000.load, Part000.startClick, Part000.initAR, Part000.init3D,
    Part000.onSelect, Part000.createSolarSystem,
    Hybrid.load, Hybrid.startClick, Hybrid.initAR, Hybrid.init3D,
    Hybrid.onSelect, Hybrid.createSolarSystem, Hybrid.createBody,
    Part000.createBody.

(** Every handler of every revision keeps the sessions tidy. *)
Lemma handle_keeps_tidy (v : Revision) (e : Event) :
  preserves tidy_listeners (handle (program v) e).
Proof.
  destruct v, e; cbn [handle]; autounfold with jsx; unfold_revisions;
    pres_with tidy_special tidy_leaf.
Qed.

Lemma initial_tidy : tidy_listeners initial.
Proof. intros rid r x Hl. destruct rid; discriminate. Qed.

Lemma run_keeps_tidy (v : Revision) (es : list Event) (s : App) :
  tidy_listeners s → tidy_listeners (run (program v) es s).
Proof.
  revert s. unfold run.
  induction es as [|e es IH]; intros s H; cbn [foldl]; [exact H|].
  apply IH. exact (handle_keeps_tidy v e s H).
Qed.

(** X5. In every state the page can reach, in every revision, a session holds
    nothing but the script's own listeners ([onSelect] registered once for
    ['select'], the resetting arrow function for ['end']), and at most one
    listener for ['select'], however many frames have reported a hit. *)
Theorem reachable_sessions_tidy (v : Revision) (es : list Event)
    (rid : nat) (r : WebGLRenderer) (x : XRSession) :
  renderers (run (program v) es initial) !! rid = Some r →
  xrSession r = Some x →
  (∀ l, l ∈ listeners x →
        l = mkListener EvtSelect CbOnSelect true
        ∨ l = mkListener EvtEnd CbEndClosure false) ∧
  length (filter (λ l, l_type l = EvtSelect) (listeners x)) ≤ 1.
Proof.
  intros Hl Hx.
  destruct (run_keeps_tidy v es initial initial_tidy rid r x Hl Hx)
    as [Hs Hc].
  split; [|exact Hc].
  intros l Hin. rewrite Forall_forall in Hs. exact (Hs l Hin).
Qed.

Lemma reachable_sessions_tidy_witness :
  let es := [Load (λ _, 0.5%float);
             StartClick (mkNavigator (VXRSystem (Fulfilled true)))
               (λ _, 0.25%float);
             SessionStart; Tick (frame_at 1 2 3); ViewerSpaceGranted;
             HitTestSourceGranted 7; Tick (frame_at 1 2 3);
             Tick (frame_at 4 5 6); Tick (frame_at 1 2 3)] in
  ∃ x, current_session (run hybrid es initial) = Some x ∧
       length (filter (λ l, l_type l = EvtSelect) (listeners x)) ≤ 1.
Proof.
  intros es.
  exists (mkXRSession [mkListener EvtEnd CbEndClosure false;
                       mkListener EvtSelect CbOnSelect true]).
  split; [vm_compute; reflexivity|].
  refine (proj2 (reachable_sessions_tidy RHybrid es 1
                   (mkRenderer (Some LoopRenderAR) true
                      (Some (mkXRSession
                               [mkListener EvtEnd CbEndClosure false;
                                mkListener EvtSelect CbOnSelect true])))
                   _ _ eq_refl)).
  vm_compute. reflexivity.
Defined.

(** ** One request per session *)

Lemma viewer_requests_snoc l e :
  length (filter (λ e, is_viewer_request e = true) (l ++ [e]))
  = length (filter (λ e, is_viewer_request e = true) l)
    + (if is_viewer_request e then 1 else 0).
Proof.
  rewrite filter_app, length_app. f_equal. destruct e; reflexivity.
Qed.

Lemma source_requests_snoc l e :
  length (filter (λ e, is_source_request e = true) (l ++ [e]))
  = length (filter (λ e, is_source_request e = true) l)
    + (if is_source_request e then 1 else 0).
Proof.
  rewrite filter_app, length_app. f_equal. destruct e; reflexivity.
Qed.

Ltac budget_arith :=
  unfold within_budget, request_budget, chain_budget, issued, issued_source
    in *;
  cbn in *;
  rewrite ?viewer_requests_snoc, ?source_requests_snoc; cbn; lia.

Ltac budget_leaf :=
  idtac;
  let s' := fresh "s'" in
  let H := fresh "H" in
  intros s' H;
  first
    [ exact H
    | destruct H; split; budget_arith ].

Lemma preserves_forEach_elem {A} (I : App → Prop)
    (f : nat → A → JS unit) (l : list A) :
  (∀ i a, a ∈ l → preserves I (f i a)) → preserves I (forEach f l).
Proof.
  unfold forEach. generalize 0. intros n Hf. revert n.
  induction l as [|a l IH]; intros n; cbn [forEach_from].
  - apply preserves_ret.
  - apply preserves_bind; [apply Hf; left|intros _; apply IH].
    intros i b Hb. apply Hf. now right.
Qed.

Lemma performHitTest_keeps_budget b1 b2 frame :
  preserves (within_budget b1 b2) (performHitTest frame).
Proof. pres budget_leaf. Qed.

Lemma hitTestBlock_keeps_budget b1 b2 frame :
  preserves (within_budget b1 b2) (hitTestBlock frame).
Proof.
  intros s [H1 H2]. destruct frame as [frame|]; [|now split].
  unfold hitTestBlock. rewrite exec_bind.
  pose proof (getSession_state s) as Hst.
  destruct (getSession s) as [[x|e] s'] eqn:Hrun; cbn in Hst; subst s';
    [|now split].
  apply getSession_inv in Hrun as (_ & rid & r & Hr & Hl & ->).
  destruct (hitTestRequest_run s rid r Hr Hl)
    as (s1 & Hrun & _ & _ & _ & _ & _ & _ & _ & _ & _ & Hc).
  rewrite exec_bind, Hrun.
  apply performHitTest_keeps_budget.
  destruct (bool_decide (is_Some (xrSession r))
            && negb (hitTestSourceRequested s)) eqn:Hcond.
  - destruct Hc as (Hi & Hf & Hp & Hsrc).
    apply andb_prop in Hcond as [_ Hflag].
    apply negb_true_iff in Hflag.
    unfold within_budget, request_budget, chain_budget in *.
    rewrite Hi, Hf, Hp, Hsrc. rewrite Hflag in H1, H2. lia.
  - subst s1. now split.
Qed.

Lemma loop_keeps_budget (v : Revision) cb frame b1 b2 :
  preserves (within_budget b1 b2) (p_loop (program v) cb frame).
Proof.
  destruct v, cb; unfold_revisions; unfold renderAR;
    try apply preserves_ret;
    try (apply preserves_bind; [apply hitTestBlock_keeps_budget|intros _]);
    pres budget_leaf.
Qed.

Lemma onSelect_keeps_budget (v : Revision) b1 b2 :
  preserves (within_budget b1 b2) (p_onSelect (program v)).
Proof. destruct v; unfold_revisions; pres budget_leaf. Qed.

Lemma viewerSpaceGranted_keeps_budget b1 b2 :
  preserves (within_budget b1 b2) viewerSpaceGranted.
Proof.
  intros s H. unfold exec, viewerSpaceGranted, mbind, JS_bind, gets.
  cbn. destruct (pendingViewerSpace s) as [|n] eqn:Hn; cbn; [exact H|].
  destruct H; split; budget_arith.
Qed.

Lemma select_listener_of_tidy x l :
  tidy_session x →
  l ∈ filter (λ l, l_type l = EvtSelect) (listeners x) →
  l = mkListener EvtSelect CbOnSelect true.
Proof.
  intros [Hs _] Hl. apply list_elem_of_filter in Hl as [Ht Hl].
  rewrite Forall_forall in Hs.
  destruct (Hs l Hl) as [->| ->]; [reflexivity|discriminate].
Qed.

Lemma invoke_keeps_tidy (v : Revision) l :
  preserves tidy_listeners (invoke (program v) l).
Proof.
  destruct v; autounfold with jsx; unfold_revisions;
    pres_with tidy_special tidy_leaf.
Qed.

Lemma select_keeps_budget (v : Revision) b1 b2 :
  preserves (λ s, tidy_listeners s ∧ within_budget b1 b2 s)
    (dispatchEvent (program v) EvtSelect).
Proof.
  unfold dispatchEvent.
  apply preserves_getSession_tidy; [now intros s [H _]|].
  intros [x|] Hx; [|apply preserves_ret].
  apply preserves_forEach_elem. intros _ l Hl.
  apply (select_listener_of_tidy x) in Hl; [|now apply Hx]. subst l.
  apply preserves_and; [apply invoke_keeps_tidy|].
  unfold invoke. cbn [l_once l_callback call].
  pose proof (onSelect_keeps_budget v b1 b2).
  pres budget_leaf. assumption.
Qed.

Lemma in_session_keeps_budget (v : Revision) e b1 b2 :
  in_session e = true →
  preserves (λ s, tidy_listeners s ∧ within_budget b1 b2 s)
    (handle (program v) e).
Proof.
  intros He.
  destruct e; try discriminate; cbn [handle];
    try (apply preserves_and; [apply (handle_keeps_tidy v (Tick frame))|]);
    try (apply preserves_and; [apply (handle_keeps_tidy v ViewerSpaceGranted)|]);
    try (apply preserves_and; [apply (handle_keeps_tidy v ViewerSpaceRejected)|]);
    try (apply preserves_and;
         [apply (handle_keeps_tidy v (HitTestSourceGranted source))|]);
    try (apply preserves_and;
         [apply (handle_keeps_tidy v HitTestSourceRejected)|]).
  - unfold tick. pose proof (loop_keeps_budget v) as Hloop.
    apply preserves_bind; [apply preserves_gets|intros rs].
    apply preserves_forEach. intros _ r.
    destruct (animationLoop r); [|apply preserves_ret].
    apply preserves_try_, Hloop.
  - apply viewerSpaceGranted_keeps_budget.
  - pres budget_leaf.
  - pres budget_leaf.
  - pres budget_leaf.
  - apply select_keeps_budget.
Qed.

(** X6. Inside one session, whatever frames, taps and promise settlements
    arrive and in whatever order, the script starts the request chain for a
    hit-test source at most once, and not at all when the flag was set
    already; the chain reaches [requestHitTestSource] at most once more than
    there were promises pending at the start. *)
Theorem one_request_per_session (v : Revision) (s : App) (es : list Event) :
  tidy_listeners s →
  Forall (λ e, in_session e = true) es →
  issued (run (program v) es s) ≤ request_budget s ∧
  issued_source (run (program v) es s) ≤ chain_budget s.
Proof.
  intros Ht Hes.
  cut (tidy_listeners (run (program v) es s)
       ∧ within_budget (request_budget s) (chain_budget s)
           (run (program v) es s)).
  { intros [_ [H1 H2]]. unfold request_budget, chain_budget in H1, H2 |- *.
    split; lia. }
  assert (tidy_listeners s
          ∧ within_budget (request_budget s) (chain_budget s) s) as H0
    by (split; [exact Ht|split; reflexivity]).
  revert H0. generalize (request_budget s), (chain_budget s). intros b1 b2.
  generalize s as s0. unfold run.
  induction Hes as [|e es He _ IH]; intros s0 H0; cbn [foldl]; [exact H0|].
  apply IH. exact (in_session_keeps_budget v e b1 b2 He s0 H0).
Qed.

Lemma one_request_per_session_witness :
  let s := run hybrid
             [Load (λ _, 0.5%float);
              StartClick (mkNavigator (VXRSystem (Fulfilled true)))
                (λ _, 0.25%float);
              SessionStart] initial in
  let es := [Tick (frame_at 1 2 3); Tick (frame_at 1 2 3);
             ViewerSpaceGranted; Tick (frame_at 1 2 3);
             HitTestSourceGranted 7; Tick (frame_at 4 5 6); Select;
             Tick (frame_at 4 5 6)] in
  Forall (λ e, in_session e = true) es ∧
  issued (run hybrid es s) ≤ 1 ∧ issued_source (run hybrid es s) ≤ 1.
Proof.
  intros s es.
  assert (Forall (λ e, in_session e = true) es) as Hes
    by (repeat constructor).
  split; [exact Hes|].
  exact (one_request_per_session RHybrid s es
           (run_keeps_tidy RHybrid _ initial initial_tidy) Hes).
Defined.

(** ** The end of a session *)

Lemma end_listener_of_script x l :
  Forall script_listener (listeners x) →
  l ∈ filter (λ l, l_type l = EvtEnd) (listeners x) →
  l = end_listener ∧ l ∈ listeners x.
Proof.
  intros Hs Hl. apply list_elem_of_filter in Hl as [Ht Hl].
  rewrite Forall_forall in Hs.
  destruct (Hs l Hl) as [->| ->]; [discriminate|now split].
Qed.

(** Invoking the end listener runs the reset and nothing else. *)
Lemma invoke_end_listener (P : Program) s rid r x :
  renderer s = Some rid → renderers s !! rid = Some r →
  xrSession r = Some x → end_listener ∈ listeners x →
  invoke P end_listener s = (Normal (), reset_hit_test s).
Proof.
  intros Hr Hl Hx Hin. unfold invoke.
  erewrite run_bind by (apply (getSession_run s rid r Hr Hl)).
  rewrite Hx. destruct (decide (end_listener ∈ listeners x)); [|contradiction].
  reflexivity.
Qed.

Lemma forEach_end_listeners (P : Program) ls i s rid r x :
  renderer s = Some rid → renderers s !! rid = Some r →
  xrSession r = Some x → end_listener ∈ listeners x →
  Forall (λ l, l = end_listener) ls →
  forEach_from i (λ _ l, invoke P l) ls s
  = (Normal (), match ls with [] => s | _ => reset_hit_test s end).
Proof.
  intros Hr Hl Hx Hin Hls. revert i s Hr Hl.
  induction Hls as [|l ls -> _ IH]; intros i s Hr Hl; [reflexivity|].
  cbn [forEach_from].
  erewrite run_bind by (apply (invoke_end_listener P s rid r x); assumption).
  rewrite (IH (S i) (reset_hit_test s)) by assumption.
  destruct ls; reflexivity.
Qed.

Ltac issued_leaf :=
  idtac;
  let s' := fresh "s'" in
  let H := fresh "H" in
  intros s' H;
  first
    [ exact H
    | destruct H; split; [|assumption];
      unfold issued in *; cbn in *;
      rewrite ?viewer_requests_snoc; cbn; lia ].

(** X7. When the ['end'] event fires on a session on which the script has
    registered its end listener, the hit-test source is cleared, the flag is
    reset and the renderer presents no session; when the user then starts a
    new session from the AR button, the first frame the AR loop processes
    issues the request again and sets the flag. *)
Theorem session_end_rearms_request (v : Revision) (s : App) (rid : nat)
    (r : WebGLRenderer) (x : XRSession) (frame : XRFrame) :
  renderer s = Some rid → renderers s !! rid = Some r →
  xrSession r = Some x →
  Forall script_listener (listeners x) →
  end_listener ∈ listeners x →
  ARButtonElement rid ∈ container s →
  let s1 := step (program v) s SessionEnd in
  let s2 := step (program v) s1 SessionStart in
  let s3 := exec (ar_loop v (Some frame)) s2 in
  hitTestSource s1 = None ∧ hitTestSourceRequested s1 = false ∧
  current_session s1 = None ∧
  issued s3 = S (issued s) ∧ hitTestSourceRequested s3 = true.
Proof.
  intros Hr Hl Hx Hscript Hin Hbtn.
  (* the end event *)
  assert (step (program v) s SessionEnd
          = set_renderers
              (alter (λ r, mkRenderer (animationLoop r) (xrEnabled r) None)
                 rid (renderers s)) (reset_hit_test s)) as H1.
  { unfold step, handle. rewrite exec_bind. unfold dispatchEvent.
    erewrite run_bind by (apply (getSession_run s rid r Hr Hl)).
    rewrite Hx. unfold forEach.
    rewrite (forEach_end_listeners (program v) _ 0 s rid r x Hr Hl Hx Hin).
    - destruct (filter (λ l, l_type l = EvtEnd) (listeners x)) eqn:Hf.
      + exfalso.
        assert (end_listener ∈ filter (λ l, l_type l = EvtEnd) (listeners x))
          as Hmem by (apply list_elem_of_filter; now split).
        rewrite Hf in Hmem. now apply not_elem_of_nil in Hmem.
      + unfold exec, try_. cbn [snd]. unfold exec.
        erewrite (setSession_run (reset_hit_test s) rid r None)
          by assumption.
        reflexivity.
    - apply Forall_forall. intros l Hlf.
      now apply (end_listener_of_script x l Hscript) in Hlf. }
  cbv zeta. rewrite H1. clear H1.
  set (s1 := set_renderers _ (reset_hit_test s)).
  assert (renderers s1 !! rid
          = Some (mkRenderer (animationLoop r) (xrEnabled r) None)) as Hl1.
  { subst s1. cbn. now rewrite list_lookup_alter_eq, Hl. }
  (* the new session *)
  assert (step (program v) s1 SessionStart
          = set_renderers
              (alter (λ r, mkRenderer (animationLoop r) (xrEnabled r)
                             (Some (mkXRSession [])))
                 rid (renderers s1)) s1) as H2.
  { unfold step, handle, sessionStart, exec.
    unfold mbind at 1 2 3, JS_bind at 1 2 3, gets at 1 2, deref at 1.
    cbn [renderer s1 set_renderers reset_hit_test set_hitTestSource
         set_hitTestSourceRequested container fst snd mret JS_ret].
    rewrite Hr. cbn [mret JS_ret].
    erewrite run_bind by (apply (getSession_run s1 rid _ Hr Hl1)).
    cbn [xrSession].
    rewrite bool_decide_eq_true_2 by exact Hbtn.
    rewrite bool_decide_eq_true_2 by reflexivity. cbn [andb].
    erewrite (setSession_run s1 rid) by eassumption. reflexivity. }
  rewrite H2. clear H2.
  set (s2 := set_renderers _ s1).
  assert (renderers s2 !! rid
          = Some (mkRenderer (animationLoop r) (xrEnabled r)
                    (Some (mkXRSession [])))) as Hl2.
  { subst s2. cbn [renderers set_renderers].
    now rewrite list_lookup_alter_eq, Hl1. }
  split; [reflexivity|]. split; [reflexivity|].
  split.
  { unfold current_session.
    change (renderer s1) with (renderer s). rewrite Hr.
    change (renderers s1 !! rid ≫= xrSession = None).
    now rewrite Hl1. }
  (* its first frame *)
  cut (issued (exec (ar_loop v (Some frame)) s2) = S (issued s)
       ∧ hitTestSourceRequested (exec (ar_loop v (Some frame)) s2) = true);
    [tauto|].
  assert (∀ rest : JS unit,
            preserves (λ s', issued s' = S (issued s)
                             ∧ hitTestSourceRequested s' = true) rest →
            issued (exec (hitTestBlock (Some frame);; rest) s2)
            = S (issued s)
            ∧ hitTestSourceRequested
                (exec (hitTestBlock (Some frame);; rest) s2) = true)
    as Hblock.
  { intros rest Hrest.
    apply (exec_bind_preserves
             (λ s', issued s' = S (issued s)
                    ∧ hitTestSourceRequested s' = true));
      [|intros _; exact Hrest].
    unfold hitTestBlock. rewrite exec_bind.
    rewrite (getSession_run s2 rid _ Hr Hl2).
    destruct (hitTestRequest_run s2 rid _ Hr Hl2)
      as (s3 & Hrun & _ & _ & _ & _ & _ & _ & _ & _ & _ & Hc).
    rewrite exec_bind, Hrun.
    match type of Hc with
    | if ?c then _ else _ => change c with true in Hc
    end.
    destruct Hc as (Hi & Hf & _).
    change (issued s2) with (issued s) in Hi.
    revert Hi Hf. generalize s3. clear.
    intros s3 Hi Hf.
    apply (λ H : preserves (λ s', issued s' = S (issued s)
                                  ∧ hitTestSourceRequested s' = true)
                   (performHitTest frame), H s3 (conj Hi Hf)).
    pres issued_leaf. }
  destruct v; cbn [ar_loop]; unfold renderAR, ArOnly.render;
    apply Hblock; unfold ArOnly.orbit_planet; pres issued_leaf.
Qed.

Lemma session_end_rearms_request_witness :
  let s := tracking_page part000 in
  let s1 := step part000 s SessionEnd in
  let s3 := exec (ar_loop RPart000 (Some (frame_at 4 5 6)))
              (step part000 s1 SessionStart) in
  hitTestSource s = Some 7 ∧ hitTestSourceRequested s = true ∧
  hitTestSource s1 = None ∧ hitTestSourceRequested s1 = false ∧
  current_session s1 = None ∧
  issued s3 = S (issued s) ∧ hitTestSourceRequested s3 = true.
Proof.
  intros s s1 s3.
  split; [reflexivity|]. split; [reflexivity|].
  refine (session_end_rearms_request RPart000 s 1
            (mkRenderer (Some LoopRenderAR) true
               (Some (mkXRSession
                        [end_listener; mkListener EvtSelect CbOnSelect true])))
            (mkXRSession [end_listener; mkListener EvtSelect CbOnSelect true])
            (frame_at 4 5 6) eq_refl _ eq_refl _ _ _).
  - vm_compute. reflexivity.
  - constructor; [right; reflexivity|].
    constructor; [left; reflexivity|constructor].
  - apply list_elem_of_here.
  - apply list_elem_of_In. vm_compute. tauto.
Defined.

(** ** Statements that complete *)

Lemma updObject_some s id f :
  is_Some (objects s !! id) →
  updObject id f s = (Normal (), set_objects (alter f id (objects s)) s).
Proof. intros [o Ho]. exact (updObject_run s id o f Ho). Qed.

Lemma getObject_run s id o :
  objects s !! id = Some o → getObject id s = (Normal o, s).
Proof.
  intros Ho. unfold getObject, mbind, JS_bind, gets, deref. cbn.
  now rewrite Ho.
Qed.

Lemma remove_run s q c :
  is_Some (objects s !! q) → is_Some (objects s !! c) →
  ∃ os,
    remove q c s = (Normal (), set_objects os s) ∧
    own_properties <$> os = own_properties <$> objects s ∧
    length os = length (objects s).
Proof.
  intros [qo Hqo] Hc. unfold remove.
  erewrite run_bind by (apply (getObject_run s q qo Hqo)).
  destruct (decide (c ∈ children qo)) as [Hin|Hnin].
  - exists (alter (λ o, set_children (remove_first c (children o)) o) q
              (alter (set_parent None) c (objects s))).
    split; [|split].
    + erewrite run_bind by (apply updObject_some; exact Hc).
      rewrite updObject_some
        by (cbn; apply is_Some_lookup_alter; rewrite Hqo; eauto).
      reflexivity.
    + now rewrite !fmap_alter_same by (intros []; reflexivity).
    + now rewrite !length_alter.
  - exists (objects s). split; [destruct s; reflexivity|]. now split.
Qed.

(** [Object3D.add] on objects of the store: the child ends under its new
    parent, listed among the parent's children; nothing else of any
    object changes but parent and children links. *)
Lemma add_run s p c co :
  p ≠ c → objects s !! c = Some co → is_Some (objects s !! p) →
  (∀ q, parent co = Some q → is_Some (objects s !! q)) →
  ∃ os,
    add p c s = (Normal (), set_objects os s) ∧
    own_properties <$> os = own_properties <$> objects s ∧
    parent <$> os !! c = Some (Some p) ∧
    (∃ po, os !! p = Some po ∧ c ∈ children po).
Proof.
  intros Hne Hc Hp Hq. unfold add.
  destruct (decide (p = c)) as [|_]; [contradiction|].
  erewrite run_bind by (apply (getObject_run s c co Hc)).
  assert (∃ os0,
            match parent co with
            | Some q => remove q c
            | None => mret ()
            end s = (Normal (), set_objects os0 s) ∧
            own_properties <$> os0 = own_properties <$> objects s ∧
            length os0 = length (objects s)) as (os0 & Hrun & Hown & Hlen).
  { destruct (parent co) as [q|].
    - apply remove_run; [now apply Hq|rewrite Hc; eauto].
    - exists (objects s). split; [destruct s; reflexivity|]. now split. }
  erewrite run_bind by exact Hrun.
  assert (is_Some (os0 !! c)) as [c0 Hc0].
  { apply lookup_lt_is_Some. rewrite Hlen. apply lookup_lt_is_Some.
    rewrite Hc. eauto. }
  assert (is_Some (os0 !! p)) as [p0 Hp0].
  { apply lookup_lt_is_Some. rewrite Hlen. now apply lookup_lt_is_Some. }
  exists (alter (λ o, set_children (children o ++ [c]) o) p
            (alter (set_parent (Some p)) c os0)).
  split; [|split; [|split]].
  - erewrite run_bind
      by (apply updObject_some; cbn; rewrite Hc0; eauto).
    rewrite updObject_some
      by (cbn; apply is_Some_lookup_alter; rewrite Hp0; eauto).
    reflexivity.
  - rewrite !fmap_alter_same by (intros []; reflexivity). exact Hown.
  - rewrite (lookup_alter_same parent) by (intros []; reflexivity).
    now rewrite list_lookup_alter_eq, Hc0.
  - rewrite list_lookup_alter_eq, list_lookup_alter_ne, Hp0 by congruence.
    eexists. split; [reflexivity|]. cbn.
    apply elem_of_app. right. now apply list_elem_of_singleton.
Qed.

Section Returns.
Context {A : Type} (s : App) (Q : A → App → Prop).

Lemma returns_ret a : Q a s → returns (mret a) s Q.
Proof. intros H. now exists a, s. Qed.

Lemma returns_ret_inv a : returns (mret a) s Q → Q a s.
Proof. intros (a' & s' & [= <- <-] & H). exact H. Qed.

Lemma returns_gets (f : App → A) : Q (f s) s → returns (gets f) s Q.
Proof. intros H. now exists (f s), s. Qed.

Lemma returns_deref (v : option A) a :
  v = Some a → Q a s → returns (deref v) s Q.
Proof. intros -> H. now exists a, s. Qed.

Lemma returns_bind {B} (m : JS B) (k : B → JS A) :
  returns m s (λ b s', returns (k b) s' Q) → returns (m ≫= k) s Q.
Proof.
  intros (b & s' & Hm & a & s'' & Hk & H). exists a, s''.
  split; [|exact H]. now rewrite (run_bind m k s b s' Hm).
Qed.

Lemma returns_impl (m : JS A) (Q' : A → App → Prop) :
  returns m s Q' → (∀ a s', Q' a s' → Q a s') → returns m s Q.
Proof. intros (a & s' & Hm & H) HQ. exists a, s'. auto. Qed.
End Returns.

Section ReturnsUnit.
Context (s : App) (Q : unit → App → Prop).

Lemma returns_modify f : Q () (f s) → returns (modify f) s Q.
Proof. intros H. now exists (), (f s). Qed.

Lemma returns_try_ m : Q () (exec m s) → returns (try_ m) s Q.
Proof. intros H. now exists (), (exec m s). Qed.

Lemma returns_updObject id f :
  is_Some (objects s !! id) →
  Q () (set_objects (alter f id (objects s)) s) →
  returns (updObject id f) s Q.
Proof.
  intros Hid H. eexists (), _. split; [|exact H].
  now apply updObject_some.
Qed.

(** Adding an object that has no parent yet. *)
Lemma returns_add_new p c co :
  p ≠ c → objects s !! c = Some co → parent co = None →
  is_Some (objects s !! p) →
  Q () (set_objects
          (alter (λ o, set_children (children o ++ [c]) o) p
             (alter (set_parent (Some p)) c (objects s))) s) →
  returns (add p c) s Q.
Proof.
  intros Hne Hc Hpar Hp H. eexists (), _. split; [|exact H].
  unfold add. destruct (decide (p = c)); [contradiction|].
  erewrite run_bind by (apply (getObject_run s c co Hc)).
  rewrite Hpar.
  erewrite run_bind by reflexivity.
  erewrite run_bind by (apply updObject_some; rewrite Hc; eauto).
  rewrite updObject_some
    by (cbn; apply is_Some_lookup_alter; exact Hp).
  reflexivity.
Qed.

(** Adding an object that may have a parent: the links of the store
    change, the objects' own properties do not. *)
Lemma returns_add p c co :
  p ≠ c → objects s !! c = Some co → is_Some (objects s !! p) →
  (∀ q, parent co = Some q → is_Some (objects s !! q)) →
  (∀ os,
     own_properties <$> os = own_properties <$> objects s →
     parent <$> os !! c = Some (Some p) →
     (∃ po, os !! p = Some po ∧ c ∈ children po) →
     Q () (set_objects os s)) →
  returns (add p c) s Q.
Proof.
  intros Hne Hc Hp Hq H.
  destruct (add_run s p c co Hne Hc Hp Hq) as (os & Hrun & Ho & Hpar & Hch).
  exists (), (set_objects os s). split; [exact Hrun|]. now apply H.
Qed.

Lemma returns_updRenderer rid f :
  is_Some (renderers s !! rid) →
  Q () (set_renderers (alter f rid (renderers s)) s) →
  returns (updRenderer rid f) s Q.
Proof.
  intros [r Hr] H. eexists (), _. split; [|exact H].
  unfold updRenderer, getRenderer, mbind, JS_bind, gets, deref. cbn.
  now rewrite Hr.
Qed.

Lemma returns_removeChild el :
  el ∈ container s →
  Q () (set_container (filter (λ e, e ≠ el) (container s)) s) →
  returns (removeChild el) s Q.
Proof.
  intros Hel H. eexists (), _. split; [|exact H].
  unfold removeChild, mbind, JS_bind, gets. cbn.
  destruct (decide (el ∈ container s)); [reflexivity|contradiction].
Qed.

End ReturnsUnit.

Lemma returns_forEach_from {B} (I : App → Prop) (f : nat → B → JS unit)
    (l : list B) i s (Q : unit → App → Prop) :
  I s →
  (∀ i b s', b ∈ l → I s' → returns (f i b) s' (λ _, I)) →
  (∀ s', I s' → Q () s') →
  returns (forEach_from i f l) s Q.
Proof.
  intros Hs Hf HQ. revert i s Hs.
  induction l as [|b l IH]; intros i s Hs; cbn [forEach_from].
  - apply returns_ret. now apply HQ.
  - apply returns_bind.
    eapply returns_impl; [apply Hf; [left|exact Hs]|].
    intros ? s' Hs'. apply IH; [|exact Hs'].
    intros j c s'' Hc. apply Hf. now right.
Qed.

Lemma returns_getObject s id o (Q : Object3D → App → Prop) :
  objects s !! id = Some o → Q o s → returns (getObject id) s Q.
Proof. intros Ho H. exists o, s. split; [now apply getObject_run|exact H]. Qed.

Lemma returns_alloc s o (Q : nat → App → Prop) :
  Q (length (objects s)) (set_objects (objects s ++ [o]) s) →
  returns (alloc o) s Q.
Proof. intros H. eexists _, _. split; [reflexivity|exact H]. Qed.

Lemma returns_newRenderer s (Q : nat → App → Prop) :
  Q (length (renderers s))
    (set_renderers (renderers s ++ [mkRenderer None false None]) s) →
  returns newRenderer s Q.
Proof. intros H. eexists _, _. split; [reflexivity|exact H]. Qed.

Lemma returns_getSession s rid r (Q : option XRSession → App → Prop) :
  renderer s = Some rid → renderers s !! rid = Some r →
  Q (xrSession r) s → returns getSession s Q.
Proof.
  intros Hr Hl H. exists (xrSession r), s.
  split; [now apply (getSession_run s rid r)|exact H].
Qed.

Lemma returns_setSession s rid x (Q : unit → App → Prop) :
  renderer s = Some rid → is_Some (renderers s !! rid) →
  Q () (set_renderers
          (alter (λ r, mkRenderer (animationLoop r) (xrEnabled r) x) rid
             (renderers s)) s) →
  returns (setSession x) s Q.
Proof.
  intros Hr [r Hl] H. eexists (), _. split; [|exact H].
  now apply (setSession_run s rid r).
Qed.

(** The state a statement that completes leaves. *)
Lemma returns_exec {A} (m : JS A) s (P : App → Prop) :
  returns m s (λ _ s', P s') → P (exec m s).
Proof. intros (a & s' & Hm & H). unfold exec. now rewrite Hm. Qed.

Ltac state_simpl :=
  cbn [camera scene renderer controls reticle solarSystemGroup hitTestSource
       hitTestSourceRequested planets objects renderers container
       containerVisible overlayHidden pendingViewerSpace
       pendingHitTestSource log
       set_camera set_scene set_renderer set_controls set_reticle
       set_solarSystemGroup set_hitTestSource set_hitTestSourceRequested
       set_planets set_objects set_renderers set_container
       set_containerVisible set_overlayHidden set_pendingViewerSpace
       set_pendingHitTestSource set_log].

(** One statement of a sequence; [side] proves what the statement needs
    to complete. *)
Ltac ret_step side :=
  lazymatch goal with
  | |- returns (mret _) _ _ => apply returns_ret
  | |- returns (mbind _ _) _ _ => apply returns_bind
  | |- returns (gets _) _ _ => apply returns_gets
  | |- returns (modify _) _ _ => apply returns_modify
  | |- returns (emit _) _ _ => apply returns_modify
  | |- returns (try_ _) _ _ => apply returns_try_
  | |- returns (deref _) _ _ => eapply returns_deref; [solve [side]|]
  | |- returns (getObject _) _ _ => eapply returns_getObject; [solve [side]|]
  | |- returns (updObject _ _) _ _ =>
      apply returns_updObject; [solve [side]|]
  | |- returns (alloc _) _ _ => apply returns_alloc
  | |- returns newRenderer _ _ => apply returns_newRenderer
  | |- returns (appendChild _) _ _ => apply returns_modify
  end;
  cbv beta; state_simpl.

(** ** Placing the group *)

Lemma select_filter_tidy x :
  tidy_session x → mkListener EvtSelect CbOnSelect true ∈ listeners x →
  filter (λ l, l_type l = EvtSelect) (listeners x)
  = [mkListener EvtSelect CbOnSelect true].
Proof.
  intros Ht Hin.
  assert (mkListener EvtSelect CbOnSelect true
          ∈ filter (λ l, l_type l = EvtSelect) (listeners x)) as Hmem
    by (apply list_elem_of_filter; now split).
  pose proof (λ l, select_listener_of_tidy x l Ht) as Hall.
  destruct Ht as [_ Hlen].
  destruct (filter (λ l, l_type l = EvtSelect) (listeners x)) as [|a [|b l]].
  - now apply not_elem_of_nil in Hmem.
  - f_equal. apply Hall, list_elem_of_here.
  - cbn in Hlen. lia.
Qed.

(** Without its only ['select'] listener a tidy session has none. *)
Lemma select_filter_removed x :
  tidy_session x →
  filter (λ l, l_type l = EvtSelect)
    (filter (λ l, l ≠ mkListener EvtSelect CbOnSelect true) (listeners x))
  = [].
Proof.
  intros Ht.
  pose proof (λ l, select_listener_of_tidy x l Ht) as Hall.
  destruct (filter _ (filter _ _)) as [|a l] eqn:Hf; [reflexivity|].
  assert (a ∈ filter (λ l, l_type l = EvtSelect)
            (filter (λ l, l ≠ mkListener EvtSelect CbOnSelect true)
               (listeners x))) as Ha by (rewrite Hf; apply list_elem_of_here).
  apply list_elem_of_filter in Ha as [Hty Ha].
  apply list_elem_of_filter in Ha as [Hne Ha].
  exfalso. apply Hne, Hall. apply list_elem_of_filter. now split.
Qed.

(** What the store holds once the group is placed and the reticle
    hidden. *)
Lemma placed_store os g sc r P S s :
  (∃ o, os !! g = Some o ∧ position o = P ∧ scale o = S
        ∧ parent o = Some sc) →
  (∃ po, os !! sc = Some po ∧ g ∈ children po) →
  is_Some (os !! r) →
  solarSystemGroup s = Some g → scene s = Some sc → reticle s = Some r →
  placement (set_objects (alter (set_visible false) r os) s)
  = (Some (P, S, Some sc), true)
  ∧ reticle_visible (set_objects (alter (set_visible false) r os) s) = false.
Proof.
  intros (o & Ho & HP & HS & Hpar) (po & Hpo & Hin) [ro Hro] Hg Hsc Hr.
  unfold placement, attached, reticle_visible, lookup_var.
  cbn [solarSystemGroup scene reticle objects set_objects].
  rewrite Hg, Hsc, Hr. cbn [mbind option_bind].
  split; [f_equal|].
  - rewrite (lookup_alter_same (λ o, (position o, scale o, parent o)))
      by (intros []; reflexivity).
    rewrite Ho. cbn. now rewrite HP, HS, Hpar.
  - pose proof (lookup_alter_same children (set_visible false) r sc os
                  ltac:(intros []; reflexivity)) as Hc.
    rewrite Hpo in Hc. cbn in Hc.
    destruct (alter (set_visible false) r os !! sc) as [po'|];
      [|discriminate].
    injection Hc as ->. now apply bool_decide_eq_true_2.
  - rewrite list_lookup_alter_eq, Hro. reflexivity.
Qed.


Lemma lookup_own_properties (os os' : list Object3D) (id : nat) o :
  own_properties <$> os' = own_properties <$> os → os !! id = Some o →
  ∃ o', os' !! id = Some o' ∧ own_properties o' = own_properties o.
Proof.
  intros Heq Ho.
  assert ((own_properties <$> os') !! id = Some (own_properties o)) as H
    by (rewrite Heq, list_lookup_fmap, Ho; reflexivity).
  rewrite list_lookup_fmap in H.
  destruct (os' !! id) as [o'|]; [|discriminate].
  exists o'. split; [reflexivity|]. cbn in H. congruence.
Qed.

Lemma own_properties_placed o o' :
  own_properties o' = own_properties o →
  position o' = position o ∧ scale o' = scale o.
Proof. unfold own_properties. intros H. now inversion H. Qed.

Ltac place_side :=
  state_simpl;
  first
    [ eassumption
    | reflexivity
    | rewrite ?is_Some_lookup_alter;
      match goal with
      | H : ?l !! ?i = Some _ |- is_Some (?l !! ?i) => rewrite H; eauto
      end
    | rewrite !list_lookup_alter_eq;
      match goal with H : _ !! _ = Some _ |- _ => rewrite H end;
      reflexivity ].

(** [onSelect] with the reticle in view. *)
Lemma onSelect_places (v : Revision) s r g sc ro go
    (Q : unit → App → Prop) :
  reticle s = Some r → objects s !! r = Some ro → visible ro = true →
  solarSystemGroup s = Some g → objects s !! g = Some go →
  scene s = Some sc → is_Some (objects s !! sc) → sc ≠ g →
  parent_in_store s g →
  (∀ os,
     placement (set_objects os s)
     = (Some (setFromMatrixPosition (matrix ro), placed_scale v (scale go),
              Some sc), true) →
     reticle_visible (set_objects os s) = false →
     returns (match v with
              | RHybrid => removeEventListener EvtSelect CbOnSelect
              | _ => mret ()
              end) (set_objects os s) Q) →
  returns (p_onSelect (program v)) s Q.
Proof.
  intros Hr Hro Hvis Hg Hgo Hsc Hsco Hne Hpar HQ.
  assert (∀ f : Object3D → Object3D,
            (∀ o, parent (f o) = parent o) →
            (∀ o, position (f o) = setFromMatrixPosition (matrix ro)) →
            ∀ Q' : unit → App → Prop,
              (∀ os,
                 placement (set_objects os s)
                 = (Some (setFromMatrixPosition (matrix ro),
                          scale (f go), Some sc), true) →
                 reticle_visible (set_objects os s) = false →
                 Q' () (set_objects os s)) →
              returns (add sc g) (set_objects (alter f g (objects s)) s)
                (λ _ s', returns (updObject r (set_visible false)) s' Q'))
    as Hcore.
  { intros f Hfpar Hfpos Q' HQ'.
    apply (returns_add _ _ sc g (f go)); state_simpl.
    - exact Hne.
    - now rewrite list_lookup_alter_eq, Hgo.
    - now apply is_Some_lookup_alter.
    - intros q Hq. apply is_Some_lookup_alter. rewrite Hfpar in Hq.
      exact (Hpar go q Hgo Hq).
    - intros os Hown Hp Hch.
      destruct (lookup_own_properties _ os g (f go) Hown) as (o' & Ho' & Hoo);
        [now rewrite list_lookup_alter_eq, Hgo|].
      destruct (lookup_own_properties _ os r
                  (if decide (g = r) then f ro else ro) Hown)
        as (ro' & Hro' & _).
      { destruct (decide (g = r)) as [->|Hgr].
        - now rewrite list_lookup_alter_eq, Hro.
        - now rewrite list_lookup_alter_ne, Hro by exact Hgr. }
      apply returns_updObject; state_simpl; [rewrite Hro'; eauto|].
      destruct (placed_store os g sc r (setFromMatrixPosition (matrix ro))
                  (scale (f go)) s) as [H1 H2]; try assumption.
      + exists o'. split; [exact Ho'|].
        rewrite Ho' in Hp. injection Hp as Hp.
        apply own_properties_placed in Hoo as [Hpos Hs].
        now rewrite Hpos, Hs, Hfpos.
      + rewrite Hro'; eauto.
      + now apply HQ'. }
  destruct v; cbn [program p_onSelect arOnly part000 hybrid];
    unfold ArOnly.onSelect, Part000.onSelect, Hybrid.onSelect.
  all: do 6 ret_step place_side.
  all: rewrite Hvis.
  all: do 6 ret_step place_side.
  - do 5 ret_step place_side.
    apply (Hcore (set_position (setFromMatrixPosition (matrix ro))));
      [intros []; reflexivity|intros []; reflexivity|].
    intros os H1 H2. exact (returns_ret_inv _ _ _ (HQ os H1 H2)).
  - do 2 ret_step place_side.
    rewrite list_alter_alter_eq.
    do 5 ret_step place_side.
    apply (Hcore (set_scale (Vector3.mk 0.3 0.3 0.3)
                  ∘ set_position (setFromMatrixPosition (matrix ro))));
      [intros []; reflexivity|intros []; reflexivity|].
    intros os H1 H2. exact (returns_ret_inv _ _ _ (HQ os H1 H2)).
  - do 2 ret_step place_side.
    rewrite list_alter_alter_eq.
    do 5 ret_step place_side.
    apply (returns_impl _ _ _
             (λ _ s', returns (updObject r (set_visible false)) s'
                        (λ _ s'', returns
                           (removeEventListener EvtSelect CbOnSelect) s'' Q)));
      [|intros [] s' Hs'; apply returns_bind; exact Hs'].
    apply (Hcore (set_scale (Vector3.mk 0.3 0.3 0.3)
                  ∘ set_position (setFromMatrixPosition (matrix ro))));
      [intros []; reflexivity|intros []; reflexivity|].
    intros os H1 H2. exact (HQ os H1 H2).
Qed.


(** X8. A select event on a session that carries the script's ['select']
    listener, with the reticle in view: the group takes the position of
    the reticle's matrix, the scale 0.3 on every axis (its old scale in
    the first revision, which sets none), the scene for parent and a place
    among the scene's children; the reticle is hidden; and the session is
    left without a ['select'] listener. *)
Theorem select_places_group (v : Revision) (s : App) (rid : nat)
    (rr : WebGLRenderer) (x : XRSession) (r g sc : nat) (ro go : Object3D) :
  renderer s = Some rid → renderers s !! rid = Some rr →
  xrSession rr = Some x →
  tidy_session x → mkListener EvtSelect CbOnSelect true ∈ listeners x →
  reticle s = Some r → objects s !! r = Some ro → visible ro = true →
  solarSystemGroup s = Some g → objects s !! g = Some go →
  scene s = Some sc → is_Some (objects s !! sc) → sc ≠ g →
  parent_in_store s g →
  let s' := step (program v) s Select in
  placement s'
  = (Some (setFromMatrixPosition (matrix ro), placed_scale v (scale go),
           Some sc), true) ∧
  reticle_visible s' = false ∧
  ∃ x', current_session s' = Some x' ∧
        filter (λ l, l_type l = EvtSelect) (listeners x') = [].
Proof.
  intros Hr Hl Hx Ht Hin Hret Hro Hvis Hg Hgo Hsc Hsco Hne Hpar.
  cbv zeta. unfold step. cbn [handle].
  apply (returns_exec (dispatchEvent (program v) EvtSelect) s
           (λ s', placement s' = _ ∧ reticle_visible s' = false ∧
                  ∃ x', current_session s' = Some x' ∧
                        filter (λ l, l_type l = EvtSelect) (listeners x')
                        = [])).
  unfold dispatchEvent.
  apply returns_bind, (returns_getSession s rid rr _ Hr Hl).
  rewrite Hx, (select_filter_tidy x Ht Hin).
  unfold forEach. cbn [forEach_from].
  apply returns_bind. unfold invoke.
  apply returns_bind, (returns_getSession s rid rr _ Hr Hl).
  rewrite Hx.
  destruct (decide (mkListener EvtSelect CbOnSelect true ∈ listeners x));
    [|contradiction].
  cbn [l_once l_callback call].
  apply returns_bind, (returns_setSession s rid _ _ Hr); [rewrite Hl; eauto|].
  apply returns_try_, returns_ret.
  set (s1 := set_renderers _ s).
  assert (renderers s1 !! rid
          = Some (mkRenderer (animationLoop rr) (xrEnabled rr)
                    (Some (mkXRSession
                       (filter (λ l, l ≠ mkListener EvtSelect CbOnSelect true)
                          (listeners x)))))) as Hl1.
  { subst s1. state_simpl. now rewrite list_lookup_alter_eq, Hl. }
  apply (returns_exec (p_onSelect (program v)) s1).
  apply (onSelect_places v s1 r g sc ro go); try assumption.
  intros os H1 H2.
  assert (∀ s2, renderer s2 = Some rid → renderers s2 !! rid
                = Some (mkRenderer (animationLoop rr) (xrEnabled rr)
                    (Some (mkXRSession
                       (filter (λ l, l ≠ mkListener EvtSelect CbOnSelect true)
                          (listeners x))))) →
                ∃ x', current_session s2 = Some x' ∧
                  filter (λ l, l_type l = EvtSelect) (listeners x') = [])
    as Hdone.
  { intros s2 Hr2 Hl2. eexists. unfold current_session.
    rewrite Hr2. cbn [mbind option_bind]. rewrite Hl2. cbn [mbind option_bind xrSession].
    split; [reflexivity|]. apply (select_filter_removed x Ht). }
  destruct v.
  - apply returns_ret. split; [exact H1|]. split; [exact H2|].
    now apply Hdone.
  - apply returns_ret. split; [exact H1|]. split; [exact H2|].
    now apply Hdone.
  - assert (renderer (set_objects os s1) = Some rid) as Hr2 by exact Hr.
    assert (renderers (set_objects os s1) !! rid = renderers s1 !! rid)
      as Hl2 by reflexivity.
    rewrite Hl1 in Hl2.
    revert H1 H2 Hr2 Hl2. generalize (set_objects os s1). clear s1 Hl1.
    intros s2 H1 H2 Hr2 Hl2.
    unfold removeEventListener.
    apply returns_bind, (returns_getSession s2 rid _ _ Hr2 Hl2).
    apply returns_bind. eapply returns_deref; [reflexivity|].
    apply (returns_setSession s2 rid _ _ Hr2); [rewrite Hl2; eauto|].
    split; [exact H1|]. split; [exact H2|].
    eexists. unfold current_session. state_simpl.
    rewrite Hr2.
    cbn [mbind option_bind]. rewrite list_lookup_alter_eq, Hl2.
    cbn [fmap option_fmap option_map mbind option_bind xrSession listeners].
    split; [reflexivity|].
    apply nil_length_inv.
    pose proof (length_filter_filter
                  (λ l, same_listener EvtSelect CbOnSelect l = false)
                  (λ l, l_type l = EvtSelect)
                  (filter (λ l, l ≠ mkListener EvtSelect CbOnSelect true)
                     (listeners x))) as Hle.
    rewrite (select_filter_removed x Ht) in Hle. cbn [length] in Hle.
    cbn [listeners]. lia.
Qed.


Lemma select_places_group_witness :
  let s := tracking_page part000 in
  let s' := step part000 s Select in
  placement s
  = (Some (Vector3.mk 0 0 0, Vector3.mk 1 1 1, None), false) ∧
  placement s'
  = (Some (Vector3.mk 1 2 3, Vector3.mk 0.3 0.3 0.3, Some 21), true) ∧
  reticle_visible s' = false ∧
  ∃ x', current_session s' = Some x' ∧
        filter (λ l, l_type l = EvtSelect) (listeners x') = [].
Proof.
  intros s s'. split; [vm_compute; reflexivity|].
  refine (select_places_group RPart000 s 1
            (mkRenderer (Some LoopRenderAR) true
               (Some (mkXRSession
                        [end_listener; mkListener EvtSelect CbOnSelect true])))
            (mkXRSession [end_listener; mkListener EvtSelect CbOnSelect true])
            42 23 21
            (default (new_object KMesh) (objects s !! 42))
            (default (new_object KMesh) (objects s !! 23))
            eq_refl _ eq_refl _ _ eq_refl _ _ eq_refl _ eq_refl _ _ _).
  - vm_compute. reflexivity.
  - split.
    + constructor; [right; reflexivity|].
      constructor; [left; reflexivity|constructor].
    + vm_compute. lia.
  - apply list_elem_of_In. vm_compute. tauto.
  - vm_compute. reflexivity.
  - vm_compute. reflexivity.
  - vm_compute. reflexivity.
  - vm_compute. eauto.
  - lia.
  - intros o q Ho Hq. vm_compute in Ho. injection Ho as <-. discriminate.
Defined.


(** ** Running the builders *)

(** The store beyond a base that stays as it was. *)
Lemma lookup_base {A} (base l : list A) k :
  (base ++ l) !! (length base + k) = l !! k.
Proof. rewrite lookup_app_r by lia. f_equal. lia. Qed.

Lemma lookup_base0 {A} (base l : list A) a :
  l !! 0 = Some a → (base ++ l) !! length base = Some a.
Proof.
  intros H. rewrite <- (Nat.add_0_r (length base)). now rewrite lookup_base.
Qed.

Lemma alter_snoc {A} (f : A → A) (l : list A) a n :
  length l = n → alter f n (l ++ [a]) = l ++ [f a].
Proof.
  intros <-. rewrite <- (Nat.add_0_r (length l)) at 1.
  now rewrite alter_app_r.
Qed.

Ltac object_simpl :=
  cbn [kind position rotation scale matrix matrixAutoUpdate visible parent
       children userData new_object
       set_position set_rotation set_scale set_matrix set_matrixAutoUpdate
       set_visible set_parent set_children set_userData set_position_x
       set_rotation_y
       Vector3.x Vector3.y Vector3.z c_name c_distance c_speed].

Ltac store_norm :=
  repeat first
    [ rewrite alter_app_r
    | rewrite lookup_base
    | rewrite <- app_assoc
    | rewrite length_app
    | rewrite length_alter ];
  cbn [length app alter list_alter lookup list_lookup Nat.add];
  object_simpl.

Ltac norm_state :=
  lazymatch goal with
  | |- returns ?m ?st ?Q =>
      let st' := eval cbv beta iota delta
        [camera scene renderer controls reticle solarSystemGroup
         hitTestSource hitTestSourceRequested planets objects renderers
         container containerVisible overlayHidden pendingViewerSpace
         pendingHitTestSource log
         set_camera set_scene set_renderer set_controls set_reticle
         set_solarSystemGroup set_hitTestSource set_hitTestSourceRequested
         set_planets set_objects set_renderers set_container
         set_containerVisible set_overlayHidden set_pendingViewerSpace
         set_pendingHitTestSource set_log] in st in
      change (returns m st' Q)
  | |- ?post ?a ?st =>
      let st' := eval cbv beta iota delta
        [camera scene renderer controls reticle solarSystemGroup
         hitTestSource hitTestSourceRequested planets objects renderers
         container containerVisible overlayHidden pendingViewerSpace
         pendingHitTestSource log
         set_camera set_scene set_renderer set_controls set_reticle
         set_solarSystemGroup set_hitTestSource set_hitTestSourceRequested
         set_planets set_objects set_renderers set_container
         set_containerVisible set_overlayHidden set_pendingViewerSpace
         set_pendingHitTestSource set_log] in st in
      change (post a st')
  end.

Ltac sym_side :=
  state_simpl; store_norm;
  first
    [ reflexivity
    | assumption
    | lia
    | eexists; reflexivity
    | apply lookup_lt_is_Some;
      repeat first [rewrite length_app | rewrite length_alter];
      cbn [length]; lia ].

Ltac eval_cond :=
  lazymatch goal with
  | |- returns (if ?c then _ else _) _ _ =>
      let b := eval vm_compute in c in
      change c with b; cbv iota
  end.

Lemma dispose_controls_run s (Q : unit → App → Prop) :
  Q () (set_controls
          ((λ c, mkControls (enableDamping c) (dampingFactor c)
                   (screenSpacePanning c) (minDistance c) (maxDistance c)
                   true) <$> controls s)
          (set_log (log s ++ match controls s with
                             | Some _ => [ControlsDispose]
                             | None => []
                             end) s)) →
  returns (match controls s with
           | Some c =>
               emit ControlsDispose;;
               modify (set_controls (Some
                 (mkControls (enableDamping c) (dampingFactor c)
                    (screenSpacePanning c) (minDistance c) (maxDistance c)
                    true)))
           | None => mret ()
           end) s Q.
Proof.
  destruct s as [? ? ? [c|] ? ? ? ? ? ? ? ? ? ? ? ? ?]; cbn; intros H.
  - apply returns_bind, returns_modify, returns_modify. exact H.
  - apply returns_ret. rewrite app_nil_r in H. exact H.
Qed.

Ltac sym_step :=
  lazymatch goal with
  | |- returns (mret _) _ _ => apply returns_ret
  | |- returns (mbind _ _) _ _ => apply returns_bind
  | |- returns (gets _) _ _ => apply returns_gets
  | |- returns (modify _) _ _ => apply returns_modify
  | |- returns (emit _) _ _ => apply returns_modify
  | |- returns (appendChild _) _ _ => apply returns_modify
  | |- returns (deref _) _ _ => eapply returns_deref; [solve [sym_side]|]
  | |- returns (updObject _ _) _ _ =>
      apply returns_updObject; [solve [sym_side]|]
  | |- returns (alloc _) _ _ => apply returns_alloc
  | |- returns newRenderer _ _ => apply returns_newRenderer
  | |- returns (add _ _) _ _ =>
      eapply returns_add_new;
      [solve [sym_side]|solve [sym_side]|solve [sym_side]|solve [sym_side]|]
  | |- returns (setAnimationLoop _ _) _ _ =>
      apply returns_updRenderer; [solve [sym_side]|]
  | |- returns (enableXR _) _ _ =>
      apply returns_updRenderer; [solve [sym_side]|]
  | |- returns (removeChild _) _ _ =>
      apply returns_removeChild; [solve [sym_side]|]
  | |- returns (match controls _ with Some _ => _ | None => _ end) ?st _ =>
      apply (dispose_controls_run st)
  | |- returns (if _ then _ else _) _ _ => eval_cond
  | |- returns (forEach _ _) _ _ => unfold forEach; cbn [forEach_from]
  | |- returns createReticle _ _ => unfold createReticle
  | |- returns (Part000.createBody _ _) _ _ => unfold Part000.createBody
  | |- returns (Hybrid.createBody _ _) _ _ =>
      unfold Hybrid.createBody, Part000.createBody
  | |- returns (ArOnly.createBody _ _) _ _ => unfold ArOnly.createBody
  | |- returns (Part000.createSolarSystem _) _ _ =>
      unfold Part000.createSolarSystem, Part000.planetConfig
  | |- returns (Hybrid.createSolarSystem _ _) _ _ =>
      unfold Hybrid.createSolarSystem, Hybrid.planetConfig,
        Part000.planetConfig
  | |- returns (ArOnly.createSolarSystem _) _ _ =>
      unfold ArOnly.createSolarSystem, ArOnly.planetConfig
  end;
  cbv beta; norm_state; store_norm.


Ltac sym_start s :=
  let cam := fresh "cam" in
  let scn := fresh "scn" in
  let rnd := fresh "rnd" in
  let ctl := fresh "ctl" in
  let ret := fresh "ret" in
  let grp := fresh "grp" in
  let hts := fresh "hts" in
  let htr := fresh "htr" in
  let pls := fresh "pls" in
  let objs := fresh "objs" in
  let rds := fresh "rds" in
  let cnt := fresh "cnt" in
  let cv := fresh "cv" in
  let oh := fresh "oh" in
  let pv := fresh "pv" in
  let ph := fresh "ph" in
  let lg := fresh "lg" in
  destruct s as [cam scn rnd ctl ret grp hts htr pls objs rds cnt cv oh pv ph lg];
  rewrite <- (app_nil_r objs);
  lazymatch goal with
  | |- returns _ _ ?Q =>
      let post := fresh "post" in set (post := Q)
  end.

(** The whole of a statement; what is left is the condition on the state
    it ends in. *)
Ltac sym_run :=
  repeat sym_step;
  lazymatch goal with
  | post := _ |- _ => subst post
  end;
  cbv beta;
  repeat rewrite alter_snoc by (rewrite ?length_alter; reflexivity);
  cbn [camera scene renderer controls reticle solarSystemGroup hitTestSource
       hitTestSourceRequested planets objects renderers container
       containerVisible overlayHidden pendingViewerSpace
       pendingHitTestSource log
       set_camera set_scene set_renderer set_controls set_reticle
       set_solarSystemGroup set_hitTestSource set_hitTestSourceRequested
       set_planets set_objects set_renderers set_container
       set_containerVisible set_overlayHidden set_pendingViewerSpace
       set_pendingHitTestSource set_log];
  rewrite ?app_nil_r, ?Nat.add_0_r.

Ltac planet_facts :=
  split; [reflexivity|];
  let i := fresh "i" in
  let config := fresh "config" in
  let Hi := fresh "Hi" in
  intros i config Hi;
  do 9 (try destruct i as [|i]);
  try discriminate Hi;
  injection Hi as <-;
  (eexists; split; [reflexivity|]);
  unfold planet_at, body_of;
  eexists _, _, _;
  rewrite !lookup_base;
  cbn [lookup list_lookup];
  repeat split; reflexivity.

Ltac sun_facts k :=
  let config := fresh "config" in
  let Hi := fresh "Hi" in
  intros config Hi;
  injection Hi as <-;
  unfold body_of;
  eexists (_ + k), _;
  rewrite !lookup_base;
  cbn [lookup list_lookup];
  repeat split; reflexivity.

(** The mesh of the i-th entry is the [k i]-th object made. *)
Ltac body_facts k :=
  let i := fresh "i" in
  let config := fresh "config" in
  let Hi := fresh "Hi" in
  intros i config Hi;
  exists (k i);
  do 10 (try destruct i as [|i]);
  try discriminate Hi;
  injection Hi as <-;
  (eexists; split; [reflexivity|]);
  unfold body_of; repeat split; reflexivity.

Ltac group_facts :=
  eexists;
  split; [apply lookup_base0; reflexivity|];
  split; [reflexivity|];
  split; [reflexivity|];
  repeat constructor;
  cbn [children set_children];
  rewrite !elem_of_cons; tauto.

Ltac place_facts :=
  unfold placement, attached, reticle_state, lookup_var;
  cbn [solarSystemGroup scene reticle objects set_objects
       set_solarSystemGroup set_scene set_reticle set_planets set_renderers
       set_camera set_container set_renderer set_controls set_log
       set_containerVisible mbind option_bind];
  rewrite ?lookup_base;
  repeat erewrite lookup_base0 by reflexivity;
  cbn [lookup list_lookup fmap option_fmap option_map];
  object_simpl;
  first
    [ reflexivity
    | rewrite bool_decide_eq_false_2
        by (rewrite ?elem_of_app, !elem_of_cons, elem_of_nil; lia);
      reflexivity
    | rewrite bool_decide_eq_true_2
        by (rewrite ?elem_of_app, !elem_of_cons, elem_of_nil; lia);
      reflexivity ].
(** The scene builder on any state: it completes, leaves what the store
    held as it was, and puts the sun and every planet, under a pivot of
    its own, in a new group that has no parent yet. *)
Lemma later_builder_run (v : Revision) random s :
  v ≠ RArOnly →
  returns (Part000.createSolarSystem random) s
    (λ _ s', ∃ l pivots,
       s' = set_planets (planets s ++ pivots)
              (set_solarSystemGroup (Some (length (objects s)))
                 (set_objects (objects s ++ l) s)) ∧
       (∃ go, (objects s ++ l) !! length (objects s) = Some go ∧
              kind go = KGroup ∧ parent go = None ∧
              Forall (λ p, p ∈ children go) pivots) ∧
       sun_built v random (objects s ++ l) (length (objects s)) ∧
       planets_built v random (objects s ++ l) (length (objects s)) pivots ∧
       (∀ i config,
          planetConfig_of v !! i = Some config →
          ∃ k o, l !! k = Some o ∧ body_of config (random i) o)).
Proof.
  intros Hv. sym_start s. sym_run.
  eexists _, _. split; [reflexivity|].
  split; [group_facts|].
  destruct v; [contradiction| |];
    (split; [unfold sun_built|split; [unfold planets_built|]];
     cbn [planetConfig_of];
     unfold Hybrid.planetConfig, Part000.planetConfig;
     [sun_facts 2|planet_facts
     |body_facts (λ i, match i with O => 2 | S j => 2 * j + 3 end)]).
Qed.

Lemma first_builder_run random s :
  returns (ArOnly.createSolarSystem random) s
    (λ _ s', ∃ l pivots,
       s' = set_planets (planets s ++ pivots)
              (set_solarSystemGroup (Some (length (objects s)))
                 (set_objects (objects s ++ l) s)) ∧
       (∃ go, (objects s ++ l) !! length (objects s) = Some go ∧
              kind go = KGroup ∧ parent go = None ∧
              Forall (λ p, p ∈ children go) pivots) ∧
       sun_built RArOnly random (objects s ++ l) (length (objects s)) ∧
       planets_built RArOnly random (objects s ++ l) (length (objects s))
         pivots ∧
       (∀ i config,
          planetConfig_of RArOnly !! i = Some config →
          ∃ k o, l !! k = Some o ∧ body_of config (random i) o)).
Proof.
  sym_start s. sym_run.
  eexists _, _. split; [reflexivity|].
  split; [group_facts|].
  split; [unfold sun_built|split; [unfold planets_built|]];
    cbn [planetConfig_of]; unfold ArOnly.planetConfig;
    [sun_facts 1|planet_facts
    |body_facts (λ i, match i with O => 1 | S j => 2 * j + 2 end)].
Qed.

Lemma builder_run (v : Revision) (isAR : bool) random s :
  returns (builder v isAR random) s
    (λ _ s', ∃ l pivots,
       s' = set_planets (planets s ++ pivots)
              (set_solarSystemGroup (Some (length (objects s)))
                 (set_objects (objects s ++ l) s)) ∧
       (∃ go, (objects s ++ l) !! length (objects s) = Some go ∧
              kind go = KGroup ∧ parent go = None ∧
              Forall (λ p, p ∈ children go) pivots) ∧
       sun_built v random (objects s ++ l) (length (objects s)) ∧
       planets_built v random (objects s ++ l) (length (objects s)) pivots ∧
       (∀ i config,
          planetConfig_of v !! i = Some config →
          ∃ k o, l !! k = Some o ∧ body_of config (random i) o)).
Proof.
  destruct v.
  - apply first_builder_run.
  - now apply later_builder_run.
  - now apply (later_builder_run RHybrid).
Qed.


(** X1. For every value of [Math.random()] in [[0, 1)], the scene builder
    of every revision makes, for every entry of its configuration, a mesh
    at an address that was free before, whose [userData] carries the
    entry's name and [angle = Math.random() * Math.PI * 2] for the number
    drawn for that entry, and this angle lies in [[0, Math.PI * 2)]; no
    object at a new address carries an angle outside that range. *)
Theorem builder_phases_in_range (v : Revision) (isAR : bool)
    (random : nat → float) (s : App) :
  (∀ i, unit_interval (random i)) →
  ∃ s',
    builder v isAR random s = (Normal (), s') ∧
    (∀ i config,
       planetConfig_of v !! i = Some config →
       ∃ id o ud,
         length (objects s) ≤ id ∧ objects s' !! id = Some o ∧
         kind o = KMesh ∧ userData o = Some ud ∧
         name ud = c_name config ∧
         angle ud = (random i * Math_PI * 2)%float ∧
         phase_range (angle ud)) ∧
    phases_from (length (objects s)) s'.
Proof.
  intros Hrandom.
  pose proof (builder_keeps_phases v isAR random s Hrandom) as Hall.
  destruct (builder_run v isAR random s)
    as ([] & s' & Hrun & l & pivots & -> & _ & _ & _ & Hbodies).
  unfold exec in Hall. rewrite Hrun in Hall. cbn [snd] in Hall.
  eexists. split; [exact Hrun|]. split; [|exact Hall].
  intros i config Hi.
  destruct (Hbodies i config Hi) as (k & o & Hk & Hkind & _ & _ & _ & Hud).
  exists (length (objects s) + k), o. eexists.
  split; [lia|].
  split; [cbn [objects set_planets set_solarSystemGroup set_objects];
          rewrite lookup_base; exact Hk|].
  split; [exact Hkind|]. split; [exact Hud|].
  split; [reflexivity|]. split; [reflexivity|].
  apply initial_angle_range, Hrandom.
Qed.

Lemma builder_phases_in_range_witness :
  (∀ i : nat, unit_interval ((λ _, 0.75%float) i)) ∧
  ∃ s',
    builder RPart000 false (λ _, 0.75%float) initial = (Normal (), s') ∧
    (∀ i config,
       planetConfig_of RPart000 !! i = Some config →
       ∃ id o ud,
         length (objects initial) ≤ id ∧ objects s' !! id = Some o ∧
         kind o = KMesh ∧ userData o = Some ud ∧
         name ud = c_name config ∧
         angle ud = (0.75 * Math_PI * 2)%float ∧
         phase_range (angle ud)) ∧
    phases_from (length (objects initial)) s'.
Proof.
  assert (∀ i : nat, unit_interval ((λ _, 0.75%float) i)) as H
    by (intros _; split; reflexivity).
  split; [exact H|].
  exact (builder_phases_in_range RPart000 false (λ _, 0.75%float) initial H).
Defined.

(** ** Starting the desktop view and the AR view *)

Lemma Part000_init3D_run random s :
  returns (Part000.init3D random) s
    (λ _ s', ∃ l,
       let n := length (objects s) in
       let m := length (renderers s) in
       let pivots := [n + 6; n + 8; n + 10; n + 12; n + 14; n + 16; n + 18;
                      n + 20] in
       s' = set_renderers
              (renderers s ++ [mkRenderer (Some LoopAnimate) false None])
            (set_planets (planets s ++ pivots)
            (set_solarSystemGroup (Some (n + 2))
            (set_controls (Some (mkControls true 0.05 false 2 30 false))
            (set_objects (objects s ++ l)
            (set_camera (Some (mkCamera 70 0.1 1000 (Vector3.mk 0 5 10)))
            (set_container
               (filter (λ e, e ≠ Canvas m) (container s) ++ [Canvas m])
            (set_renderer (Some m)
            (set_scene (Some n)
            (set_containerVisible true s))))))))) ∧
       length l = 21 ∧
       placement s' = (Some (Vector3.mk 0 0 0, Vector3.mk 1 1 1, None), false) ∧
       sun_built RPart000 random (objects s ++ l) (n + 2) ∧
       planets_built RPart000 random (objects s ++ l) (n + 2) pivots).
Proof.
  unfold Part000.init3D. sym_start s. sym_run.
  eexists. cbv zeta. split; [reflexivity|].
  split; [reflexivity|].
  split; [place_facts|].
  split; [unfold sun_built|unfold planets_built];
    cbn [planetConfig_of];
    unfold Hybrid.planetConfig, Part000.planetConfig;
    [sun_facts 4|planet_facts].
Qed.

Lemma Hybrid_init3D_run random s :
  returns (Hybrid.init3D random) s
    (λ _ s', ∃ l,
       let n := length (objects s) in
       let m := length (renderers s) in
       let pivots := [n + 6; n + 8; n + 10; n + 12; n + 14; n + 16; n + 18;
                      n + 20] in
       s' = set_renderers
              (renderers s ++ [mkRenderer (Some LoopAnimate) false None])
            (set_planets (planets s ++ pivots)
            (set_solarSystemGroup (Some (n + 2))
            (set_controls (Some (mkControls true 0.05 false 2 30 false))
            (set_objects (objects s ++ l)
            (set_camera (Some (mkCamera 70 0.1 1000 (Vector3.mk 0 5 10)))
            (set_container
               (filter (λ e, e ≠ Canvas m) (container s) ++ [Canvas m])
            (set_renderer (Some m)
            (set_scene (Some n)
            (set_containerVisible true s))))))))) ∧
       length l = 21 ∧
       placement s' = (Some (Vector3.mk 0 0 0, Vector3.mk 1 1 1, Some n), true) ∧
       sun_built RHybrid random (objects s ++ l) (n + 2) ∧
       planets_built RHybrid random (objects s ++ l) (n + 2) pivots).
Proof.
  unfold Hybrid.init3D. sym_start s. sym_run.
  eexists. cbv zeta. split; [reflexivity|].
  split; [reflexivity|].
  split; [place_facts|].
  split; [unfold sun_built|unfold planets_built];
    cbn [planetConfig_of];
    unfold Hybrid.planetConfig, Part000.planetConfig;
    [sun_facts 4|planet_facts].
Qed.

Lemma Part000_initAR_run random s rid :
  renderer s = Some rid → is_Some (renderers s !! rid) →
  Canvas rid ∈ container s →
  returns (Part000.initAR random) s
    (λ _ s', ∃ l,
       let n := length (objects s) in
       let m := length (renderers s) in
       let pivots := [n + 6; n + 8; n + 10; n + 12; n + 14; n + 16; n + 18;
                      n + 20] in
       s' = set_renderers
              (alter clear_loop rid (renderers s)
               ++ [mkRenderer (Some LoopRenderAR) true None])
            (set_reticle (Some (n + 21))
            (set_planets (planets s ++ pivots)
            (set_solarSystemGroup (Some (n + 2))
            (set_objects (objects s ++ l)
            (set_camera (Some (mkCamera 70 0.01 20 (Vector3.mk 0 0 0)))
            (set_container
               (filter (λ e, e ≠ ARButtonElement m)
                  (filter (λ e, e ≠ Canvas m)
                     (filter (λ e, e ≠ Canvas rid) (container s))
                   ++ [Canvas m])
                ++ [ARButtonElement m])
            (set_renderer (Some m)
            (set_scene (Some n)
            (set_controls (dispose <$> controls s)
            (set_log (log s ++ match controls s with
                               | Some _ => [ControlsDispose]
                               | None => []
                               end) s)))))))))) ∧
       length l = 22 ∧
       placement s'
       = (Some (Vector3.mk 0 0 0, Vector3.mk 1 1 1, None), false) ∧
       reticle_state s' = Some (false, identity4) ∧
       sun_built RPart000 random (objects s ++ l) (n + 2) ∧
       planets_built RPart000 random (objects s ++ l) (n + 2) pivots).
Proof.
  intros Hr Hl Hc. unfold Part000.initAR.
  sym_start s. cbn in Hr, Hl, Hc. subst rnd. sym_run.
  eexists. cbv zeta. split; [reflexivity|].
  split; [reflexivity|].
  split; [place_facts|].
  split; [place_facts|].
  split; [unfold sun_built|unfold planets_built];
    cbn [planetConfig_of];
    unfold Hybrid.planetConfig, Part000.planetConfig;
    [sun_facts 4|planet_facts].
Qed.

Lemma Hybrid_initAR_run random s rid :
  renderer s = Some rid → is_Some (renderers s !! rid) →
  Canvas rid ∈ container s →
  returns (Hybrid.initAR random) s
    (λ _ s', ∃ l,
       let n := length (objects s) in
       let m := length (renderers s) in
       let pivots := [n + 6; n + 8; n + 10; n + 12; n + 14; n + 16; n + 18;
                      n + 20] in
       s' = set_renderers
              (alter clear_loop rid (renderers s)
               ++ [mkRenderer (Some LoopRenderAR) true None])
            (set_reticle (Some (n + 21))
            (set_planets ([] ++ pivots)
            (set_solarSystemGroup (Some (n + 2))
            (set_objects (objects s ++ l)
            (set_camera (Some (mkCamera 70 0.01 20 (Vector3.mk 0 0 0)))
            (set_container
               (filter (λ e, e ≠ ARButtonElement m)
                  (filter (λ e, e ≠ Canvas m)
                     (filter (λ e, e ≠ Canvas rid) (container s))
                   ++ [Canvas m])
                ++ [ARButtonElement m])
            (set_renderer (Some m)
            (set_scene (Some n)
            (set_controls (dispose <$> controls s)
            (set_log (log s ++ match controls s with
                               | Some _ => [ControlsDispose]
                               | None => []
                               end) s)))))))))) ∧
       length l = 22 ∧
       placement s'
       = (Some (Vector3.mk 0 0 0, Vector3.mk 1 1 1, None), false) ∧
       reticle_state s' = Some (false, identity4) ∧
       sun_built RHybrid random (objects s ++ l) (n + 2) ∧
       planets_built RHybrid random (objects s ++ l) (n + 2) pivots).
Proof.
  intros Hr Hl Hc. unfold Hybrid.initAR.
  sym_start s. cbn in Hr, Hl, Hc. subst rnd. sym_run.
  eexists. cbv zeta. split; [reflexivity|].
  split; [reflexivity|].
  split; [place_facts|].
  split; [place_facts|].
  split; [unfold sun_built|unfold planets_built];
    cbn [planetConfig_of];
    unfold Hybrid.planetConfig, Part000.planetConfig;
    [sun_facts 4|planet_facts].
Qed.

Lemma ArOnly_initAR_run random s :
  returns (ArOnly.initAR random) s
    (λ _ s', ∃ l,
       let n := length (objects s) in
       let m := length (renderers s) in
       let pivots := [n + 3; n + 5; n + 7; n + 9] in
       s' = set_renderers
              (renderers s ++ [mkRenderer (Some LoopRender) true None])
            (set_reticle (Some (n + 13))
            (set_planets (planets s ++ pivots)
            (set_solarSystemGroup (Some n)
            (set_objects (objects s ++ l)
            (set_camera (Some (mkCamera 70 0.01 20 (Vector3.mk 0 0 0)))
            (set_container
               (filter (λ e, e ≠ ARButtonElement m)
                  (filter (λ e, e ≠ Canvas m) (container s) ++ [Canvas m])
                ++ [ARButtonElement m])
            (set_renderer (Some m)
            (set_scene (Some (n + 11)) s)))))))) ∧
       length l = 14 ∧
       placement s'
       = (Some (Vector3.mk 0 0 0, Vector3.mk 1 1 1, None), false) ∧
       reticle_state s' = Some (false, identity4) ∧
       sun_built RArOnly random (objects s ++ l) n ∧
       planets_built RArOnly random (objects s ++ l) n pivots).
Proof.
  unfold ArOnly.initAR. sym_start s. sym_run.
  eexists. cbv zeta. split; [reflexivity|].
  split; [reflexivity|].
  split; [place_facts|].
  split; [place_facts|].
  split; [unfold sun_built|unfold planets_built];
    cbn [planetConfig_of]; unfold ArOnly.planetConfig;
    [sun_facts 1|planet_facts].
Qed.

(** ** What starting a view does to the page *)

Lemma filter_all {A} (P : A → Prop) `{∀ a, Decision (P a)} (l : list A) :
  (∀ a, a ∈ l → P a) → filter P l = l.
Proof.
  induction l as [|a l IH]; intros Hl; [reflexivity|].
  rewrite filter_cons_True by (apply Hl; left).
  f_equal. apply IH. intros b Hb. apply Hl. now right.
Qed.

Lemma filter_fresh s (el : Element) :
  dom_in_store s → element_renderer el = length (renderers s) →
  filter (λ e, e ≠ el) (container s) = container s.
Proof.
  intros Hdom Hel. apply filter_all. intros e He ->.
  specialize (Hdom _ He). lia.
Qed.

Lemma canvases_snoc_canvas l rid :
  filter (λ e, is_canvas e = true) (l ++ [Canvas rid])
  = filter (λ e, is_canvas e = true) l ++ [Canvas rid].
Proof. now rewrite filter_app. Qed.

Lemma canvases_snoc_button l rid :
  filter (λ e, is_canvas e = true) (l ++ [ARButtonElement rid])
  = filter (λ e, is_canvas e = true) l.
Proof. rewrite filter_app. cbn. apply app_nil_r. Qed.

Lemma loops_snoc l cb e x :
  filter (λ r, is_Some (animationLoop r)) (l ++ [mkRenderer (Some cb) e x])
  = filter (λ r, is_Some (animationLoop r)) l ++ [mkRenderer (Some cb) e x].
Proof.
  rewrite filter_app. reflexivity.
Qed.

(** What [init3D] of the later revisions leaves of the page. *)
Lemma init3D_page (v : Revision) random s :
  v ≠ RArOnly → dom_in_store s →
  ∃ s',
    p_load (program v) random s = (Normal (), s') ∧
    container s' = container s ++ [Canvas (length (renderers s))] ∧
    renderers s'
    = renderers s ++ [mkRenderer (Some LoopAnimate) false None] ∧
    renderer s' = Some (length (renderers s)) ∧
    containerVisible s' = true ∧
    controls s' = Some (mkControls true 0.05 false 2 30 false) ∧
    overlayHidden s' = overlayHidden s ∧
    log s' = log s.
Proof.
  intros Hv Hdom.
  destruct v; [contradiction| |]; cbn [program p_load part000 hybrid];
    unfold Part000.load, Hybrid.load;
    [destruct (Part000_init3D_run random s)
       as ([] & s' & Hrun & l & -> & _)
    |destruct (Hybrid_init3D_run random s)
       as ([] & s' & Hrun & l & -> & _)];
    (eexists; split; [exact Hrun|]);
    state_simpl;
    rewrite (filter_fresh s) by (exact Hdom || reflexivity);
    repeat split; reflexivity.
Qed.

Lemma filter_none {A} (P : A → Prop) `{∀ a, Decision (P a)} (l : list A) :
  (∀ a, a ∈ l → ¬ P a) → filter P l = [].
Proof.
  induction l as [|a l IH]; intros Hl; [reflexivity|].
  rewrite filter_cons_False by (apply Hl; left).
  apply IH. intros b Hb. apply Hl. now right.
Qed.

Lemma dom_in_store_grows s (c : list Element) (rs : list WebGLRenderer)
    (s' : App) :
  dom_in_store s → length (renderers s) < length (renderers s') →
  (∀ e, e ∈ container s' →
        e ∈ container s ∨ element_renderer e = length (renderers s)) →
  dom_in_store s'.
Proof.
  intros Hdom Hlen Hc e He. destruct (Hc e He) as [Hold| ->]; [|exact Hlen].
  specialize (Hdom e Hold). lia.
Qed.

(** X10. [init3D] of the later revisions (it is all the script runs at
    load time) completes on every state whose container holds only
    elements of existing renderers, and tears nothing down: the container
    keeps every element and gets the canvas of a new renderer at its end,
    every renderer keeps its animation loop and the new one runs
    [animate]; so one more canvas is attached and one more loop runs. *)
Theorem desktop_init_tears_nothing_down (v : Revision)
    (random : nat → float) (s : App) :
  v ≠ RArOnly → dom_in_store s →
  ∃ s',
    p_load (program v) random s = (Normal (), s') ∧
    container s' = container s ++ [Canvas (length (renderers s))] ∧
    renderers s'
    = renderers s ++ [mkRenderer (Some LoopAnimate) false None] ∧
    renderer s' = Some (length (renderers s)) ∧
    length (canvases s') = S (length (canvases s)) ∧
    length (running_loops s') = S (length (running_loops s)) ∧
    containerVisible s' = true ∧
    dom_in_store s'.
Proof.
  intros Hv Hdom.
  destruct (init3D_page v random s Hv Hdom)
    as (s' & Hrun & Hc & Hrs & Hr & Hvis & _).
  exists s'. split; [exact Hrun|].
  split; [exact Hc|]. split; [exact Hrs|]. split; [exact Hr|].
  split; [|split; [|split; [exact Hvis|]]].
  - unfold canvases. rewrite Hc, canvases_snoc_canvas, length_app.
    cbn [length]. lia.
  - unfold running_loops. rewrite Hrs, loops_snoc, length_app.
    cbn [length]. lia.
  - apply (dom_in_store_grows s (container s') (renderers s') s' Hdom).
    + rewrite Hrs, length_app. cbn [length]. lia.
    + intros e He. rewrite Hc in He. apply elem_of_app in He as [He|He].
      * now left.
      * apply list_elem_of_singleton in He as ->. now right.
Qed.

Lemma desktop_init_tears_nothing_down_witness :
  ∃ s',
    p_load part000 (λ _, 0.5%float)
      (step part000 initial (Load (λ _, 0.25%float)))
    = (Normal (), s') ∧
    container s' = [Canvas 0; Canvas 1] ∧
    renderers s'
    = [mkRenderer (Some LoopAnimate) false None;
       mkRenderer (Some LoopAnimate) false None] ∧
    renderer s' = Some 1 ∧
    length (canvases s') = 2 ∧
    length (running_loops s') = 2 ∧
    containerVisible s' = true ∧
    dom_in_store s'.
Proof.
  refine (desktop_init_tears_nothing_down RPart000 (λ _, 0.5%float)
            (step part000 initial (Load (λ _, 0.25%float))) _ _).
  - discriminate.
  - intros e He. apply list_elem_of_In in He. vm_compute in He.
    destruct He as [<-|[]]. vm_compute. lia.
Defined.

(** X11. The start click of the later revisions when [navigator.xr] is
    undefined: the handler completes, hides the overlay, alerts, and runs
    [init3D] on top of the view that is already there: the canvas and the
    loop of the desktop view started at load time stay, a second canvas
    is attached and a second loop runs. *)

Lemma Part000_init3D_on_page random s s0 :
  dom_in_store s →
  container s0 = container s → renderers s0 = renderers s →
  returns (Part000.init3D random) s0
    (λ _ s',
       container s' = container s ++ [Canvas (length (renderers s))] ∧
       renderers s'
       = renderers s ++ [mkRenderer (Some LoopAnimate) false None] ∧
       overlayHidden s' = overlayHidden s0 ∧
       log s' = log s0).
Proof.
  intros Hdom Hc0 Hr0.
  assert (dom_in_store s0) as Hdom0
    by (intros e He; rewrite Hc0 in He; rewrite Hr0; exact (Hdom e He)).
  eapply returns_impl; [apply Part000_init3D_run|].
  intros [] s' (l & -> & _). state_simpl.
  rewrite (filter_fresh s0) by (exact Hdom0 || reflexivity).
  rewrite Hc0, Hr0. repeat split; reflexivity.
Qed.

Lemma Hybrid_init3D_on_page random s s0 :
  dom_in_store s →
  container s0 = container s → renderers s0 = renderers s →
  returns (Hybrid.init3D random) s0
    (λ _ s',
       container s' = container s ++ [Canvas (length (renderers s))] ∧
       renderers s'
       = renderers s ++ [mkRenderer (Some LoopAnimate) false None] ∧
       overlayHidden s' = overlayHidden s0 ∧
       log s' = log s0).
Proof.
  intros Hdom Hc0 Hr0.
  assert (dom_in_store s0) as Hdom0
    by (intros e He; rewrite Hc0 in He; rewrite Hr0; exact (Hdom e He)).
  eapply returns_impl; [apply Hybrid_init3D_run|].
  intros [] s' (l & -> & _). state_simpl.
  rewrite (filter_fresh s0) by (exact Hdom0 || reflexivity).
  rewrite Hc0, Hr0. repeat split; reflexivity.
Qed.

Lemma Part000_fallback_click_run random s :
  dom_in_store s →
  returns (Part000.startClick (mkNavigator VUndefined) random) s
    (λ _ s', ∃ msg,
       Alert msg ∈ log s' ∧ overlayHidden s' = true ∧
       container s' = container s ++ [Canvas (length (renderers s))] ∧
       renderers s'
       = renderers s ++ [mkRenderer (Some LoopAnimate) false None]).
Proof.
  intros Hdom.
  unfold Part000.startClick, xr_condition, js_and.
  cbn [xr ToBoolean].
  repeat ret_step idtac. cbn [ToBoolean]. repeat ret_step idtac.
  eapply returns_impl;
    [apply (Part000_init3D_on_page random s); [exact Hdom|reflexivity..]|].
  intros [] s' (Hc & Hrs & Hov & Hlog).
  eexists. split.
  { rewrite Hlog. state_simpl. apply elem_of_app. right.
    apply list_elem_of_here. }
  split; [rewrite Hov; reflexivity|].
  split; assumption.
Qed.

Lemma Hybrid_fallback_click_run random s :
  dom_in_store s →
  returns (Hybrid.startClick (mkNavigator VUndefined) random) s
    (λ _ s', ∃ msg,
       Alert msg ∈ log s' ∧ overlayHidden s' = true ∧
       container s' = container s ++ [Canvas (length (renderers s))] ∧
       renderers s'
       = renderers s ++ [mkRenderer (Some LoopAnimate) false None]).
Proof.
  intros Hdom.
  unfold Hybrid.startClick, xr_condition, js_and.
  cbn [xr ToBoolean].
  repeat ret_step idtac. cbn [ToBoolean]. repeat ret_step idtac.
  eapply returns_impl;
    [apply (Hybrid_init3D_on_page random s); [exact Hdom|reflexivity..]|].
  intros [] s' (Hc & Hrs & Hov & Hlog).
  eexists. split.
  { rewrite Hlog. state_simpl. apply elem_of_app. right.
    apply list_elem_of_here. }
  split; [rewrite Hov; reflexivity|].
  split; assumption.
Qed.

(** X11. The start click of the later revisions when [navigator.xr] is
    undefined: the handler completes, hides the overlay, alerts, and runs
    [init3D] on top of the view that is already there: the container
    keeps every element and gets one more canvas, every renderer keeps
    its animation loop and a new one runs [animate]. On a page that has
    been loaded, two canvases are attached and two loops run. *)
Theorem fallback_click_stacks_views (v : Revision) (random : nat → float)
    (s : App) :
  v ≠ RArOnly → dom_in_store s →
  ∃ s' msg,
    p_startClick (program v) (mkNavigator VUndefined) random s
    = (Normal (), s') ∧
    Alert msg ∈ log s' ∧
    overlayHidden s' = true ∧
    container s' = container s ++ [Canvas (length (renderers s))] ∧
    renderers s'
    = renderers s ++ [mkRenderer (Some LoopAnimate) false None] ∧
    length (canvases s') = S (length (canvases s)) ∧
    length (running_loops s') = S (length (running_loops s)).
Proof.
  intros Hv Hdom.
  assert (∃ s' msg,
            p_startClick (program v) (mkNavigator VUndefined) random s
            = (Normal (), s') ∧
            Alert msg ∈ log s' ∧ overlayHidden s' = true ∧
            container s' = container s ++ [Canvas (length (renderers s))] ∧
            renderers s'
            = renderers s ++ [mkRenderer (Some LoopAnimate) false None])
    as (s' & msg & Hrun & Halert & Hov & Hc & Hrs).
  { destruct v; [contradiction| |].
    - destruct (Part000_fallback_click_run random s Hdom)
        as ([] & s' & Hrun & msg & H).
      exists s', msg. split; [exact Hrun|exact H].
    - destruct (Hybrid_fallback_click_run random s Hdom)
        as ([] & s' & Hrun & msg & H).
      exists s', msg. split; [exact Hrun|exact H]. }
  exists s', msg.
  split; [exact Hrun|]. split; [exact Halert|]. split; [exact Hov|].
  split; [exact Hc|]. split; [exact Hrs|].
  split.
  - unfold canvases. rewrite Hc, canvases_snoc_canvas, length_app.
    cbn [length]. lia.
  - unfold running_loops. rewrite Hrs, loops_snoc, length_app.
    cbn [length]. lia.
Qed.

Lemma fallback_click_stacks_views_witness :
  ∃ s' msg,
    p_startClick hybrid (mkNavigator VUndefined) (λ _, 0.5%float)
      (step hybrid initial (Load (λ _, 0.25%float)))
    = (Normal (), s') ∧
    Alert msg ∈ log s' ∧
    overlayHidden s' = true ∧
    container s' = [Canvas 0; Canvas 1] ∧
    renderers s'
    = [mkRenderer (Some LoopAnimate) false None;
       mkRenderer (Some LoopAnimate) false None] ∧
    length (canvases s') = 2 ∧
    length (running_loops s') = 2.
Proof.
  refine (fallback_click_stacks_views RHybrid (λ _, 0.5%float)
            (step hybrid initial (Load (λ _, 0.25%float))) _ _).
  - discriminate.
  - intros e He. apply list_elem_of_In in He. vm_compute in He.
    destruct He as [<-|[]]. vm_compute. lia.
Defined.

(** *** Entering the AR view *)

Lemma container_after_initAR s rid :
  dom_in_store s →
  filter (λ e, e ≠ ARButtonElement (length (renderers s)))
    (filter (λ e, e ≠ Canvas (length (renderers s)))
       (filter (λ e, e ≠ Canvas rid) (container s))
     ++ [Canvas (length (renderers s))])
  ++ [ARButtonElement (length (renderers s))]
  = filter (λ e, e ≠ Canvas rid) (container s)
    ++ [Canvas (length (renderers s));
        ARButtonElement (length (renderers s))].
Proof.
  intros Hdom.
  assert (∀ e, e ∈ filter (λ e, e ≠ Canvas rid) (container s) →
               element_renderer e < length (renderers s)) as Hold.
  { intros e He. apply list_elem_of_filter in He as [_ He].
    exact (Hdom e He). }
  rewrite (filter_all (λ e, e ≠ Canvas (length (renderers s)))
             (filter (λ e, e ≠ Canvas rid) (container s))).
  - rewrite filter_all; [now rewrite <- app_assoc|].
    intros e He ->. apply elem_of_app in He as [He|He].
    + specialize (Hold _ He). cbn in Hold. lia.
    + apply list_elem_of_singleton in He. discriminate.
  - intros e He ->. specialize (Hold _ He). cbn in Hold. lia.
Qed.

Lemma canvases_switched s rid (m : nat) :
  canvases s = [Canvas rid] →
  filter (λ e, is_canvas e = true)
    (filter (λ e, e ≠ Canvas rid) (container s)
     ++ [Canvas m; ARButtonElement m])
  = [Canvas m].
Proof.
  intros Hone. rewrite filter_app.
  rewrite (filter_none (λ e, is_canvas e = true)
             (filter (λ e, e ≠ Canvas rid) (container s))); [reflexivity|].
  intros e He Hcanvas. apply list_elem_of_filter in He as [Hne He].
  assert (e ∈ canvases s) as Hin
    by (apply list_elem_of_filter; now split).
  rewrite Hone in Hin. apply list_elem_of_singleton in Hin. contradiction.
Qed.

Lemma loops_switched (rs : list WebGLRenderer) rid r :
  (∀ rid' r', rs !! rid' = Some r' → is_Some (animationLoop r') →
              rid' = rid) →
  is_Some (animationLoop r) →
  filter (λ r, is_Some (animationLoop r)) (alter clear_loop rid rs ++ [r])
  = [r].
Proof.
  intros Honly Hr. rewrite filter_app.
  rewrite (filter_none (λ r, is_Some (animationLoop r))
             (alter clear_loop rid rs)).
  - apply filter_all. intros a Ha.
    apply list_elem_of_singleton in Ha as ->. exact Hr.
  - intros a Ha Hloop. apply list_elem_of_lookup in Ha as [j Hj].
    destruct (decide (rid = j)) as [->|Hne].
    + rewrite list_lookup_alter_eq in Hj.
      destruct (rs !! j) as [r0|]; [|discriminate].
      injection Hj as <-. destruct Hloop as [cb Hcb]. discriminate.
    + rewrite list_lookup_alter_ne in Hj by exact Hne.
      specialize (Honly j a Hj Hloop). congruence.
Qed.

Lemma Part000_ar_click_run (outcome : Settlement) random s rid :
  dom_in_store s → renderer s = Some rid →
  is_Some (renderers s !! rid) → Canvas rid ∈ container s →
  returns (Part000.startClick (mkNavigator (VXRSystem outcome)) random) s
    (λ _ s',
       overlayHidden s' = true ∧
       log s' = log s ++ match controls s with
                         | Some _ => [ControlsDispose]
                         | None => []
                         end ∧
       container s'
       = filter (λ e, e ≠ Canvas rid) (container s)
         ++ [Canvas (length (renderers s));
             ARButtonElement (length (renderers s))] ∧
       renderers s'
       = alter clear_loop rid (renderers s)
         ++ [mkRenderer (Some LoopRenderAR) true None] ∧
       renderer s' = Some (length (renderers s)) ∧
       controls s' = dispose <$> controls s ∧
       reticle_state s' = Some (false, identity4)).
Proof.
  intros Hdom Hr Hl Hc.
  unfold Part000.startClick, xr_condition, js_and.
  cbn [xr ToBoolean isSessionSupported].
  repeat ret_step idtac. cbn [ToBoolean]. repeat ret_step idtac.
  eapply returns_impl;
    [apply (Part000_initAR_run random _ rid); assumption|].
  intros [] s' (l & Heq & _ & _ & Hret & _).
  split; [|split; [|split; [|split; [|split; [|split; [|exact Hret]]]]]];
    rewrite Heq; state_simpl; try reflexivity.
  apply (container_after_initAR s rid Hdom).
Qed.

Lemma Hybrid_ar_click_run (outcome : Settlement) random s rid :
  dom_in_store s → renderer s = Some rid →
  is_Some (renderers s !! rid) → Canvas rid ∈ container s →
  returns (Hybrid.startClick (mkNavigator (VXRSystem outcome)) random) s
    (λ _ s',
       overlayHidden s' = true ∧
       log s' = log s ++ match controls s with
                         | Some _ => [ControlsDispose]
                         | None => []
                         end ∧
       container s'
       = filter (λ e, e ≠ Canvas rid) (container s)
         ++ [Canvas (length (renderers s));
             ARButtonElement (length (renderers s))] ∧
       renderers s'
       = alter clear_loop rid (renderers s)
         ++ [mkRenderer (Some LoopRenderAR) true None] ∧
       renderer s' = Some (length (renderers s)) ∧
       controls s' = dispose <$> controls s ∧
       reticle_state s' = Some (false, identity4)).
Proof.
  intros Hdom Hr Hl Hc.
  unfold Hybrid.startClick, xr_condition, js_and.
  cbn [xr ToBoolean isSessionSupported].
  repeat ret_step idtac. cbn [ToBoolean]. repeat ret_step idtac.
  eapply returns_impl;
    [apply (Hybrid_initAR_run random _ rid); assumption|].
  intros [] s' (l & Heq & _ & _ & Hret & _).
  split; [|split; [|split; [|split; [|split; [|split; [|exact Hret]]]]]];
    rewrite Heq; state_simpl; try reflexivity.
  apply (container_after_initAR s rid Hdom).
Qed.

(** X12. The start click of the later revisions when [navigator.xr]
    exists, whatever [isSessionSupported] will answer (the handler tests
    the promise, not its result): on a page whose current renderer has
    its canvas in the container, the handler completes without an alert,
    hides the overlay, disposes the controls, detaches that canvas and
    clears that renderer's loop, then attaches the canvas of a new
    XR-enabled renderer and its AR button and runs [renderAR] on it, with
    the reticle hidden. When the old canvas was the only one and only the
    old renderer had a loop, one canvas is attached and one loop runs
    afterwards. *)
Theorem ar_click_switches_view (v : Revision) (outcome : Settlement)
    (random : nat → float) (s : App) (rid : nat) :
  v ≠ RArOnly → dom_in_store s → renderer s = Some rid →
  is_Some (renderers s !! rid) → Canvas rid ∈ container s →
  ∃ s',
    p_startClick (program v) (mkNavigator (VXRSystem outcome)) random s
    = (Normal (), s') ∧
    overlayHidden s' = true ∧
    (∀ msg, Alert msg ∈ log s' → Alert msg ∈ log s) ∧
    container s'
    = filter (λ e, e ≠ Canvas rid) (container s)
      ++ [Canvas (length (renderers s));
          ARButtonElement (length (renderers s))] ∧
    renderers s'
    = alter clear_loop rid (renderers s)
      ++ [mkRenderer (Some LoopRenderAR) true None] ∧
    renderer s' = Some (length (renderers s)) ∧
    controls s' = dispose <$> controls s ∧
    reticle_state s' = Some (false, identity4) ∧
    (canvases s = [Canvas rid] →
     canvases s' = [Canvas (length (renderers s))]) ∧
    ((∀ rid' r', renderers s !! rid' = Some r' →
                 is_Some (animationLoop r') → rid' = rid) →
     running_loops s' = [mkRenderer (Some LoopRenderAR) true None]).
Proof.
  intros Hv Hdom Hr Hl Hc.
  assert (∃ s',
            p_startClick (program v) (mkNavigator (VXRSystem outcome))
              random s = (Normal (), s') ∧
            overlayHidden s' = true ∧
            log s' = log s ++ match controls s with
                              | Some _ => [ControlsDispose]
                              | None => []
                              end ∧
            container s'
            = filter (λ e, e ≠ Canvas rid) (container s)
              ++ [Canvas (length (renderers s));
                  ARButtonElement (length (renderers s))] ∧
            renderers s'
            = alter clear_loop rid (renderers s)
              ++ [mkRenderer (Some LoopRenderAR) true None] ∧
            renderer s' = Some (length (renderers s)) ∧
            controls s' = dispose <$> controls s ∧
            reticle_state s' = Some (false, identity4))
    as (s' & Hrun & Hov & Hlog & Hcont & Hrs & Hrnd & Hctl & Hret).
  { destruct v; [contradiction| |].
    - destruct (Part000_ar_click_run outcome random s rid Hdom Hr Hl Hc)
        as ([] & s' & Hrun & H).
      exists s'. split; [exact Hrun|exact H].
    - destruct (Hybrid_ar_click_run outcome random s rid Hdom Hr Hl Hc)
        as ([] & s' & Hrun & H).
      exists s'. split; [exact Hrun|exact H]. }
  exists s'.
  split; [exact Hrun|]. split; [exact Hov|].
  split.
  { intros msg Hmsg. rewrite Hlog in Hmsg.
    apply elem_of_app in Hmsg as [Hmsg|Hmsg]; [exact Hmsg|].
    destruct (controls s); [|now apply not_elem_of_nil in Hmsg].
    apply list_elem_of_singleton in Hmsg. discriminate. }
  split; [exact Hcont|]. split; [exact Hrs|]. split; [exact Hrnd|].
  split; [exact Hctl|]. split; [exact Hret|].
  split.
  - intros Hone. unfold canvases at 1. rewrite Hcont.
    now apply canvases_switched.
  - intros Honly. unfold running_loops. rewrite Hrs.
    apply loops_switched; [exact Honly|cbn; eauto].
Qed.

Lemma ar_click_switches_view_witness :
  ∃ s',
    p_startClick part000 (mkNavigator (VXRSystem (Fulfilled false)))
      (λ _, 0.5%float) (step part000 initial (Load (λ _, 0.25%float)))
    = (Normal (), s') ∧
    overlayHidden s' = true ∧
    (∀ msg, Alert msg ∈ log s' →
            Alert msg
            ∈ log (step part000 initial (Load (λ _, 0.25%float)))) ∧
    container s' = [Canvas 1; ARButtonElement 1] ∧
    renderers s'
    = [mkRenderer None false None;
       mkRenderer (Some LoopRenderAR) true None] ∧
    renderer s' = Some 1 ∧
    controls s' = Some (mkControls true 0.05 false 2 30 true) ∧
    reticle_state s' = Some (false, identity4) ∧
    (canvases (step part000 initial (Load (λ _, 0.25%float)))
     = [Canvas 0] →
     canvases s' = [Canvas 1]) ∧
    ((∀ rid' r',
        renderers (step part000 initial (Load (λ _, 0.25%float))) !! rid'
        = Some r' →
        is_Some (animationLoop r') → rid' = 0) →
     running_loops s' = [mkRenderer (Some LoopRenderAR) true None]).
Proof.
  refine (ar_click_switches_view RPart000 (Fulfilled false) (λ _, 0.5%float)
            (step part000 initial (Load (λ _, 0.25%float))) 0 _ _ _ _ _).
  - discriminate.
  - intros e He. apply list_elem_of_In in He. vm_compute in He.
    destruct He as [<-|[]]. vm_compute. lia.
  - reflexivity.
  - vm_compute. eauto.
  - apply list_elem_of_In. vm_compute. tauto.
Defined.

Lemma container_after_first_initAR s :
  dom_in_store s →
  filter (λ e, e ≠ ARButtonElement (length (renderers s)))
    (filter (λ e, e ≠ Canvas (length (renderers s))) (container s)
     ++ [Canvas (length (renderers s))])
  ++ [ARButtonElement (length (renderers s))]
  = container s
    ++ [Canvas (length (renderers s));
        ARButtonElement (length (renderers s))].
Proof.
  intros Hdom.
  rewrite (filter_fresh s) by (exact Hdom || reflexivity).
  rewrite filter_all; [now rewrite <- app_assoc|].
  intros e He ->. apply elem_of_app in He as [He|He].
  - specialize (Hdom _ He). cbn in Hdom. lia.
  - apply list_elem_of_singleton in He. discriminate.
Qed.

Lemma ArOnly_ar_click_run (outcome : Settlement) random s :
  dom_in_store s →
  returns (ArOnly.startClick (mkNavigator (VXRSystem outcome)) random) s
    (λ _ s',
       overlayHidden s' = true ∧ log s' = log s ∧
       container s'
       = container s
         ++ [Canvas (length (renderers s));
             ARButtonElement (length (renderers s))] ∧
       renderers s'
       = renderers s ++ [mkRenderer (Some LoopRender) true None] ∧
       renderer s' = Some (length (renderers s)) ∧
       reticle_state s' = Some (false, identity4)).
Proof.
  intros Hdom.
  unfold ArOnly.startClick, xr_condition, js_and.
  cbn [xr ToBoolean isSessionSupported].
  repeat ret_step idtac. cbn [ToBoolean]. repeat ret_step idtac.
  eapply returns_impl; [apply ArOnly_initAR_run|].
  intros [] s' (l & Heq & _ & _ & Hret & _).
  split; [|split; [|split; [|split; [|split; [|exact Hret]]]]];
    rewrite Heq; state_simpl; try reflexivity.
  apply (container_after_first_initAR s Hdom).
Qed.

(** X13. The start click of the first revision. When [navigator.xr]
    exists, whatever [isSessionSupported] will answer, the handler
    completes without an alert, hides the overlay and starts the AR view:
    it keeps what the container held, attaches the canvas of a new
    XR-enabled renderer and its AR button, and runs [render] on that
    renderer, with the reticle hidden. When [navigator.xr] is undefined
    the handler alerts and changes nothing else: no view is started and
    the overlay stays. *)
Theorem first_revision_click (outcome : Settlement) (random : nat → float)
    (s : App) :
  dom_in_store s →
  (∃ s',
     p_startClick arOnly (mkNavigator (VXRSystem outcome)) random s
     = (Normal (), s') ∧
     overlayHidden s' = true ∧ log s' = log s ∧
     container s'
     = container s
       ++ [Canvas (length (renderers s));
           ARButtonElement (length (renderers s))] ∧
     renderers s'
     = renderers s ++ [mkRenderer (Some LoopRender) true None] ∧
     renderer s' = Some (length (renderers s)) ∧
     reticle_state s' = Some (false, identity4)) ∧
  (∃ msg,
     p_startClick arOnly (mkNavigator VUndefined) random s
     = (Normal (), set_log (log s ++ [Alert msg]) s)).
Proof.
  intros Hdom. split.
  - destruct (ArOnly_ar_click_run outcome random s Hdom)
      as ([] & s' & Hrun & H).
    exists s'. split; [exact Hrun|exact H].
  - eexists. reflexivity.
Qed.

Lemma first_revision_click_witness :
  (∃ s',
     p_startClick arOnly (mkNavigator (VXRSystem Rejected)) (λ _, 0.5%float)
       initial
     = (Normal (), s') ∧
     overlayHidden s' = true ∧ log s' = [] ∧
     container s' = [Canvas 0; ARButtonElement 0] ∧
     renderers s' = [mkRenderer (Some LoopRender) true None] ∧
     renderer s' = Some 0 ∧
     reticle_state s' = Some (false, identity4)) ∧
  (∃ msg,
     p_startClick arOnly (mkNavigator VUndefined) (λ _, 0.5%float) initial
     = (Normal (), set_log (log initial ++ [Alert msg]) initial)).
Proof.
  refine (first_revision_click Rejected (λ _, 0.5%float) initial _).
  intros e He. apply list_elem_of_In in He. destruct He.
Defined.

(** *** What the views show and what the loops turn *)

(** X14. After [init3D] of part_000 the solar-system group has no parent
    and is not among the children of the scene that [animate] draws: the
    function never adds it. After [init3D] of the later main.js the group
    is a child of the new scene. In both the group sits at the origin with
    scale 1. *)
Theorem desktop_view_attachment (random : nat → float) (s : App) :
  (∃ s',
     Part000.init3D random s = (Normal (), s') ∧
     scene s' = Some (length (objects s)) ∧
     placement s'
     = (Some (Vector3.mk 0 0 0, Vector3.mk 1 1 1, None), false)) ∧
  (∃ s',
     Hybrid.init3D random s = (Normal (), s') ∧
     scene s' = Some (length (objects s)) ∧
     placement s'
     = (Some (Vector3.mk 0 0 0, Vector3.mk 1 1 1,
              Some (length (objects s))), true)).
Proof.
  split.
  - destruct (Part000_init3D_run random s)
      as ([] & s' & Hrun & l & Heq & _ & Hplace & _).
    exists s'. split; [exact Hrun|]. split; [|exact Hplace].
    rewrite Heq. reflexivity.
  - destruct (Hybrid_init3D_run random s)
      as ([] & s' & Hrun & l & Heq & _ & Hplace & _).
    exists s'. split; [exact Hrun|]. split; [|exact Hplace].
    rewrite Heq. reflexivity.
Qed.

(** X15. The [planets] array over the mode functions of the later
    revisions. [init3D] appends its eight pivots to whatever the array
    held, in both revisions; so does [initAR] of part_000, which leaves the
    pivots of the desktop view in the array for the AR loop to turn;
    [initAR] of the later main.js empties the array first. The pivots
    appended are those of the planets just built, in the order of the
    configuration. *)
Theorem planets_over_mode_changes (random : nat → float) (s : App)
    (rid : nat) :
  renderer s = Some rid → is_Some (renderers s !! rid) →
  Canvas rid ∈ container s →
  let n := length (objects s) in
  let pivots := [n + 6; n + 8; n + 10; n + 12; n + 14; n + 16; n + 18;
                 n + 20] in
  (∃ s', Part000.init3D random s = (Normal (), s') ∧
         planets s' = planets s ++ pivots ∧
         planets_built RPart000 random (objects s') (n + 2) pivots) ∧
  (∃ s', Hybrid.init3D random s = (Normal (), s') ∧
         planets s' = planets s ++ pivots ∧
         planets_built RHybrid random (objects s') (n + 2) pivots) ∧
  (∃ s', Part000.initAR random s = (Normal (), s') ∧
         planets s' = planets s ++ pivots ∧
         planets_built RPart000 random (objects s') (n + 2) pivots) ∧
  (∃ s', Hybrid.initAR random s = (Normal (), s') ∧
         planets s' = pivots ∧
         planets_built RHybrid random (objects s') (n + 2) pivots).
Proof.
  intros Hr Hl Hc. cbv zeta.
  split; [|split; [|split]].
  - destruct (Part000_init3D_run random s)
      as ([] & s' & Hrun & l & Heq & _ & _ & _ & Hbuilt).
    exists s'. split; [exact Hrun|]. rewrite Heq. split; [reflexivity|].
    exact Hbuilt.
  - destruct (Hybrid_init3D_run random s)
      as ([] & s' & Hrun & l & Heq & _ & _ & _ & Hbuilt).
    exists s'. split; [exact Hrun|]. rewrite Heq. split; [reflexivity|].
    exact Hbuilt.
  - destruct (Part000_initAR_run random s rid Hr Hl Hc)
      as ([] & s' & Hrun & l & Heq & _ & _ & _ & _ & Hbuilt).
    exists s'. split; [exact Hrun|]. rewrite Heq. split; [reflexivity|].
    exact Hbuilt.
  - destruct (Hybrid_initAR_run random s rid Hr Hl Hc)
      as ([] & s' & Hrun & l & Heq & _ & _ & _ & _ & Hbuilt).
    exists s'. split; [exact Hrun|]. rewrite Heq. split; [reflexivity|].
    exact Hbuilt.
Qed.

Lemma planets_over_mode_changes_witness :
  let s := step part000 initial (Load (λ _, 0.25%float)) in
  planets s = [6; 8; 10; 12; 14; 16; 18; 20] ∧
  ∃ s', Part000.initAR (λ _, 0.5%float) s = (Normal (), s') ∧
        planets s'
        = [6; 8; 10; 12; 14; 16; 18; 20;
           27; 29; 31; 33; 35; 37; 39; 41].
Proof.
  intros s. split; [reflexivity|].
  destruct (planets_over_mode_changes (λ _, 0.5%float) s 0)
    as (_ & _ & (s' & Hrun & Hp & _) & _).
  - reflexivity.
  - vm_compute. eauto.
  - apply list_elem_of_In. vm_compute. tauto.
  - exists s'. split; [exact Hrun|exact Hp].
Defined.

(** ** Frames and taps before a hit-test source arrives *)










(** ** A tap after a frame with a hit *)

Lemma select_listener_found x :
  tidy_session x →
  existsb (same_listener EvtSelect CbOnSelect) (listeners x) = true →
  mkListener EvtSelect CbOnSelect true ∈ listeners x.
Proof.
  intros [Hs _] Hex. apply existsb_exists in Hex as (l & Hl & Hsame).
  apply list_elem_of_In in Hl.
  rewrite Forall_forall in Hs. destruct (Hs l Hl) as [->| ->].
  - exact Hl.
  - discriminate.
Qed.

Ltac armed_leaf :=
  idtac;
  let s' := fresh "s'" in
  let H := fresh "H" in
  intros s' H;
  first
    [ exact H
    | destruct H as (H1 & H2 & H3 & H4 & H5 & H6 & H7);
      repeat apply conj; try assumption;
      [ cbn [objects set_objects]; rewrite <- H4;
        apply (lookup_alter_same (λ o, (visible o, matrix o)));
        intros []; reflexivity
      | cbn [objects set_objects]; rewrite <- H7;
        apply fmap_alter_same; intros []; reflexivity ] ].

(** The frame of a hit arms the tap. *)
Lemma hitTestBlock_arms s rid rr x src frame hit rest pose r :
  renderer s = Some rid → renderers s !! rid = Some rr →
  xrSession rr = Some x → tidy_session x →
  hitTestSource s = Some src → hitTestSourceRequested s = true →
  getHitTestResults frame = hit :: rest → getPose hit = Some pose →
  reticle s = Some r → is_Some (objects s !! r) →
  returns (hitTestBlock (Some frame)) s
    (λ _ s', armed s rid r (transform_matrix pose) s').
Proof.
  intros Hr Hl Hx Ht Hsrc Hflag Hhit Hpose Hret Hro.
  unfold hitTestBlock.
  apply returns_bind, (returns_getSession s rid rr _ Hr Hl).
  apply returns_bind. unfold hitTestRequest.
  apply returns_bind, returns_gets. rewrite Hflag, andb_false_r.
  apply returns_ret.
  unfold performHitTest.
  apply returns_bind, returns_gets. rewrite Hsrc, Hhit, Hpose.
  apply returns_bind, returns_gets.
  apply returns_bind, (returns_deref _ _ _ r Hret).
  apply returns_bind, returns_updObject; [exact Hro|].
  apply returns_bind, (returns_deref _ _ _ pose eq_refl).
  apply returns_bind, returns_updObject;
    [cbn [objects set_objects]; now apply is_Some_lookup_alter|].
  cbn [objects set_objects].
  set (s1 := set_objects _ (set_objects _ s)).
  assert (renderer s1 = Some rid) as Hr1 by exact Hr.
  assert (renderers s1 !! rid = Some rr) as Hl1 by exact Hl.
  assert ((λ o, (visible o, matrix o)) <$> objects s1 !! r
          = Some (true, transform_matrix pose)) as Hvis.
  { subst s1. cbn [objects set_objects].
    rewrite !list_lookup_alter_eq. destruct Hro as [ro ->]. cbn.
    now rewrite fromArray_copy. }
  assert (placed_properties <$> objects s1 = placed_properties <$> objects s)
    as Hsame.
  { subst s1. cbn [objects set_objects].
    now rewrite !fmap_alter_same by (intros []; reflexivity). }
  unfold addEventListener.
  apply returns_bind, (returns_getSession s1 rid rr _ Hr1 Hl1).
  rewrite Hx.
  apply returns_bind, (returns_deref _ _ _ x eq_refl).
  destruct (existsb (same_listener EvtSelect CbOnSelect) (listeners x))
    eqn:Hex.
  - apply returns_ret.
    split; [exact Hr1|]. split.
    { exists rr, x. split; [exact Hl1|]. split; [exact Hx|].
      split; [exact Ht|]. now apply select_listener_found. }
    split; [exact Hret|]. split; [exact Hvis|].
    split; [reflexivity|]. split; [reflexivity|exact Hsame].
  - apply (returns_setSession s1 rid _ _ Hr1); [rewrite Hl1; eauto|].
    split; [exact Hr1|]. split.
    { eexists _, _. cbn [renderers set_renderers].
      rewrite list_lookup_alter_eq, Hl1. cbn.
      split; [reflexivity|]. split; [reflexivity|].
      split; [now apply tidy_session_select|].
      apply elem_of_app. right. apply list_elem_of_here. }
    split; [exact Hret|]. split; [exact Hvis|].
    split; [reflexivity|]. split; [reflexivity|exact Hsame].
Qed.

(** The rest of the loop turns objects and draws; it keeps the tap
    armed. *)
Lemma ar_loop_arms (v : Revision) s rid rr x src frame hit rest pose r :
  renderer s = Some rid → renderers s !! rid = Some rr →
  xrSession rr = Some x → tidy_session x →
  hitTestSource s = Some src → hitTestSourceRequested s = true →
  getHitTestResults frame = hit :: rest → getPose hit = Some pose →
  reticle s = Some r → is_Some (objects s !! r) →
  armed s rid r (transform_matrix pose) (exec (ar_loop v (Some frame)) s).
Proof.
  intros Hr Hl Hx Ht Hsrc Hflag Hhit Hpose Hret Hro.
  destruct (hitTestBlock_arms s rid rr x src frame hit rest pose r)
    as ([] & s1 & Hrun & Harmed); try assumption.
  assert (∀ rest : JS unit,
            preserves (armed s rid r (transform_matrix pose)) rest →
            armed s rid r (transform_matrix pose)
              (exec (hitTestBlock (Some frame);; rest) s)) as Hrest.
  { intros k Hk. rewrite exec_bind, Hrun. now apply Hk. }
  destruct v; cbn [ar_loop]; unfold renderAR, ArOnly.render;
    apply Hrest; unfold ArOnly.orbit_planet, armed; pres armed_leaf.
Qed.

(** A select event with the listener on the session and the reticle in
    view runs [onSelect] to its end. *)
Lemma select_event_places (v : Revision) (s : App) (rid : nat)
    (rr : WebGLRenderer) (x : XRSession) (r g sc : nat) (ro go : Object3D) :
  renderer s = Some rid → renderers s !! rid = Some rr →
  xrSession rr = Some x →
  tidy_session x → mkListener EvtSelect CbOnSelect true ∈ listeners x →
  reticle s = Some r → objects s !! r = Some ro → visible ro = true →
  solarSystemGroup s = Some g → objects s !! g = Some go →
  scene s = Some sc → is_Some (objects s !! sc) → sc ≠ g →
  parent_in_store s g →
  placement (step (program v) s Select)
  = (Some (setFromMatrixPosition (matrix ro), placed_scale v (scale go),
           Some sc), true) ∧
  reticle_visible (step (program v) s Select) = false.
Proof.
  intros Hr Hl Hx Ht Hin Hret Hro Hvis Hg Hgo Hsc Hsco Hne Hpar.
  unfold step. cbn [handle].
  apply (returns_exec (dispatchEvent (program v) EvtSelect) s
           (λ s', placement s' = _ ∧ reticle_visible s' = false)).
  unfold dispatchEvent.
  apply returns_bind, (returns_getSession s rid rr _ Hr Hl).
  rewrite Hx, (select_filter_tidy x Ht Hin).
  unfold forEach. cbn [forEach_from].
  apply returns_bind. unfold invoke.
  apply returns_bind, (returns_getSession s rid rr _ Hr Hl).
  rewrite Hx.
  destruct (decide (mkListener EvtSelect CbOnSelect true ∈ listeners x));
    [|contradiction].
  cbn [l_once l_callback call].
  apply returns_bind, (returns_setSession s rid _ _ Hr); [rewrite Hl; eauto|].
  apply returns_try_, returns_ret.
  set (s1 := set_renderers _ s).
  assert (renderers s1 !! rid
          = Some (mkRenderer (animationLoop rr) (xrEnabled rr)
                    (Some (mkXRSession
                       (filter (λ l, l ≠ mkListener EvtSelect CbOnSelect true)
                          (listeners x)))))) as Hl1.
  { subst s1. state_simpl. now rewrite list_lookup_alter_eq, Hl. }
  apply (returns_exec (p_onSelect (program v)) s1).
  apply (onSelect_places v s1 r g sc ro go); try assumption.
  intros os H1 H2.
  destruct v.
  - apply returns_ret. now split.
  - apply returns_ret. now split.
  - assert (renderer (set_objects os s1) = Some rid) as Hr2 by exact Hr.
    assert (renderers (set_objects os s1) !! rid = renderers s1 !! rid)
      as Hl2 by reflexivity.
    rewrite Hl1 in Hl2.
    revert H1 H2 Hr2 Hl2. generalize (set_objects os s1). clear s1 Hl1.
    intros s2 H1 H2 Hr2 Hl2.
    unfold removeEventListener.
    apply returns_bind, (returns_getSession s2 rid _ _ Hr2 Hl2).
    apply returns_bind. eapply returns_deref; [reflexivity|].
    apply (returns_setSession s2 rid _ _ Hr2); [rewrite Hl2; eauto|].
    split; [exact H1|exact H2].
Qed.

(** X17. Placement is not final. Whenever the AR loop processes a frame
    whose first hit has a pose, while a hit-test source is set, the tap
    that follows puts the group at the position of that pose, with scale
    0.3 (its own scale in the first revision) and the scene for parent,
    and hides the reticle, whether or not the group had been placed
    before: the frame re-registers the ['select'] listener that the
    previous tap used up. *)
Theorem tap_after_hit_places_again (v : Revision) (s : App) (rid : nat)
    (rr : WebGLRenderer) (x : XRSession) (src : XRHitTestSource)
    (frame : XRFrame) (hit : XRHitTestResult) (rest : list XRHitTestResult)
    (pose : XRPose) (r g sc : nat) (go : Object3D) :
  renderer s = Some rid → renderers s !! rid = Some rr →
  xrSession rr = Some x → tidy_session x →
  hitTestSource s = Some src → hitTestSourceRequested s = true →
  getHitTestResults frame = hit :: rest → getPose hit = Some pose →
  reticle s = Some r → is_Some (objects s !! r) →
  solarSystemGroup s = Some g → objects s !! g = Some go →
  scene s = Some sc → is_Some (objects s !! sc) → sc ≠ g →
  parent_in_store s g →
  let s1 := exec (ar_loop v (Some frame)) s in
  let s2 := step (program v) s1 Select in
  placement s2
  = (Some (setFromMatrixPosition (transform_matrix pose),
           placed_scale v (scale go), Some sc), true) ∧
  reticle_visible s2 = false.
Proof.
  intros Hr Hl Hx Ht Hsrc Hflag Hhit Hpose Hret Hro Hg Hgo Hsc Hsco Hne
    Hpar.
  cbv zeta.
  destruct (ar_loop_arms v s rid rr x src frame hit rest pose r
              Hr Hl Hx Ht Hsrc Hflag Hhit Hpose Hret Hro)
    as (Hr1 & (rr1 & x1 & Hl1 & Hx1 & Ht1 & Hin1) & Hret1 & Hvis1 & Hg1
        & Hsc1 & Hsame).
  set (s1 := exec (ar_loop v (Some frame)) s) in *.
  assert (∀ id o, objects s !! id = Some o →
                  ∃ o', objects s1 !! id = Some o'
                        ∧ placed_properties o' = placed_properties o)
    as Hkeep.
  { intros id o Ho.
    assert ((placed_properties <$> objects s1) !! id
            = Some (placed_properties o)) as H
      by (rewrite Hsame, list_lookup_fmap, Ho; reflexivity).
    rewrite list_lookup_fmap in H.
    destruct (objects s1 !! id) as [o'|]; [|discriminate].
    exists o'. split; [reflexivity|]. cbn in H. congruence. }
  destruct (objects s1 !! r) as [ro1|] eqn:Hro1; [|discriminate].
  cbn in Hvis1. injection Hvis1 as Hv1 Hm1.
  destruct (Hkeep g go Hgo) as (go1 & Hgo1 & Hgp).
  destruct Hsco as [sco Hsco].
  destruct (Hkeep sc sco Hsco) as (sco1 & Hsco1 & _).
  unfold placed_properties in Hgp.
  injection Hgp as Hpos Hscale Hparent Hchildren.
  rewrite <- Hm1, <- Hscale.
  apply (select_event_places v s1 rid rr1 x1 r g sc ro1 go1);
    try assumption.
  - now rewrite Hg1.
  - now rewrite Hsc1.
  - rewrite Hsco1. eauto.
  - intros o q Ho Hq. rewrite Hgo1 in Ho. injection Ho as <-.
    rewrite Hparent in Hq.
    destruct (Hpar go q Hgo Hq) as [qo Hqo].
    destruct (Hkeep q qo Hqo) as (qo1 & Hqo1 & _). rewrite Hqo1. eauto.
Qed.

Lemma tap_after_hit_places_again_witness :
  let s := step part000 (tracking_page part000) Select in
  let s1 := exec (ar_loop RPart000 (Some (frame_at 4 5 6))) s in
  let s2 := step part000 s1 Select in
  placement s
  = (Some (Vector3.mk 1 2 3, Vector3.mk 0.3 0.3 0.3, Some 21), true) ∧
  placement s2
  = (Some (Vector3.mk 4 5 6, Vector3.mk 0.3 0.3 0.3, Some 21), true) ∧
  reticle_visible s2 = false.
Proof.
  intros s s1 s2. split; [vm_compute; reflexivity|].
  refine (tap_after_hit_places_again RPart000 s 1
            (mkRenderer (Some LoopRenderAR) true
               (Some (mkXRSession [end_listener])))
            (mkXRSession [end_listener]) 7 (frame_at 4 5 6)
            (mkHit (Some (pose_at 4 5 6))) [] (pose_at 4 5 6) 42 23 21
            (default (new_object KMesh) (objects s !! 23))
            eq_refl _ eq_refl _ eq_refl eq_refl eq_refl eq_refl eq_refl _
            eq_refl _ eq_refl _ _ _).
  - vm_compute. reflexivity.
  - split; [|vm_compute; lia].
    constructor; [right; reflexivity|constructor].
  - vm_compute. eauto.
  - vm_compute. reflexivity.
  - vm_compute. eauto.
  - lia.
  - intros o q Ho Hq. vm_compute in Ho. injection Ho as <-.
    injection Hq as <-. vm_compute. eauto.
Defined.

(** ** The orbit loop *)

Lemma alter_agree {A} (f g : A → A) i (l : list A) :
  (∀ a, l !! i = Some a → f a = g a) → alter f i l = alter g i l.
Proof.
  revert i. induction l as [|a l IH]; intros [|i] H; cbn; [reflexivity..| |].
  - f_equal. now apply H.
  - f_equal. apply IH. intros b Hb. now apply H.
Qed.

Lemma planet_of_alter os p m ud d i :
  planet_of os p m ud → planet_of (alter (turn_by d) i os) p m ud.
Proof.
  intros (po & mo & Hp & Hc & Hm & Hud).
  assert (∀ id o, os !! id = Some o →
                  ∃ o', alter (turn_by d) i os !! id = Some o'
                        ∧ children o' = children o
                        ∧ userData o' = userData o) as Hkeep.
  { intros id o Ho. destruct (decide (i = id)) as [->|Hne].
    - rewrite list_lookup_alter_eq, Ho. eexists. split; [reflexivity|].
      destruct o; split; reflexivity.
    - rewrite list_lookup_alter_ne by exact Hne. eauto. }
  destruct (Hkeep p po Hp) as (po' & Hp' & Hc' & _).
  destruct (Hkeep m mo Hm) as (mo' & Hm' & _ & Hud').
  exists po', mo'. rewrite Hc', Hud'. now repeat split.
Qed.

(** One planet: the pivot turns by the speed its mesh carries, the mesh
    by twice that. *)
Lemma spin_planet_run s p m ud :
  planet_of (objects s) p m ud →
  spin_planet p s
  = (Normal (),
     set_objects
       (alter (turn_by (speed ud * 2)) m
          (alter (turn_by (speed ud)) p (objects s))) s).
Proof.
  intros (po & mo & Hp & Hc & Hm & Hud). unfold spin_planet.
  erewrite run_bind by (apply (getObject_run s p po Hp)).
  rewrite Hc. erewrite run_bind by reflexivity.
  erewrite run_bind by (apply (getObject_run s m mo Hm)).
  erewrite run_bind by (apply (getObject_run s p po Hp)).
  erewrite run_bind by (apply updObject_some; rewrite Hp; eauto).
  rewrite Hud. cbn [speed_of].
  assert (∃ mo1, alter (set_rotation_y (Euler.y (rotation po) + speed ud)%float)
                   p (objects s) !! m = Some mo1) as [mo1 Hm1].
  { apply is_Some_lookup_alter. rewrite Hm. eauto. }
  erewrite run_bind by (apply getObject_run; exact Hm1).
  rewrite updObject_some by (cbn; rewrite Hm1; eauto).
  cbn [objects set_objects]. f_equal.
  rewrite (alter_agree _ (turn_by (speed ud)) p (objects s))
    by (intros a Ha; rewrite Hp in Ha; now injection Ha as <-).
  rewrite (alter_agree _ (turn_by (speed ud * 2)) m
             (alter (turn_by (speed ud)) p (objects s))); [reflexivity|].
  intros a Ha.
  rewrite (alter_agree _ (turn_by (speed ud)) p (objects s)) in Hm1
    by (intros b Hb; rewrite Hp in Hb; now injection Hb as <-).
  rewrite Hm1 in Ha. now injection Ha as <-.
Qed.

Lemma Forall_planet_of_alter orbits os d i :
  Forall (λ t : nat * nat * UserData, planet_of os t.1.1 t.1.2 t.2) orbits →
  Forall (λ t, planet_of (alter (turn_by d) i os) t.1.1 t.1.2 t.2) orbits.
Proof.
  intros H. eapply Forall_impl; [exact H|].
  intros t Ht. now apply planet_of_alter.
Qed.

Lemma turn_cons p m ud orbits os :
  turn ((p, m, ud) :: orbits) os
  = turn orbits
      (alter (turn_by (speed ud * 2)) m (alter (turn_by (speed ud)) p os)).
Proof. reflexivity. Qed.

(** The loop over the pivots is one pass of [turn]. *)
Lemma forEach_spin orbits i s :
  Forall (λ t, planet_of (objects s) t.1.1 t.1.2 t.2) orbits →
  forEach_from i (λ _ pivot, spin_planet pivot) ((λ t, t.1.1) <$> orbits) s
  = (Normal (), set_objects (turn orbits (objects s)) s).
Proof.
  revert i s. induction orbits as [|[[p m] ud] orbits IH]; intros i s H.
  - destruct s; reflexivity.
  - apply Forall_cons in H as [Hp H]. cbn [fmap list_fmap forEach_from fst snd].
    erewrite run_bind by (apply (spin_planet_run s p m ud Hp)).
    rewrite IH.
    + rewrite turn_cons. reflexivity.
    + cbn [objects set_objects].
      now apply Forall_planet_of_alter, Forall_planet_of_alter.
Qed.

Lemma spin_planets_run s orbits :
  orbit_ready s orbits →
  spin_planets s = (Normal (), set_objects (turn orbits (objects s)) s).
Proof.
  intros (Hps & _ & Hall). unfold spin_planets.
  erewrite run_bind by reflexivity. rewrite Hps.
  now apply forEach_spin.
Qed.

(** *** The store after a pass *)


Lemma turn_length orbits os : length (turn orbits os) = length os.
Proof.
  revert os. induction orbits as [|[[p m] ud] orbits IH]; intros os;
    [reflexivity|].
  rewrite turn_cons, IH. now rewrite !length_alter.
Qed.

Lemma turn_unturned orbits os :
  unturned <$> turn orbits os = unturned <$> os.
Proof.
  revert os. induction orbits as [|[[p m] ud] orbits IH]; intros os;
    [reflexivity|].
  rewrite turn_cons, IH.
  now rewrite !fmap_alter_same by (intros []; reflexivity).
Qed.

Lemma orbit_addresses_cons p m ud orbits a :
  a ∈ orbit_addresses ((p, m, ud) :: orbits)
  ↔ a = p ∨ a = m ∨ a ∈ orbit_addresses orbits.
Proof.
  unfold orbit_addresses. rewrite !fmap_cons. cbn [fst snd].
  rewrite <- app_comm_cons.
  rewrite elem_of_cons, !elem_of_app, elem_of_cons. tauto.
Qed.

Lemma orbit_addresses_NoDup p m ud orbits :
  NoDup (orbit_addresses ((p, m, ud) :: orbits)) →
  p ≠ m ∧ (p ∉ orbit_addresses orbits) ∧ (m ∉ orbit_addresses orbits)
  ∧ NoDup (orbit_addresses orbits).
Proof.
  unfold orbit_addresses. rewrite !fmap_cons. cbn [fst snd].
  rewrite <- app_comm_cons. intros Hnd.
  apply NoDup_cons in Hnd as [Hp0 Hnd].
  apply NoDup_app in Hnd as (Hn1 & Hdisj & Hn2).
  apply NoDup_cons in Hn2 as [Hm0 Hn2].
  split; [|split; [|split]].
  - intros ->. apply Hp0. apply elem_of_app. right. left.
  - intros Hin'. apply Hp0. apply elem_of_app in Hin' as [H|H].
    + apply elem_of_app. now left.
    + apply elem_of_app. right. now right.
  - intros Hin'. apply elem_of_app in Hin' as [H|H].
    + apply (Hdisj m H). left.
    + now apply Hm0.
  - apply NoDup_app. split; [exact Hn1|]. split; [|exact Hn2].
    intros a Ha Ha'. apply (Hdisj a Ha). now right.
Qed.

Lemma orbit_addresses_elem p m ud orbits :
  (p, m, ud) ∈ orbits →
  p ∈ orbit_addresses orbits ∧ m ∈ orbit_addresses orbits.
Proof.
  intros Hin. unfold orbit_addresses. split; apply elem_of_app.
  - left. apply (list_elem_of_fmap_2 (λ t : nat * nat * UserData, t.1.1)
                   orbits (p, m, ud) Hin).
  - right. apply (list_elem_of_fmap_2 (λ t : nat * nat * UserData, t.1.2)
                    orbits (p, m, ud) Hin).
Qed.

Lemma turn_other orbits os id :
  id ∉ orbit_addresses orbits → turn orbits os !! id = os !! id.
Proof.
  revert os. induction orbits as [|[[p m] ud] orbits IH]; intros os Hid;
    [reflexivity|].
  rewrite turn_cons.
  rewrite orbit_addresses_cons in Hid.
  rewrite IH by tauto.
  rewrite !list_lookup_alter_ne; [reflexivity| |]; intros ->; tauto.
Qed.

Lemma turn_planet orbits os p m ud :
  NoDup (orbit_addresses orbits) → (p, m, ud) ∈ orbits →
  turn orbits os !! p = turn_by (speed ud) <$> os !! p ∧
  turn orbits os !! m = turn_by (speed ud * 2) <$> os !! m.
Proof.
  revert os. induction orbits as [|[[p0 m0] ud0] orbits IH];
    intros os Hnd Hin; [now apply not_elem_of_nil in Hin|].
  rewrite turn_cons.
  apply orbit_addresses_NoDup in Hnd as (Hpm & Hp0 & Hm0 & Hnd').
  apply elem_of_cons in Hin as [Heq|Hin].
  - injection Heq as -> -> ->.
    rewrite !turn_other by assumption.
    rewrite list_lookup_alter_ne, list_lookup_alter_eq by congruence.
    rewrite list_lookup_alter_eq, list_lookup_alter_ne by congruence.
    now split.
  - destruct (IH (alter (turn_by (speed ud0 * 2)) m0
                    (alter (turn_by (speed ud0)) p0 os)) Hnd' Hin)
      as [Hp Hm].
    rewrite Hp, Hm.
    destruct (orbit_addresses_elem p m ud orbits Hin) as [Hpin Hmin].
    rewrite !list_lookup_alter_ne by congruence. now split.
Qed.

(** A pass keeps the planets ready for the next. *)
Lemma turn_keeps_planets orbits done os :
  Forall (λ t : nat * nat * UserData, planet_of os t.1.1 t.1.2 t.2) done →
  Forall (λ t, planet_of (turn orbits os) t.1.1 t.1.2 t.2) done.
Proof.
  revert os. induction orbits as [|[[p m] ud] orbits IH]; intros os Hall;
    [exact Hall|].
  rewrite turn_cons. apply IH.
  now apply Forall_planet_of_alter, Forall_planet_of_alter.
Qed.

(** *** Frames of the desktop loop *)

Lemma turn_by_iter d n o :
  Nat.iter n (turn_by d) o
  = set_rotation_y (advanced d n (Euler.y (rotation o))) o.
Proof.
  induction n as [|n IH].
  - destruct o as [? ? [? ? ?]]; reflexivity.
  - rewrite Nat.iter_succ, IH. unfold advanced. rewrite Nat.iter_succ.
    destruct o as [? ? [? ? ?]]; reflexivity.
Qed.

Lemma iter_turn_planet orbits n os p m ud :
  NoDup (orbit_addresses orbits) → (p, m, ud) ∈ orbits →
  Nat.iter n (turn orbits) os !! p
  = Nat.iter n (turn_by (speed ud)) <$> os !! p ∧
  Nat.iter n (turn orbits) os !! m
  = Nat.iter n (turn_by (speed ud * 2)) <$> os !! m.
Proof.
  intros Hnd Hin. induction n as [|n [IHp IHm]].
  - unfold Nat.iter. cbn [nat_rect].
    split; [destruct (os !! p)|destruct (os !! m)]; reflexivity.
  - rewrite !Nat.iter_succ.
    destruct (turn_planet orbits (Nat.iter n (turn orbits) os) p m ud
                Hnd Hin) as [Hp Hm].
    rewrite Hp, Hm, IHp, IHm.
    split; [destruct (os !! p)|destruct (os !! m)]; reflexivity.
Qed.

Lemma animate_run s orbits :
  desktop_page s → orbit_ready s orbits →
  ∃ s',
    animate s = (Normal (), s') ∧
    objects s' = turn orbits (objects s) ∧ planets s' = planets s ∧
    desktop_page s'.
Proof.
  intros (Hrs & [c Hc] & [rid Hr] & [sc Hsc] & [cam Hcam]) Hready.
  destruct s. cbn in Hrs, Hc, Hr, Hsc, Hcam. subst.
  unfold animate.
  erewrite run_bind by reflexivity.
  erewrite run_bind by reflexivity.
  erewrite run_bind by reflexivity.
  erewrite run_bind by (apply (spin_planets_run _ orbits); exact Hready).
  unfold render_scene.
  do 6 (erewrite run_bind by reflexivity).
  eexists. split; [reflexivity|].
  split; [reflexivity|]. split; [reflexivity|].
  split; [reflexivity|]. cbn. eauto.
Qed.

Lemma desktop_tick v frame s :
  v ≠ RArOnly → renderers s = [mkRenderer (Some LoopAnimate) false None] →
  step (program v) s (Tick frame) = exec animate s.
Proof.
  intros Hv Hrs. unfold step, handle, tick, exec.
  erewrite run_bind by reflexivity. rewrite Hrs.
  destruct v; [contradiction| |];
    cbn [forEach forEach_from animationLoop xrSession program p_loop
           part000 hybrid loop_of_later];
    unfold try_, mbind, JS_bind, exec, mret, JS_ret; reflexivity.
Qed.

(** Frames on the desktop page: each is one pass over the planets. *)
Lemma desktop_frames v frames s orbits :
  v ≠ RArOnly → desktop_page s → orbit_ready s orbits →
  desktop_page (run (program v) (Tick <$> frames) s) ∧
  planets (run (program v) (Tick <$> frames) s) = planets s ∧
  objects (run (program v) (Tick <$> frames) s)
  = Nat.iter (length frames) (turn orbits) (objects s).
Proof.
  intros Hv. revert s.
  induction frames as [|f frames IH]; intros s Hpage Hready.
  - split; [exact Hpage|]. split; reflexivity.
  - rewrite fmap_cons. cbn [length].
    change (run (program v) (Tick f :: (Tick <$> frames)) s)
      with (run (program v) (Tick <$> frames) (step (program v) s (Tick f))).
    destruct (animate_run s orbits Hpage Hready)
      as (s' & Hrun & Hos & Hps & Hpage').
    rewrite (desktop_tick v f s Hv (proj1 Hpage)).
    unfold exec. rewrite Hrun. cbn [snd].
    assert (orbit_ready s' orbits) as Hready'.
    { destruct Hready as (H1 & H2 & H3).
      split; [congruence|]. split; [exact H2|].
      rewrite Hos. now apply turn_keeps_planets. }
    destruct (IH s' Hpage' Hready') as (A & B & C).
    split; [exact A|]. split; [congruence|].
    rewrite C, Hos. symmetry. apply Nat.iter_succ_r.
Qed.

(** *** The planets of a page just loaded *)

Lemma new_planet_planet_of os t :
  new_planet os t → planet_of os t.1.1 t.1.2 t.2.
Proof.
  intros (po & mo & Hp & _ & Hc & _ & _ & Hm & _ & _ & _ & _ & Hud).
  exists po, mo. rewrite Hc. now repeat split.
Qed.

Lemma new_planets_NoDup os orbits :
  NoDup ((λ t, t.1.1) <$> orbits) → Forall (new_planet os) orbits →
  NoDup (orbit_addresses orbits).
Proof.
  intros Hnd Hall. unfold orbit_addresses. apply NoDup_app.
  split; [exact Hnd|]. split.
  - intros a Hp Hm.
    apply list_elem_of_fmap in Hp as (t & -> & Ht).
    apply list_elem_of_fmap in Hm as (t' & Heq & Ht').
    rewrite Forall_forall in Hall.
    destruct (Hall t Ht) as (po & _ & Hp & Hk & _).
    destruct (Hall t' Ht')
      as (_ & mo & _ & _ & _ & _ & _ & Hm & Hk' & _).
    rewrite Heq in Hp. congruence.
  - revert Hnd Hall.
    induction orbits as [|[[p m] ud] orbits IH]; intros Hnd Hall;
      [constructor|].
    rewrite fmap_cons in Hnd. apply NoDup_cons in Hnd as [Hp Hnd].
    apply Forall_cons in Hall as [Hnew Hall].
    rewrite fmap_cons. apply NoDup_cons. split; [|now apply IH].
    cbn [fst snd]. intros Hm.
    apply list_elem_of_fmap in Hm as (t' & Heq & Ht').
    rewrite Forall_forall in Hall.
    destruct Hnew as (_ & mo & _ & _ & _ & _ & _ & Hm & _ & Hpar & _).
    destruct (Hall t' Ht')
      as (_ & mo' & _ & _ & _ & _ & _ & Hm' & _ & Hpar' & _).
    cbn [fst snd] in Hm, Hpar. rewrite Heq in Hm.
    apply Hp. cbn [fst snd].
    assert (p = t'.1.1) as -> by congruence.
    now apply (list_elem_of_fmap_2 (λ t : nat * nat * UserData, t.1.1)).
Qed.

Lemma built_orbits os g configs rnd pivots :
  length pivots = length configs →
  (∀ i config, configs !! i = Some config →
     ∃ pivot, pivots !! i = Some pivot
              ∧ planet_at os g pivot config (rnd i)) →
  ∃ orbits,
    pivots = (λ t, t.1.1) <$> orbits ∧
    Forall (new_planet os) orbits ∧
    ∀ i config, configs !! i = Some config →
      ∃ p m, orbits !! i = Some (p, m, userData_of config (rnd i)).
Proof.
  revert configs rnd.
  induction pivots as [|pivot pivots IH]; intros [|c cs] rnd Hlen H;
    try discriminate Hlen.
  - exists []. split; [reflexivity|]. split; [constructor|].
    intros i config Hi. discriminate Hi.
  - destruct (H 0%nat c eq_refl) as (pivot' & Hp' & Hat).
    injection Hp' as <-.
    destruct (IH cs (λ i, rnd (S i))) as (orbits & Hps & Hall & Hidx).
    { now injection Hlen. }
    { intros i config Hi. exact (H (S i) config Hi). }
    destruct Hat as (po & mesh & mo & Hpo & Hk & _ & Hc & Hpos & Hrot
                     & Hmo & Hpar & Hkm & Hposm & Hrotm & _ & Hud).
    exists ((pivot, mesh, userData_of c (rnd 0%nat)) :: orbits).
    split; [rewrite fmap_cons, Hps; reflexivity|]. split.
    + constructor; [|exact Hall].
      exists po, mo. cbn [fst snd]. now repeat split.
    + intros [|i] config Hi.
      * injection Hi as <-. eauto.
      * exact (Hidx i config Hi).
Qed.

Lemma built_page v random s :
  v ≠ RArOnly → desktop_page s →
  planets s = [6; 8; 10; 12; 14; 16; 18; 20] →
  planets_built v random (objects s) 2 [6; 8; 10; 12; 14; 16; 18; 20] →
  ∃ orbits,
    desktop_page s ∧ orbit_ready s orbits ∧
    Forall (new_planet (objects s)) orbits ∧
    ∀ i config, planetConfig_of v !! S i = Some config →
      ∃ p m, orbits !! i = Some (p, m, userData_of config (random (S i))).
Proof.
  intros Hv Hpage Hplanets [_ Hbuilt].
  destruct (built_orbits (objects s) 2 (tail (planetConfig_of v))
              (λ i, random (S i)) [6; 8; 10; 12; 14; 16; 18; 20])
    as (orbits & Hps & Hall & Hidx).
  { destruct v; [contradiction|reflexivity|reflexivity]. }
  { intros i config Hi. apply Hbuilt.
    destruct v; [contradiction|exact Hi|exact Hi]. }
  exists orbits. split; [exact Hpage|]. split; [|split; [exact Hall|]].
  - split; [congruence|]. split.
    + apply (new_planets_NoDup (objects s)); [rewrite <- Hps|exact Hall].
      apply (bool_decide_unpack _). reflexivity.
    + eapply Forall_impl; [exact Hall|apply new_planet_planet_of].
  - intros i config Hi. apply Hidx.
    destruct v; [contradiction|exact Hi|exact Hi].
Qed.

Lemma loaded_page v random :
  v ≠ RArOnly →
  ∃ orbits,
    desktop_page (step (program v) initial (Load random)) ∧
    orbit_ready (step (program v) initial (Load random)) orbits ∧
    Forall (new_planet (objects (step (program v) initial (Load random))))
      orbits ∧
    ∀ i config, planetConfig_of v !! S i = Some config →
      ∃ p m, orbits !! i = Some (p, m, userData_of config (random (S i))).
Proof.
  intros Hv. unfold step, handle, exec.
  destruct v; [contradiction| |]; cbn [program p_load part000 hybrid];
    unfold Part000.load, Hybrid.load;
    [destruct (Part000_init3D_run random initial)
       as ([] & s' & Hrun & l & Heq & _ & _ & _ & Hbuilt)
    |destruct (Hybrid_init3D_run random initial)
       as ([] & s' & Hrun & l & Heq & _ & _ & _ & Hbuilt)];
    rewrite Hrun; cbn [snd]; cbv zeta in *;
    cbn [initial objects renderers planets length Nat.add app] in *;
    (apply built_page; [exact Hv| | |]); rewrite Heq;
    [split; [reflexivity|cbn; eauto]|reflexivity|exact Hbuilt
    |split; [reflexivity|cbn; eauto]|reflexivity|exact Hbuilt].
Qed.

Lemma turned_planet (d : float) (n : nat) (o : Object3D) :
  rotation o = Euler.mk 0 0 0 →
  children (Nat.iter n (turn_by d) o) = children o ∧
  userData (Nat.iter n (turn_by d) o) = userData o ∧
  position (Nat.iter n (turn_by d) o) = position o ∧
  rotation (Nat.iter n (turn_by d) o) = Euler.mk 0 (advanced d n 0) 0.
Proof.
  intros Hrot. rewrite turn_by_iter, Hrot.
  destruct o. cbn in Hrot. subst. repeat split; reflexivity.
Qed.

(** X18. The planets of the desktop view, [n] frames after the page was
    loaded (part_000 and the later main.js): the pivot of each planet has
    been turned [n] times by the speed of its entry of the configuration
    and its mesh [n] times by twice that, both from 0. The phase
    [userData.angle] drawn from [Math.random()] is carried by the mesh and
    read by nothing: whatever numbers are drawn, every planet starts on the
    x axis of the group, at its configured distance. *)
Theorem planets_start_aligned (v : Revision) (random : nat → float)
    (frames : list XRFrame) (i : nat) (config : Config) :
  v ≠ RArOnly → planetConfig_of v !! S i = Some config →
  ∃ pivot mesh po mo ud,
    planets (run (program v) (Load random :: (Tick <$> frames)) initial) !! i
    = Some pivot ∧
    objects (run (program v) (Load random :: (Tick <$> frames)) initial)
      !! pivot = Some po ∧
    children po = [mesh] ∧
    objects (run (program v) (Load random :: (Tick <$> frames)) initial)
      !! mesh = Some mo ∧
    userData mo = Some ud ∧
    speed ud = c_speed config ∧
    angle ud = initial_angle (random (S i)) ∧
    position po = Vector3.mk 0 0 0 ∧
    rotation po
    = Euler.mk 0 (advanced (c_speed config) (length frames) 0) 0 ∧
    position mo = Vector3.mk (c_distance config) 0 0 ∧
    rotation mo
    = Euler.mk 0 (advanced (c_speed config * 2) (length frames) 0) 0.
Proof.
  intros Hv Hi.
  change (run (program v) (Load random :: (Tick <$> frames)) initial)
    with (run (program v) (Tick <$> frames)
            (step (program v) initial (Load random))).
  destruct (loaded_page v random Hv)
    as (orbits & Hpage & Hready & Hnew & Hidx).
  set (s1 := step (program v) initial (Load random)) in *.
  destruct (desktop_frames v frames s1 orbits Hv Hpage Hready)
    as (_ & Hps & Hos).
  rewrite Hps, Hos.
  destruct (Hidx i config Hi) as (p & m & Ht).
  assert ((p, m, userData_of config (random (S i))) ∈ orbits) as Hin
    by (eapply list_elem_of_lookup_2; exact Ht).
  destruct Hready as (Hplanets & Hnd & _).
  destruct (iter_turn_planet orbits (length frames) (objects s1) p m _
              Hnd Hin) as [Hp Hm].
  rewrite Forall_forall in Hnew.
  destruct (Hnew _ Hin)
    as (po & mo & Hpo & _ & Hc & Hpos & Hrot & Hmo & _ & _ & Hposm & Hrotm
        & Hud).
  cbn [fst snd] in Hpo, Hc, Hmo, Hposm, Hud.
  rewrite Hpo in Hp. rewrite Hmo in Hm.
  destruct (turned_planet (speed (userData_of config (random (S i))))
              (length frames) po Hrot) as (Pc & _ & Ppos & Prot).
  destruct (turned_planet (speed (userData_of config (random (S i))) * 2)
              (length frames) mo Hrotm) as (_ & Mud & Mpos & Mrot).
  exists p, m,
    (Nat.iter (length frames)
       (turn_by (speed (userData_of config (random (S i))))) po),
    (Nat.iter (length frames)
       (turn_by (speed (userData_of config (random (S i))) * 2)) mo),
    (userData_of config (random (S i))).
  split; [rewrite Hplanets, list_lookup_fmap, Ht; reflexivity|].
  split; [exact Hp|]. split; [now rewrite Pc|].
  split; [exact Hm|]. split; [now rewrite Mud|].
  split; [reflexivity|]. split; [reflexivity|].
  split; [now rewrite Ppos|]. split; [exact Prot|].
  split; [now rewrite Mpos|exact Mrot].
Qed.

Lemma planets_start_aligned_witness :
  RPart000 ≠ RArOnly ∧
  planetConfig_of RPart000 !! 3%nat
  = Some (mkConfig "Earth" 0.09 2.0 (Texture "earth.jpg") 0.01) ∧
  ∃ pivot mesh po mo ud,
    planets (run (program RPart000)
               (Load (λ _, 0.75%float)
                  :: (Tick <$> [mkXRFrame []; mkXRFrame []])) initial)
      !! 2%nat = Some pivot ∧
    objects (run (program RPart000)
               (Load (λ _, 0.75%float)
                  :: (Tick <$> [mkXRFrame []; mkXRFrame []])) initial)
      !! pivot = Some po ∧
    children po = [mesh] ∧
    objects (run (program RPart000)
               (Load (λ _, 0.75%float)
                  :: (Tick <$> [mkXRFrame []; mkXRFrame []])) initial)
      !! mesh = Some mo ∧
    userData mo = Some ud ∧
    speed ud = 0.01%float ∧
    angle ud = initial_angle 0.75 ∧
    position po = Vector3.mk 0 0 0 ∧
    rotation po = Euler.mk 0 0.02 0 ∧
    position mo = Vector3.mk 2 0 0 ∧
    rotation mo = Euler.mk 0 0.04 0.
Proof.
  assert (RPart000 ≠ RArOnly) as Hv by discriminate.
  split; [exact Hv|]. split; [reflexivity|].
  exact (planets_start_aligned RPart000 (λ _, 0.75%float)
           [mkXRFrame []; mkXRFrame []] 2 _ Hv eq_refl).
Defined.

(** ** The orbit part of the AR loops *)

Lemma orbital_fmap {B} (f : Object3D → B) (l1 l2 : list Object3D) :
  (∀ o o', orbital o = orbital o' → f o = f o') →
  orbital <$> l1 = orbital <$> l2 → f <$> l1 = f <$> l2.
Proof.
  intros Hf. revert l2.
  induction l1 as [|a l1 IH]; intros [|b l2] H; try discriminate H;
    [reflexivity|].
  rewrite !fmap_cons in H.
  assert (orbital a = orbital b) as Hab by congruence.
  assert (orbital <$> l1 = orbital <$> l2) as Hl by congruence.
  rewrite !fmap_cons. f_equal; [apply Hf; exact Hab|apply IH; exact Hl].
Qed.

Lemma orbital_lookup {B} (f : Object3D → B) (l1 l2 : list Object3D) i :
  (∀ o o', orbital o = orbital o' → f o = f o') →
  orbital <$> l1 = orbital <$> l2 → f <$> l1 !! i = f <$> l2 !! i.
Proof.
  intros Hf H. rewrite <- !list_lookup_fmap.
  now rewrite (orbital_fmap f l1 l2 Hf H).
Qed.

Lemma planet_of_orbital os1 os p m ud :
  orbital <$> os1 = orbital <$> os →
  planet_of os p m ud → planet_of os1 p m ud.
Proof.
  intros H (po & mo & Hp & Hc & Hm & Hud).
  assert (∀ o o' : Object3D, orbital o = orbital o' →
            (children o, userData o) = (children o', userData o')) as Hf
    by (intros ? ?; unfold orbital; congruence).
  pose proof (orbital_lookup _ os1 os p Hf H) as Ep.
  pose proof (orbital_lookup _ os1 os m Hf H) as Em.
  rewrite Hp in Ep. rewrite Hm in Em.
  destruct (os1 !! p) as [po1|] eqn:Hp1; [|discriminate Ep].
  destruct (os1 !! m) as [mo1|] eqn:Hm1; [|discriminate Em].
  cbn in Ep, Em. injection Ep as Ec _. injection Em as _ Eu.
  exists po1, mo1. rewrite Ec, Eu. now repeat split.
Qed.

Ltac orbital_leaf :=
  idtac;
  let s' := fresh "s'" in
  let H := fresh "H" in
  intros s' H;
  first
    [ exact H
    | destruct H as (H1 & H2 & H3 & H4 & H5 & H6);
      repeat split; state_simpl; try assumption;
      rewrite fmap_alter_same by (intros []; reflexivity); assumption ].

Lemma hitTestBlock_keeps_orbital frame ps os rd sc cam g :
  preserves (λ s, planets s = ps ∧ orbital <$> objects s = os
                  ∧ renderer s = rd ∧ scene s = sc ∧ camera s = cam
                  ∧ solarSystemGroup s = g)
    (hitTestBlock frame).
Proof. pres orbital_leaf. Qed.

Lemma orbit_ready_orbital s s1 orbits :
  planets s1 = planets s → orbital <$> objects s1 = orbital <$> objects s →
  orbit_ready s orbits → orbit_ready s1 orbits.
Proof.
  intros Hps Hos (H1 & H2 & H3).
  split; [congruence|]. split; [exact H2|].
  eapply Forall_impl; [exact H3|].
  intros t Ht. exact (planet_of_orbital _ _ _ _ _ Hos Ht).
Qed.

Lemma render_scene_run s rid sc cam :
  renderer s = Some rid → scene s = Some sc → camera s = Some cam →
  render_scene s = (Normal (), set_log (log s ++ [Render rid sc]) s).
Proof.
  intros Hr Hsc Hcam. unfold render_scene.
  erewrite run_bind by reflexivity. rewrite Hr.
  erewrite run_bind by reflexivity.
  erewrite run_bind by reflexivity. rewrite Hsc.
  erewrite run_bind by reflexivity.
  erewrite run_bind by reflexivity. rewrite Hcam.
  erewrite run_bind by reflexivity. reflexivity.
Qed.

(** What the hit-test block leaves of a state, however it completes. *)
Lemma hitTestBlock_orbital frame s c s1 :
  hitTestBlock frame s = (c, s1) →
  planets s1 = planets s ∧ orbital <$> objects s1 = orbital <$> objects s ∧
  renderer s1 = renderer s ∧ scene s1 = scene s ∧ camera s1 = camera s ∧
  solarSystemGroup s1 = solarSystemGroup s.
Proof.
  intros Hrun.
  pose proof (hitTestBlock_keeps_orbital frame (planets s)
                (orbital <$> objects s) (renderer s) (scene s) (camera s)
                (solarSystemGroup s) s) as H.
  unfold exec in H. rewrite Hrun in H. apply H. now repeat split.
Qed.

Lemma renderAR_orbits frame s orbits :
  orbit_ready s orbits →
  is_Some (renderer s) → is_Some (scene s) → is_Some (camera s) →
  match renderAR frame s with
  | (Normal _, s') =>
      ∃ s1, hitTestBlock frame s = (Normal (), s1) ∧
            orbital <$> objects s1 = orbital <$> objects s ∧
            objects s' = turn orbits (objects s1) ∧
            planets s' = planets s
  | (Throw e, s') =>
      hitTestBlock frame s = (Throw e, s') ∧
      orbital <$> objects s' = orbital <$> objects s
  end.
Proof.
  intros Hready [rid Hr] [sc Hsc] [cam Hcam]. unfold renderAR.
  destruct (hitTestBlock frame s) as [[[]|e] s1] eqn:Hb;
    destruct (hitTestBlock_orbital frame s _ s1 Hb)
      as (Hps & Hos & Hr1 & Hsc1 & Hcam1 & _).
  - erewrite run_bind by exact Hb.
    erewrite run_bind
      by (apply (spin_planets_run s1 orbits);
          exact (orbit_ready_orbital s s1 orbits Hps Hos Hready)).
    rewrite (render_scene_run _ rid sc cam)
      by (state_simpl; congruence).
    exists s1. split; [reflexivity|]. split; [exact Hos|].
    split; [reflexivity|exact Hps].
  - unfold mbind, JS_bind. rewrite Hb. now split.
Qed.

Lemma turn_placed orbits os :
  placed_properties <$> turn orbits os = placed_properties <$> os.
Proof.
  revert os. induction orbits as [|[[p m] ud] orbits IH]; intros os;
    [reflexivity|].
  rewrite turn_cons, IH.
  now rewrite !fmap_alter_same by (intros []; reflexivity).
Qed.

Lemma turned_rotation d (o o' : Object3D) :
  orbital o = orbital o' → rotation (turn_by d o) = rotation (turn_by d o').
Proof.
  unfold orbital. intros H. injection H as _ _ Hrot _ _ _ _ _.
  destruct o, o'. cbn in *. now subst.
Qed.

(** X19. One frame of the AR loop of the later revisions, on any state
    whose planets are in place. When the hit-test block completes, the
    loop completes: each pivot is turned by the speed its mesh carries,
    each mesh by twice that, no other object is turned, nothing is moved,
    scaled or re-parented, and the planets are in place for the next
    frame. The loop throws only when the hit-test block throws, and then
    it has turned nothing: the planets stand still for that frame. *)
Theorem ar_frame_turns_planets (v : Revision) (frame : option XRFrame)
    (s : App) (orbits : list (nat * nat * UserData)) :
  v ≠ RArOnly → orbit_ready s orbits →
  is_Some (renderer s) → is_Some (scene s) → is_Some (camera s) →
  match ar_loop v frame s with
  | (Normal _, s') =>
      (∃ s1, hitTestBlock frame s = (Normal (), s1)) ∧
      orbit_ready s' orbits ∧
      (∀ p m ud, (p, m, ud) ∈ orbits →
         rotation <$> objects s' !! p
         = (λ o, rotation (turn_by (speed ud) o)) <$> objects s !! p ∧
         rotation <$> objects s' !! m
         = (λ o, rotation (turn_by (speed ud * 2) o)) <$> objects s !! m) ∧
      (∀ id, id ∉ orbit_addresses orbits →
         rotation <$> objects s' !! id = rotation <$> objects s !! id) ∧
      placed_properties <$> objects s' = placed_properties <$> objects s
  | (Throw e, s') =>
      hitTestBlock frame s = (Throw e, s') ∧
      orbital <$> objects s' = orbital <$> objects s
  end.
Proof.
  intros Hv Hready Hr Hsc Hcam.
  assert (ar_loop v frame s = renderAR frame s) as ->
    by (destruct v; [contradiction|reflexivity|reflexivity]).
  pose proof (renderAR_orbits frame s orbits Hready Hr Hsc Hcam) as H.
  destruct (renderAR frame s) as [[[]|e] s']; [|exact H].
  destruct H as (s1 & Hb & Hos & Hturn & Hps).
  assert (orbit_ready s1 orbits) as Hready1.
  { apply (orbit_ready_orbital s); [|exact Hos|exact Hready].
    now destruct (hitTestBlock_orbital frame s _ s1 Hb). }
  split; [eauto|]. split; [|split; [|split]].
  - destruct Hready1 as (H1 & H2 & H3).
    split; [rewrite Hps; exact (proj1 Hready)|]. split; [exact H2|].
    rewrite Hturn. now apply turn_keeps_planets.
  - intros p m ud Hin. rewrite Hturn.
    destruct (turn_planet orbits (objects s1) p m ud
                (proj1 (proj2 Hready)) Hin) as [-> ->].
    rewrite <- !option_fmap_compose.
    split; apply orbital_lookup; try exact Hos;
      intros o o'; apply turned_rotation.
  - intros id Hid. rewrite Hturn, turn_other by exact Hid.
    apply orbital_lookup; [|exact Hos].
    intros ? ?. unfold orbital. congruence.
  - rewrite Hturn.
    transitivity (placed_properties <$> objects s1).
    + apply turn_placed.
    + apply orbital_fmap; [|exact Hos].
      intros ? ?. unfold orbital, placed_properties. congruence.
Qed.

(** *** The first revision *)

Lemma orbit_planet_run s p m ud :
  planet_of (objects s) p m ud →
  ArOnly.orbit_planet p s
  = (Normal (),
     set_objects (alter (turn_by (speed ud)) p (objects s)) s).
Proof.
  intros (po & mo & Hp & Hc & Hm & Hud). unfold ArOnly.orbit_planet.
  erewrite run_bind by (apply (getObject_run s p po Hp)).
  rewrite Hc. erewrite run_bind by reflexivity.
  erewrite run_bind by (apply (getObject_run s m mo Hm)).
  rewrite updObject_some by (rewrite Hp; eauto).
  rewrite Hud. cbn [speed_of]. f_equal. f_equal.
  apply alter_agree. intros a Ha. rewrite Hp in Ha. now injection Ha as <-.
Qed.

Lemma turn_pivots_cons p m ud orbits os :
  turn_pivots ((p, m, ud) :: orbits) os
  = turn_pivots orbits (alter (turn_by (speed ud)) p os).
Proof. reflexivity. Qed.

Lemma forEach_orbit orbits i s :
  Forall (λ t, planet_of (objects s) t.1.1 t.1.2 t.2) orbits →
  forEach_from i (λ _ pivot, ArOnly.orbit_planet pivot)
    ((λ t, t.1.1) <$> orbits) s
  = (Normal (), set_objects (turn_pivots orbits (objects s)) s).
Proof.
  revert i s. induction orbits as [|[[p m] ud] orbits IH]; intros i s H.
  - destruct s; reflexivity.
  - apply Forall_cons in H as [Hp H]. cbn [fmap list_fmap forEach_from fst snd].
    erewrite run_bind by (apply (orbit_planet_run s p m ud Hp)).
    rewrite IH.
    + rewrite turn_pivots_cons. reflexivity.
    + cbn [objects set_objects]. now apply Forall_planet_of_alter.
Qed.

Lemma turn_pivots_other orbits os id :
  id ∉ ((λ t : nat * nat * UserData, t.1.1) <$> orbits) →
  turn_pivots orbits os !! id = os !! id.
Proof.
  revert os. induction orbits as [|[[p m] ud] orbits IH]; intros os Hid;
    [reflexivity|].
  rewrite turn_pivots_cons. rewrite fmap_cons in Hid. cbn [fst snd] in Hid.
  rewrite elem_of_cons in Hid.
  rewrite IH by tauto.
  rewrite list_lookup_alter_ne; [reflexivity|]. intros ->. tauto.
Qed.

Lemma turn_pivots_planet orbits os p m ud :
  NoDup ((λ t : nat * nat * UserData, t.1.1) <$> orbits) →
  (p, m, ud) ∈ orbits →
  turn_pivots orbits os !! p = turn_by (speed ud) <$> os !! p.
Proof.
  revert os. induction orbits as [|[[p0 m0] ud0] orbits IH];
    intros os Hnd Hin; [now apply not_elem_of_nil in Hin|].
  rewrite turn_pivots_cons. rewrite fmap_cons in Hnd.
  apply NoDup_cons in Hnd as [Hp0 Hnd]. cbn [fst snd] in Hp0.
  apply elem_of_cons in Hin as [Heq|Hin].
  - injection Heq as -> -> ->.
    rewrite turn_pivots_other by exact Hp0.
    now rewrite list_lookup_alter_eq.
  - rewrite (IH _ Hnd Hin).
    rewrite list_lookup_alter_ne; [reflexivity|]. intros ->.
    apply Hp0.
    now apply (list_elem_of_fmap_2 (λ t : nat * nat * UserData, t.1.1)
                 orbits (p, m, ud)).
Qed.

Lemma turn_pivots_keeps_planets orbits done os :
  Forall (λ t : nat * nat * UserData, planet_of os t.1.1 t.1.2 t.2) done →
  Forall (λ t, planet_of (turn_pivots orbits os) t.1.1 t.1.2 t.2) done.
Proof.
  revert os. induction orbits as [|[[p m] ud] orbits IH]; intros os Hall;
    [exact Hall|].
  rewrite turn_pivots_cons. apply IH. now apply Forall_planet_of_alter.
Qed.

Lemma turn_pivots_placed orbits os :
  placed_properties <$> turn_pivots orbits os = placed_properties <$> os.
Proof.
  revert os. induction orbits as [|[[p m] ud] orbits IH]; intros os;
    [reflexivity|].
  rewrite turn_pivots_cons, IH.
  now rewrite fmap_alter_same by (intros []; reflexivity).
Qed.

Lemma turn_pivots_length orbits os :
  length (turn_pivots orbits os) = length os.
Proof.
  revert os. induction orbits as [|[[p m] ud] orbits IH]; intros os;
    [reflexivity|].
  rewrite turn_pivots_cons, IH. now rewrite length_alter.
Qed.

Lemma attached_orbital s s1 :
  solarSystemGroup s1 = solarSystemGroup s → scene s1 = scene s →
  orbital <$> objects s1 = orbital <$> objects s →
  attached s1 = attached s.
Proof.
  intros Hg Hsc Hos. unfold attached, lookup_var. rewrite Hg, Hsc.
  destruct (solarSystemGroup s) as [g|]; [|reflexivity].
  destruct (scene s) as [sc|]; cbn; [|reflexivity].
  assert (∀ o o' : Object3D, orbital o = orbital o' →
            children o = children o') as Hf
    by (intros ? ?; unfold orbital; congruence).
  pose proof (orbital_lookup children (objects s1) (objects s) sc Hf Hos)
    as H.
  destruct (objects s1 !! sc) as [o1|], (objects s !! sc) as [o|];
    cbn in H; try reflexivity; try discriminate H.
  injection H as ->. reflexivity.
Qed.

Lemma ArOnly_render_orbits frame s orbits g sc :
  orbit_ready s orbits →
  solarSystemGroup s = Some g → scene s = Some sc →
  is_Some (objects s !! sc) → is_Some (objects s !! g) →
  is_Some (renderer s) → is_Some (camera s) →
  match ArOnly.render frame s with
  | (Normal _, s') =>
      ∃ s1, hitTestBlock frame s = (Normal (), s1) ∧
            orbital <$> objects s1 = orbital <$> objects s ∧
            planets s' = planets s ∧
            solarSystemGroup s' = solarSystemGroup s ∧
            scene s' = scene s ∧
            objects s'
            = if attached s
              then alter (turn_by 0.001) g
                     (turn_pivots orbits (objects s1))
              else objects s1
  | (Throw e, s') =>
      hitTestBlock frame s = (Throw e, s') ∧
      orbital <$> objects s' = orbital <$> objects s
  end.
Proof.
  intros Hready Hg Hsc [sco Hsco] [go Hgo] [rid Hr] [cam Hcam].
  unfold ArOnly.render.
  destruct (hitTestBlock frame s) as [[[]|e] s1] eqn:Hb;
    destruct (hitTestBlock_orbital frame s _ s1 Hb)
      as (Hps & Hos & Hr1 & Hsc1 & Hcam1 & Hg1).
  2: { unfold mbind, JS_bind. rewrite Hb. now split. }
  erewrite run_bind by exact Hb.
  erewrite run_bind by reflexivity. rewrite Hg1, Hg.
  assert (attached s1 = attached s) as Hatt
    by (apply attached_orbital; assumption).
  assert (orbit_ready s1 orbits) as Hready1
    by exact (orbit_ready_orbital s s1 orbits Hps Hos Hready).
  assert (∀ o o' : Object3D, orbital o = orbital o' →
            children o = children o') as Hf
    by (intros ? ?; unfold orbital; congruence).
  pose proof (orbital_lookup children (objects s1) (objects s) sc Hf Hos)
    as Hc.
  rewrite Hsco in Hc.
  destruct (objects s1 !! sc) as [sco1|] eqn:Hsco1; [|discriminate Hc].
  cbn in Hc. injection Hc as Hc.
  assert (attached s = bool_decide (g ∈ children sco)) as Hatt0.
  { unfold attached, lookup_var. rewrite Hg, Hsc. cbn. now rewrite Hsco. }
  assert (is_Some (objects s1 !! g)) as [go1 Hgo1].
  { apply lookup_lt_is_Some.
    rewrite <- (length_fmap orbital), Hos, length_fmap.
    apply lookup_lt_is_Some. eauto. }
  rewrite Hatt0.
  assert (is_Some (turn_pivots orbits (objects s1) !! g)) as [go2 Hgo2].
  { apply lookup_lt_is_Some. rewrite turn_pivots_length.
    apply lookup_lt_is_Some. eauto. }
  destruct (decide (g ∈ children sco)) as [Hin|Hout].
  - rewrite (bool_decide_eq_true_2 _ Hin).
    erewrite run_bind.
    2: { cbv beta iota.
         erewrite run_bind by reflexivity. rewrite Hsc1, Hsc.
         erewrite run_bind by reflexivity.
         erewrite run_bind by (apply getObject_run; exact Hsco1).
         rewrite Hc, decide_True by exact Hin.
         erewrite run_bind by reflexivity.
         rewrite Hps, (proj1 Hready). unfold forEach.
         erewrite run_bind
           by (apply forEach_orbit; exact (proj2 (proj2 Hready1))).
         erewrite run_bind by (apply getObject_run; exact Hgo2).
         apply updObject_some. cbn [objects set_objects]. eauto. }
    rewrite (render_scene_run _ rid sc cam)
      by (state_simpl; congruence).
    exists s1. split; [reflexivity|]. split; [exact Hos|].
    state_simpl. split; [exact Hps|]. split; [congruence|].
    split; [congruence|].
    apply alter_agree. intros a Ha. rewrite Hgo2 in Ha.
    now injection Ha as <-.
  - rewrite (bool_decide_eq_false_2 _ Hout).
    erewrite run_bind.
    2: { cbv beta iota.
         erewrite run_bind by reflexivity. rewrite Hsc1, Hsc.
         erewrite run_bind by reflexivity.
         erewrite run_bind by (apply getObject_run; exact Hsco1).
         rewrite Hc, decide_False by exact Hout. reflexivity. }
    rewrite (render_scene_run _ rid sc cam) by congruence.
    exists s1. split; [reflexivity|]. split; [exact Hos|].
    state_simpl. repeat split; congruence.
Qed.

Lemma attached_placed s s' :
  solarSystemGroup s' = solarSystemGroup s → scene s' = scene s →
  placed_properties <$> objects s' = placed_properties <$> objects s →
  attached s' = attached s.
Proof.
  intros Hg Hsc Hos. unfold attached, lookup_var. rewrite Hg, Hsc.
  destruct (solarSystemGroup s) as [g|]; [|reflexivity].
  destruct (scene s) as [sc|]; cbn; [|reflexivity].
  apply (f_equal (λ l, l !! sc)) in Hos. rewrite !list_lookup_fmap in Hos.
  destruct (objects s' !! sc) as [o1|], (objects s !! sc) as [o|];
    cbn in Hos; try reflexivity; try discriminate Hos.
  unfold placed_properties in Hos. injection Hos as _ _ _ ->. reflexivity.
Qed.

Lemma orbital_placed (l1 l2 : list Object3D) :
  orbital <$> l1 = orbital <$> l2 →
  placed_properties <$> l1 = placed_properties <$> l2.
Proof.
  apply orbital_fmap. intros ? ?. unfold orbital, placed_properties.
  congruence.
Qed.

Lemma orbital_rotation (l1 l2 : list Object3D) :
  orbital <$> l1 = orbital <$> l2 → rotation <$> l1 = rotation <$> l2.
Proof. apply orbital_fmap. intros ? ?. unfold orbital. congruence. Qed.

(** X20. One frame of the loop of the first revision of main.js, on any
    state whose planets are in place and whose group and scene exist. When
    the hit-test block completes, the loop completes and nothing is moved,
    scaled or re-parented. As long as the group is not a child of the
    scene (nothing has been placed) no object is turned. Once it is, each
    pivot is turned by the speed its mesh carries, the group by 0.001, and
    nothing else: the meshes do not spin in this revision. The loop throws
    only when the hit-test block throws, and then it has turned nothing. *)
Theorem first_revision_frame (frame : option XRFrame) (s : App)
    (orbits : list (nat * nat * UserData)) (g sc : nat) :
  orbit_ready s orbits →
  solarSystemGroup s = Some g → scene s = Some sc →
  is_Some (objects s !! sc) → is_Some (objects s !! g) →
  g ∉ orbit_addresses orbits →
  is_Some (renderer s) → is_Some (camera s) →
  match ArOnly.render frame s with
  | (Normal _, s') =>
      (∃ s1, hitTestBlock frame s = (Normal (), s1)) ∧
      orbit_ready s' orbits ∧
      attached s' = attached s ∧
      placed_properties <$> objects s' = placed_properties <$> objects s ∧
      if attached s then
        (∀ p m ud, (p, m, ud) ∈ orbits →
           rotation <$> objects s' !! p
           = (λ o, rotation (turn_by (speed ud) o)) <$> objects s !! p ∧
           rotation <$> objects s' !! m = rotation <$> objects s !! m) ∧
        rotation <$> objects s' !! g
        = (λ o, rotation (turn_by 0.001 o)) <$> objects s !! g ∧
        (∀ id, id ≠ g → id ∉ ((λ t, t.1.1) <$> orbits) →
           rotation <$> objects s' !! id = rotation <$> objects s !! id)
      else rotation <$> objects s' = rotation <$> objects s
  | (Throw e, s') =>
      hitTestBlock frame s = (Throw e, s') ∧
      orbital <$> objects s' = orbital <$> objects s
  end.
Proof.
  intros Hready Hg Hsc Hsco Hgo Hfresh Hr Hcam.
  pose proof (ArOnly_render_orbits frame s orbits g sc Hready Hg Hsc Hsco
                Hgo Hr Hcam) as H.
  destruct (ArOnly.render frame s) as [[[]|e] s']; [|exact H].
  destruct H as (s1 & Hb & Hos & Hps & Hg' & Hsc' & Hobj).
  assert (orbit_ready s1 orbits) as Hready1.
  { apply (orbit_ready_orbital s); [|exact Hos|exact Hready].
    now destruct (hitTestBlock_orbital frame s _ s1 Hb). }
  destruct Hready as (Hplanets & Hnd & Hall).
  assert (g ∉ ((λ t : nat * nat * UserData, t.1.1) <$> orbits)) as Hgp.
  { intros Hin. apply Hfresh, elem_of_app. now left. }
  assert (placed_properties <$> objects s'
          = placed_properties <$> objects s) as Hplaced.
  { rewrite Hobj. destruct (attached s).
    - rewrite fmap_alter_same by (intros []; reflexivity).
      rewrite turn_pivots_placed. now apply orbital_placed.
    - now apply orbital_placed. }
  split; [eauto|]. split; [|split; [|split; [exact Hplaced|]]].
  - split; [congruence|]. split; [exact Hnd|]. rewrite Hobj.
    destruct (attached s).
    + apply Forall_planet_of_alter, turn_pivots_keeps_planets.
      exact (proj2 (proj2 Hready1)).
    + exact (proj2 (proj2 Hready1)).
  - now apply attached_placed.
  - destruct (attached s); rewrite Hobj; [|now apply orbital_rotation].
    split; [|split].
    + intros p m ud Hin.
      destruct (orbit_addresses_elem p m ud orbits Hin) as [Hpin Hmin].
      apply NoDup_app in Hnd as (Hnp & Hdisj & _).
      assert (p ∈ (λ t : nat * nat * UserData, t.1.1) <$> orbits) as Hpp
        by now apply (list_elem_of_fmap_2
                        (λ t : nat * nat * UserData, t.1.1) orbits (p, m, ud)).
      assert (m ∈ (λ t : nat * nat * UserData, t.1.2) <$> orbits) as Hmm
        by now apply (list_elem_of_fmap_2
                        (λ t : nat * nat * UserData, t.1.2) orbits (p, m, ud)).
      rewrite !list_lookup_alter_ne by congruence.
      rewrite (turn_pivots_planet orbits _ p m ud Hnp Hin).
      rewrite turn_pivots_other by (intros Hm; exact (Hdisj m Hm Hmm)).
      rewrite <- option_fmap_compose.
      split; apply orbital_lookup; try exact Hos.
      * intros o o'. apply turned_rotation.
      * intros ? ?. unfold orbital. congruence.
    + rewrite list_lookup_alter_eq, turn_pivots_other by exact Hgp.
      rewrite <- option_fmap_compose.
      apply orbital_lookup; [|exact Hos].
      intros o o'. apply turned_rotation.
    + intros id Hid Hidp.
      rewrite list_lookup_alter_ne by congruence.
      rewrite turn_pivots_other by exact Hidp.
      apply orbital_lookup; [|exact Hos].
      intros ? ?. unfold orbital. congruence.
Qed.

Ltac planets_in_place :=
  split; [vm_compute; reflexivity|];
  split; [apply (bool_decide_unpack _); vm_compute; reflexivity|];
  vm_compute;
  repeat (apply Forall_cons; split;
          [eexists _, _; repeat split; reflexivity|]);
  apply Forall_nil_2.

Lemma ar_frame_turns_planets_witness :
  let s := tracking_page hybrid in
  let frame := Some (frame_at 4 5 6) in
  let orbits := orbits_in s in
  RHybrid ≠ RArOnly ∧ orbit_ready s orbits ∧
  is_Some (renderer s) ∧ is_Some (scene s) ∧ is_Some (camera s) ∧
  match ar_loop RHybrid frame s with
  | (Normal _, s') =>
      (∃ s1, hitTestBlock frame s = (Normal (), s1)) ∧
      orbit_ready s' orbits ∧
      (∀ p m ud, (p, m, ud) ∈ orbits →
         rotation <$> objects s' !! p
         = (λ o, rotation (turn_by (speed ud) o)) <$> objects s !! p ∧
         rotation <$> objects s' !! m
         = (λ o, rotation (turn_by (speed ud * 2) o)) <$> objects s !! m) ∧
      (∀ id, id ∉ orbit_addresses orbits →
         rotation <$> objects s' !! id = rotation <$> objects s !! id) ∧
      placed_properties <$> objects s' = placed_properties <$> objects s
  | (Throw e, s') =>
      hitTestBlock frame s = (Throw e, s') ∧
      orbital <$> objects s' = orbital <$> objects s
  end.
Proof.
  intros s frame orbits.
  assert (RHybrid ≠ RArOnly) as Hv by discriminate.
  assert (orbit_ready s orbits) as Hready by planets_in_place.
  assert (is_Some (renderer s)) as Hr by (vm_compute; eauto).
  assert (is_Some (scene s)) as Hsc by (vm_compute; eauto).
  assert (is_Some (camera s)) as Hcam by (vm_compute; eauto).
  split; [exact Hv|]. split; [exact Hready|]. split; [exact Hr|].
  split; [exact Hsc|]. split; [exact Hcam|].
  exact (ar_frame_turns_planets RHybrid frame s orbits Hv Hready Hr Hsc
           Hcam).
Defined.

Lemma first_revision_frame_witness :
  let s := run arOnly
             [StartClick (mkNavigator (VXRSystem (Fulfilled true)))
                (λ _, 0.25%float);
              SessionStart; Tick (frame_at 1 2 3); ViewerSpaceGranted;
              HitTestSourceGranted 7; Tick (frame_at 1 2 3); Select]
             initial in
  let frame := Some (frame_at 4 5 6) in
  let orbits := orbits_in s in
  let g := 0 in
  let sc := 11 in
  orbit_ready s orbits ∧
  solarSystemGroup s = Some g ∧ scene s = Some sc ∧
  is_Some (objects s !! sc) ∧ is_Some (objects s !! g) ∧
  (g ∉ orbit_addresses orbits) ∧
  is_Some (renderer s) ∧ is_Some (camera s) ∧ attached s = true ∧
  match ArOnly.render frame s with
  | (Normal _, s') =>
      (∃ s1, hitTestBlock frame s = (Normal (), s1)) ∧
      orbit_ready s' orbits ∧
      attached s' = attached s ∧
      placed_properties <$> objects s' = placed_properties <$> objects s ∧
      if attached s then
        (∀ p m ud, (p, m, ud) ∈ orbits →
           rotation <$> objects s' !! p
           = (λ o, rotation (turn_by (speed ud) o)) <$> objects s !! p ∧
           rotation <$> objects s' !! m = rotation <$> objects s !! m) ∧
        rotation <$> objects s' !! g
        = (λ o, rotation (turn_by 0.001 o)) <$> objects s !! g ∧
        (∀ id, id ≠ g → id ∉ ((λ t, t.1.1) <$> orbits) →
           rotation <$> objects s' !! id = rotation <$> objects s !! id)
      else rotation <$> objects s' = rotation <$> objects s
  | (Throw e, s') =>
      hitTestBlock frame s = (Throw e, s') ∧
      orbital <$> objects s' = orbital <$> objects s
  end.
Proof.
  intros s frame orbits g sc.
  assert (orbit_ready s orbits) as Hready by planets_in_place.
  assert (solarSystemGroup s = Some g) as Hg by (vm_compute; reflexivity).
  assert (scene s = Some sc) as Hsc by (vm_compute; reflexivity).
  assert (is_Some (objects s !! sc)) as Hsco by (vm_compute; eauto).
  assert (is_Some (objects s !! g)) as Hgo by (vm_compute; eauto).
  assert (g ∉ orbit_addresses orbits) as Hfresh
    by (apply (bool_decide_unpack _); vm_compute; reflexivity).
  assert (is_Some (renderer s)) as Hr by (vm_compute; eauto).
  assert (is_Some (camera s)) as Hcam by (vm_compute; eauto).
  split; [exact Hready|]. split; [exact Hg|]. split; [exact Hsc|].
  split; [exact Hsco|]. split; [exact Hgo|]. split; [exact Hfresh|].
  split; [exact Hr|]. split; [exact Hcam|].
  split; [vm_compute; reflexivity|].
  exact (first_revision_frame frame s orbits g sc Hready Hg Hsc Hsco Hgo
           Hfresh Hr Hcam).
Defined.
